(** * spinspg: site permutations, spin-group assembly and point-group closure

    A shallow embedding of [spinspg/permutation.py], [spinspg/group.py] and
    the two functions at the end of [spinspg/pointgroup.py], with the
    properties of the specification stated over it.

    Conventions of the embedding.
    - NumPy floating-point scalars are read as exact rationals ([Qc], the
      canonical rationals, so that Python's [==] on arrays is Leibniz
      equality).  A Euclidean norm is never computed: [norm v < eps] is
      decided on squares.
    - NumPy [int64] entries are integers [Z]; the integer matrix product
      wraps around at 64 bits.
    - 3-vectors and 3x3 matrices are nested triples (a matrix is the triple
      of its rows), which is also what the sources use as hashable keys.
    - A Python exception is a value of [exn]; fallible code lives in the
      [res] monad. *)

From stdpp Require Import gmap strings list.
From Stdlib Require Import QArith Qcanon Field.

Open Scope Z_scope.

(** ** Exceptions *)

Inductive exn : Type :=
| IndexError
| ValueError
| AssertionError
| LinAlgError
| KeyError.

Inductive res (A : Type) : Type :=
| Ok (a : A)
| Raise (e : exn).
Arguments Ok {A} a.
Arguments Raise {A} e.

#[global] Instance res_ret : MRet res := λ A a, Ok a.
#[global] Instance res_bind : MBind res := λ A B f m,
  match m with
  | Ok a => f a
  | Raise e => Raise e
  end.

#[global] Instance exn_eq_dec : EqDecision exn.
Proof. solve_decision. Defined.

#[global] Instance res_eq_dec `{EqDecision A} : EqDecision (res A).
Proof. solve_decision. Defined.

(** Sequencing of a fallible body over a list, left to right; the first
    exception wins. *)
Fixpoint res_mapM {A B : Type} (f : A → res B) (l : list A) : res (list B) :=
  match l with
  | [] => Ok []
  | a :: l' => b ← f a; bs ← res_mapM f l'; Ok (b :: bs)
  end.

(** ** Vectors and matrices *)

Abbreviation vec A := (A * A * A)%type.
Abbreviation mat A := (vec A * vec A * vec A)%type.

Definition vec_map {A B : Type} (f : A → B) (v : vec A) : vec B :=
  let '(a, b, c) := v in (f a, f b, f c).

Definition vec_zip {A B C : Type} (f : A → B → C) (u : vec A) (v : vec B) : vec C :=
  let '(a, b, c) := u in let '(x, y, z) := v in (f a x, f b y, f c z).

Definition mat_map {A B : Type} (f : A → B) (m : mat A) : mat B :=
  vec_map (vec_map f) m.

(** [m.T] *)
Definition transpose {A : Type} (m : mat A) : mat A :=
  let '((a, b, c), (d, e, f), (g, h, i)) := m in
  ((a, d, g), (b, e, h), (c, f, i)).

(** The matrix whose columns are [c0], [c1], [c2]. *)
Definition mat_of_cols {A : Type} (c0 c1 c2 : vec A) : mat A :=
  transpose (c0, c1, c2).

Definition mat_cols {A : Type} (m : mat A) : list (vec A) :=
  let '(c0, c1, c2) := transpose m in [c0; c1; c2].

(** *** Integer (int64) arithmetic *)

Definition wrap64 (z : Z) : Z := (z + 2 ^ 63) `mod` 2 ^ 64 - 2 ^ 63.

Definition int64 (z : Z) : Prop := - 2 ^ 63 ≤ z < 2 ^ 63.

Definition dotZ (u v : vec Z) : Z :=
  let '(a, b, c) := u in let '(x, y, z) := v in a * x + b * y + c * z.

(** [a @ b] on int64 arrays. *)
Definition matmul_i64 (a b : mat Z) : mat Z :=
  let '(r0, r1, r2) := a in
  let '(c0, c1, c2) := transpose b in
  ((wrap64 (dotZ r0 c0), wrap64 (dotZ r0 c1), wrap64 (dotZ r0 c2)),
   (wrap64 (dotZ r1 c0), wrap64 (dotZ r1 c1), wrap64 (dotZ r1 c2)),
   (wrap64 (dotZ r2 c0), wrap64 (dotZ r2 c1), wrap64 (dotZ r2 c2))).

Definition eyeZ : mat Z := ((1, 0, 0), (0, 1, 0), (0, 0, 1)).

Definition mat_int64 (m : mat Z) : Prop :=
  let '((a, b, c), (d, e, f), (g, h, i)) := m in
  int64 a ∧ int64 b ∧ int64 c ∧ int64 d ∧ int64 e ∧ int64 f ∧
  int64 g ∧ int64 h ∧ int64 i.

(** ** pointgroup.py: closure of a generator list *)

(** The loop of [traverse_spin_operations] for an arbitrary hashable element
    type and product.  [que] is the deque with its right end first:
    [que.append x] is [x :: que] and [que.pop()] takes the head.  [founds] is
    the Python set; [for h in founds] runs over [elements founds]. *)
Section closure.
Context `{Countable G} (mul : G → G → G).

Definition enqueue_products (g : G) (founds : gset G) (que : list G) : list G :=
  foldl (λ q h, let gh := mul g h in
                if decide (gh ∈ founds) then q else gh :: q)
        que (elements founds).

Fixpoint traverse_loop (fuel : nat) (que : list G) (founds : gset G)
  : option (gset G) :=
  match fuel with
  | O => None
  | S fuel' =>
    match que with
    | [] => Some founds
    | g :: que' =>
      if decide (g ∈ founds) then traverse_loop fuel' que' founds
      else
        let founds' := {[g]} ∪ founds in
        traverse_loop fuel' (enqueue_products g founds' que') founds'
    end
  end.

(** A set closed under the product. *)
Definition closed_under (S : gset G) : Prop :=
  ∀ x y, x ∈ S → y ∈ S → mul x y ∈ S.

End closure.

(** *** The elements and the product of [traverse_spin_operations] *)

(** An element is a pair of integer matrices, each held as nested tuples
    (the value of [ndarray2d_to_integer_tuple], which on an integer array
    only changes the container). *)
Abbreviation spin_op := (mat Z * mat Z)%type.

(** [gh] in [traverse_spin_operations]. *)
Definition spin_mul (g h : spin_op) : spin_op :=
  (matmul_i64 g.1 h.1, matmul_i64 g.2 h.2).

Definition spin_identity : spin_op := (eyeZ, eyeZ).

Definition spin_op_int64 (g : spin_op) : Prop := mat_int64 g.1 ∧ mat_int64 g.2.

(** [traverse_spin_operations]: the queue is seeded with the generators in
    order, the loop runs until the queue is empty, and [tuple(founds)] is
    returned.  [None] stands for a loop that is still running when the fuel
    is used up. *)
Definition traverse_spin_operations (fuel : nat) (generators : list spin_op)
  : option (list spin_op) :=
  elements <$> traverse_loop spin_mul fuel (reverse generators) ∅.


(** ** Rational arithmetic standing for NumPy floats *)

Open Scope Qc_scope.

(** An integer read as a float. *)
Definition ZQ (z : Z) : Qc := Q2Qc (inject_Z z).

Definition Qcabs (q : Qc) : Qc := if decide (q < 0) then - q else q.

Definition Qcmax (a b : Qc) : Qc := if decide (a ≤ b) then b else a.

(** [np.rint] and [np.around]: the nearest integer, ties to the even one. *)
Definition rint (q : Qc) : Z :=
  let n := Qnum q in
  let d := Z.pos (Qden q) in
  let f := (n `div` d)%Z in
  let r := (n `mod` d)%Z in
  if decide (2 * r < d)%Z then f
  else if decide (d < 2 * r)%Z then (f + 1)%Z
  else if Z.even f then f else (f + 1)%Z.

Definition np_rint (q : Qc) : Qc := ZQ (rint q).

(** [.astype(np.int_)] on a float: the fraction is dropped. *)
Definition astype_int (q : Qc) : Z := (Qnum q ÷ Z.pos (Qden q))%Z.

(** [np.isclose(a, b)] with the default tolerances [rtol=1e-05] and
    [atol=1e-08]. *)
Definition np_isclose (a b : Qc) : bool :=
  bool_decide (Qcabs (a - b)
               ≤ Q2Qc (1 # 100000000) + Q2Qc (1 # 100000) * Qcabs b).

Definition vec_sub (u v : vec Qc) : vec Qc := vec_zip Qcminus u v.
Definition vec_add (u v : vec Qc) : vec Qc := vec_zip Qcplus u v.

Definition dotQ (u v : vec Qc) : Qc :=
  let '(a, b, c) := u in let '(x, y, z) := v in a * x + b * y + c * z.

(** [m @ v] *)
Definition mat_vec (m : mat Qc) (v : vec Qc) : vec Qc :=
  let '(r0, r1, r2) := m in (dotQ r0 v, dotQ r1 v, dotQ r2 v).

(** [a @ b] *)
Definition matmul (a b : mat Qc) : mat Qc :=
  let '(r0, r1, r2) := a in
  let '(c0, c1, c2) := transpose b in
  ((dotQ r0 c0, dotQ r0 c1, dotQ r0 c2),
   (dotQ r1 c0, dotQ r1 c1, dotQ r1 c2),
   (dotQ r2 c0, dotQ r2 c1, dotQ r2 c2)).

Definition eyeQ : mat Qc := ((1, 0, 0), (0, 1, 0), (0, 0, 1)).

(** [np.linalg.det] *)
Definition det (m : mat Qc) : Qc :=
  let '((a, b, c), (d, e, f), (g, h, i)) := m in
  a * (e * i - f * h) - b * (d * i - f * g) + c * (d * h - e * g).

Definition adjugate (m : mat Qc) : mat Qc :=
  let '((a, b, c), (d, e, f), (g, h, i)) := m in
  ((e * i - f * h, c * h - b * i, b * f - c * e),
   (f * g - d * i, a * i - c * g, c * d - a * f),
   (d * h - e * g, b * g - a * h, a * e - b * d)).

(** [np.linalg.inv]: a singular matrix raises [LinAlgError]. *)
Definition np_linalg_inv (m : mat Qc) : res (mat Qc) :=
  if decide (det m = 0) then Raise LinAlgError
  else Ok (mat_map (λ x, x / det m) (adjugate m)).

(** [np.linalg.norm(v) < eps], decided without the square root: the norm
    is the non-negative root of [dotQ v v]. *)
Definition sqnorm (v : vec Qc) : Qc := dotQ v v.

Definition sqrt_lt (s eps : Qc) : bool :=
  bool_decide (0 < eps) && bool_decide (s < eps * eps).

Definition norm_lt (v : vec Qc) (eps : Qc) : bool := sqrt_lt (sqnorm v) eps.

(** [np.max(np.linalg.norm(d, axis=1)) < eps] for the rows [d].  The
    largest norm is the root of the largest squared norm; [np.max] of an
    empty array raises [ValueError]. *)
Definition max_norm_lt (d : list (vec Qc)) (eps : Qc) : res bool :=
  match d with
  | [] => Raise ValueError
  | v :: d' => Ok (sqrt_lt (foldl Qcmax (sqnorm v) (sqnorm <$> d')) eps)
  end.

(** [a - b] on arrays of rows, with NumPy's broadcasting of a single row;
    other length mismatches raise [ValueError]. *)
Definition np_sub_rows (a b : list (vec Qc)) : res (list (vec Qc)) :=
  if decide (length a = length b) then Ok (zip_with vec_sub a b)
  else match a, b with
       | [u], _ => Ok ((λ v, vec_sub u v) <$> b)
       | _, [v] => Ok ((λ u, vec_sub u v) <$> a)
       | _, _ => Raise ValueError
       end.

(** ** Python indexing *)

(** [l[i]] for an integer [i]: a negative index counts from the end, an
    index outside [-len(l) .. len(l)-1] raises [IndexError]. *)
Definition py_index {A : Type} (l : list A) (i : Z) : res A :=
  let n := Z.of_nat (length l) in
  let k := if decide (i < 0)%Z then (i + n)%Z else i in
  if decide (0 ≤ k)%Z then
    match l !! Z.to_nat k with
    | Some a => Ok a
    | None => Raise IndexError
    end
  else Raise IndexError.

(** [a[idx]] for an integer index array [idx]: the rows [a[idx[0]]],
    [a[idx[1]]], ... *)
Definition np_take {A : Type} (a : list A) (idx : list Z) : res (list A) :=
  res_mapM (py_index a) idx.

Close Scope Qc_scope.

(** ** permutation.py *)

Record Permutation : Type := mkPermutation { permutation : list Z }.

#[global] Instance Permutation_eq_dec : EqDecision Permutation.
Proof. solve_decision. Defined.

(** [Permutation.__call__] *)
Definition perm_call (self : Permutation) (idx : Z) : res Z :=
  py_index (permutation self) idx.

(** [Permutation.__mul__]: [(self * rhs)(i) = self(rhs(i))] *)
Definition perm_mul (self rhs : Permutation) : res Permutation :=
  let n := length (permutation self) in
  if decide (length (permutation rhs) = n) then
    mul ← res_mapM (λ i, j ← perm_call rhs i; perm_call self j)
                   (seqZ 0 (Z.of_nat n));
    Ok (mkPermutation mul)
  else Raise AssertionError.

(** [is_overlap] *)
Definition is_overlap (lattice : mat Qc) (frac_coords : vec Qc) (symprec : Qc)
  : bool :=
  let diff :=
    mat_vec (transpose lattice)
            (vec_sub frac_coords (vec_map np_rint frac_coords)) in
  norm_lt diff symprec.

(** [perm != -1] where [perm] is a Python [list] and [-1] an [int]: neither
    type implements the comparison with the other, so Python falls back to
    identity and [!=] is [True], whatever the list holds. *)
Definition py_list_ne_int (perm : list Z) (k : Z) : bool := true.

(** [np.all] of a single Python [bool]. *)
Definition np_all (b : bool) : bool := b.

Section site_matching.
Variables (lattice : mat Qc) (positions : list (vec Qc)) (numbers : list Z).
Variable symprec : Qc.

(** [positions @ rot.T + trans[None, :]] *)
Definition transform_positions (rot : mat Z) (trans : vec Qc) : list (vec Qc) :=
  (λ p, vec_add (mat_vec (mat_map ZQ rot) p) trans) <$> positions.

(** The body of the loop over [j]: [Ok true] when site [j] is accepted for
    site [i], [Ok false] when the loop goes on. *)
Definition accepts (new_positions : list (vec Qc)) (found : list bool)
    (i j : nat) : res bool :=
  fj ← py_index found (Z.of_nat j);
  if (fj : bool) then Ok false
  else
    ni ← py_index numbers (Z.of_nat i);
    nj ← py_index numbers (Z.of_nat j);
    if decide (ni ≠ nj) then Ok false
    else
      x ← py_index new_positions (Z.of_nat i);
      y ← py_index positions (Z.of_nat j);
      Ok (is_overlap lattice (vec_sub x y) symprec).

(** [for j in range(num_sites)], left at the first accepted [j]. *)
Fixpoint first_target (new_positions : list (vec Qc)) (found : list bool)
    (i : nat) (js : list nat) : res (option nat) :=
  match js with
  | [] => Ok None
  | j :: js' =>
    b ← accepts new_positions found i j;
    if (b : bool) then Ok (Some j) else first_target new_positions found i js'
  end.

(** [for i in range(num_sites)], carrying [perm] and [found]. *)
Fixpoint assign_sites (new_positions : list (vec Qc)) (num_sites : nat)
    (sites : list nat) (perm : list Z) (found : list bool)
  : res (list Z * list bool) :=
  match sites with
  | [] => Ok (perm, found)
  | i :: sites' =>
    o ← first_target new_positions found i (seq 0 num_sites);
    match o with
    | Some j =>
      assign_sites new_positions num_sites sites'
                   (<[i := Z.of_nat j]> perm) (<[j := true]> found)
    | None => assign_sites new_positions num_sites sites' perm found
    end
  end.

(** The body of the loop over the operations: the list [perm] built for
    one operation. *)
Definition site_assignment (rot : mat Z) (trans : vec Qc) : res (list Z) :=
  let num_sites := length positions in
  let new_positions := transform_positions rot trans in
  pf ← assign_sites new_positions num_sites (seq 0 num_sites)
                    (replicate num_sites (-1)%Z) (replicate num_sites false);
  Ok pf.1.

Fixpoint collect_permutations (ops : list (mat Z * vec Qc))
    (permutations : list Permutation) : res (list Permutation) :=
  match ops with
  | [] => Ok permutations
  | (rot, trans) :: ops' =>
    perm ← site_assignment rot trans;
    if np_all (py_list_ne_int perm (-1))
    then collect_permutations ops' (permutations ++ [mkPermutation perm])
    else collect_permutations ops' permutations
  end.

End site_matching.

(** [get_symmetry_permutations] *)
Definition get_symmetry_permutations (lattice : mat Qc)
    (positions : list (vec Qc)) (numbers : list Z)
    (rotations : list (mat Z)) (translations : list (vec Qc)) (symprec : Qc)
  : res (list Permutation) :=
  collect_permutations lattice positions numbers symprec
                       (zip rotations translations) [].

(** ** group.py *)

Record NonmagneticSymmetry : Type := mkNonmagneticSymmetry {
  prim_lattice : mat Qc;
  prim_rotations : list (mat Z);
  prim_translations : list (vec Qc);
  prim_permutations : list Permutation;
  prim_centerings : list (vec Qc);
  prim_centering_permutations : list Permutation;
  transformation : mat Z;
}.

Record SpinSymmetryOperation : Type := mkSpinSymmetryOperation {
  rotation : mat Qc;
  translation : vec Qc;
  spin_rotation : mat Qc;
}.

#[global] Instance SpinSymmetryOperation_eq_dec : EqDecision SpinSymmetryOperation.
Proof. solve_decision. Defined.

(** The fields [prim_lattice], [prim_centerings] and [transformation] of
    the Python class carry the prefix [ssg_] here, the names being taken by
    [NonmagneticSymmetry]. *)
Record SpinSpaceGroup (SpinOnlyGroup : Type) : Type := mkSpinSpaceGroup {
  ssg_prim_lattice : mat Qc;
  spin_only_group : SpinOnlyGroup;
  spin_translation_coset : list SpinSymmetryOperation;
  ssg_prim_centerings : list (vec Qc);
  nontrivial_coset : list SpinSymmetryOperation;
  ssg_transformation : mat Qc;
}.
Arguments mkSpinSpaceGroup {SpinOnlyGroup}.
Arguments ssg_prim_lattice {SpinOnlyGroup}.
Arguments spin_only_group {SpinOnlyGroup}.
Arguments spin_translation_coset {SpinOnlyGroup}.
Arguments ssg_prim_centerings {SpinOnlyGroup}.
Arguments nontrivial_coset {SpinOnlyGroup}.
Arguments ssg_transformation {SpinOnlyGroup}.

Definition is_integer (q : Qc) : bool := bool_decide (Qden q = 1%positive).

(** Modelled from the spec: [is_integer_array] of [spinspg.utils], which is
    not among the sources.  The specification rejects a rotation that "is
    not an integer matrix": here every entry has to be an integer. *)
Definition is_integer_array (m : mat Qc) : bool :=
  let '((a, b, c), (d, e, f), (g, h, i)) := m in
  is_integer a && is_integer b && is_integer c &&
  is_integer d && is_integer e && is_integer f &&
  is_integer g && is_integer h && is_integer i.

(** [tuple(np.around(tmat_stg @ reduced_centering).astype(np.int_))] with
    [reduced_centering = tmatinv_stg @ centering] less its nearest integer
    vector. *)
Definition reduce_centering (tmat_stg tmatinv_stg : mat Qc) (centering : vec Qc)
  : vec Z :=
  let reduced_centering := mat_vec tmatinv_stg centering in
  let reduced_centering :=
    vec_sub reduced_centering (vec_map np_rint reduced_centering) in
  vec_map (λ x, astype_int (np_rint x)) (mat_vec tmat_stg reduced_centering).

(** [tmat_stg[:, :3]] of a matrix given by its columns, ready for
    [np.linalg.inv], which refuses a matrix that is not square. *)
Definition leading_columns (cols : list (vec Qc)) : res (mat Qc) :=
  match cols with
  | c0 :: c1 :: c2 :: _ => Ok (mat_of_cols c0 c1 c2)
  | _ => Raise LinAlgError
  end.

(** The external collaborators of the assembler: the Hermite normal form of
    [hsnf] (a matrix is passed and returned as the list of its columns; the
    unimodular factor, which the caller drops, is left out), and the
    spin-only group and the Procrustes solver of [spinspg.spin]. *)
Section assembler.
Variable column_style_hermite_normal_form : list (vec Qc) → list (vec Qc).
Variable SpinOnlyGroup : Type.
Variable get_spin_only_group : list (vec Qc) → Qc → SpinOnlyGroup.
Variable contain : SpinOnlyGroup → mat Qc → bool.
Variable solve_procrustes : list (vec Qc) → list (vec Qc) → mat Qc.

(** [np.max(np.linalg.norm(magmoms[perm.permutation] - magmoms, axis=1))
    < mag_symprec] *)
Definition moments_invariant (magmoms : list (vec Qc)) (perm : Permutation)
    (mag_symprec : Qc) : res bool :=
  perm_magmoms ← np_take magmoms (permutation perm);
  d ← np_sub_rows perm_magmoms magmoms;
  max_norm_lt d mag_symprec.

(** The first loop: the centerings kept for the maximal space subgroup,
    each with its permutation. *)
Fixpoint retain_centerings (magmoms : list (vec Qc)) (mag_symprec : Qc)
    (cps : list (vec Qc * Permutation)) : res (list (vec Qc * Permutation)) :=
  match cps with
  | [] => Ok []
  | (centering, perm) :: cps' =>
    b ← moments_invariant magmoms perm mag_symprec;
    rest ← retain_centerings magmoms mag_symprec cps';
    Ok (if (b : bool) then (centering, perm) :: rest else rest)
  end.

(** The search for [W] shared by both coset loops: the Procrustes fit onto
    the permuted moments, replaced by the identity when it belongs to the
    spin-only group, and kept ([Some W]) only when the rotated moments meet
    the permuted ones within [mag_symprec]. *)
Definition fit_spin_rotation (sog : SpinOnlyGroup) (magmoms : list (vec Qc))
    (perm : Permutation) (mag_symprec : Qc) : res (option (mat Qc)) :=
  let new_magmoms := magmoms in
  perm_magmoms ← np_take magmoms (permutation perm);
  let W := solve_procrustes new_magmoms perm_magmoms in
  let W := if contain sog W then eyeQ else W in
  let new_magmoms := mat_vec W <$> new_magmoms in
  d ← np_sub_rows new_magmoms perm_magmoms;
  b ← max_norm_lt d mag_symprec;
  Ok (if (b : bool) then Some W else None).

(** The spin translation group search. *)
Fixpoint spin_translation_search (tmat_stg tmatinv_stg : mat Qc)
    (sog : SpinOnlyGroup) (magmoms : list (vec Qc)) (mag_symprec : Qc)
    (cps : list (vec Qc * Permutation))
    (found_stg_centerings : gset (vec Z))
    (spin_translation_coset : list SpinSymmetryOperation)
  : res (list SpinSymmetryOperation) :=
  match cps with
  | [] => Ok spin_translation_coset
  | (centering, perm) :: cps' =>
    let reduced_centering := reduce_centering tmat_stg tmatinv_stg centering in
    if decide (reduced_centering ∈ found_stg_centerings) then
      spin_translation_search tmat_stg tmatinv_stg sog magmoms mag_symprec cps'
        found_stg_centerings spin_translation_coset
    else
      o ← fit_spin_rotation sog magmoms perm mag_symprec;
      spin_translation_search tmat_stg tmatinv_stg sog magmoms mag_symprec cps'
        ({[reduced_centering]} ∪ found_stg_centerings)
        match o with
        | Some W =>
          spin_translation_coset ++
            [mkSpinSymmetryOperation eyeQ (mat_vec tmatinv_stg centering) W]
        | None => spin_translation_coset
        end
  end.

(** One step of the loop over the retained centerings for a given
    operation: the operation to append, if this centering fits. *)
Definition try_centering (tmatinv_stg : mat Qc) (sog : SpinOnlyGroup)
    (magmoms : list (vec Qc)) (mag_symprec : Qc)
    (rot_prim : mat Qc) (trans : vec Qc) (perm : Permutation)
    (cp : vec Qc * Permutation) : res (option SpinSymmetryOperation) :=
  let '(centering, centering_perm) := cp in
  new_perm ← perm_mul centering_perm perm;
  o ← fit_spin_rotation sog magmoms new_perm mag_symprec;
  Ok match o with
     | Some W =>
       let new_trans := vec_add centering trans in
       Some (mkSpinSymmetryOperation rot_prim
               (mat_vec tmatinv_stg new_trans) W)
     | None => None
     end.

(** The loop over the retained centerings, left ([break]) at the first one
    that fits. *)
Fixpoint first_centering (tmatinv_stg : mat Qc) (sog : SpinOnlyGroup)
    (magmoms : list (vec Qc)) (mag_symprec : Qc)
    (rot_prim : mat Qc) (trans : vec Qc) (perm : Permutation)
    (cps : list (vec Qc * Permutation)) : res (option SpinSymmetryOperation) :=
  match cps with
  | [] => Ok None
  | cp :: cps' =>
    o ← try_centering tmatinv_stg sog magmoms mag_symprec rot_prim trans perm cp;
    match o with
    | Some op => Ok (Some op)
    | None =>
      first_centering tmatinv_stg sog magmoms mag_symprec rot_prim trans perm cps'
    end
  end.

(** [tmatinv_stg @ rot @ tmat_stg] *)
Definition to_primitive (tmat_stg tmatinv_stg : mat Qc) (rot : mat Z) : mat Qc :=
  matmul (matmul tmatinv_stg (mat_map ZQ rot)) tmat_stg.

(** The spin space group search over the (rotation, translation,
    permutation) triples. *)
Fixpoint nontrivial_search (tmat_stg tmatinv_stg : mat Qc)
    (sog : SpinOnlyGroup) (magmoms : list (vec Qc)) (mag_symprec : Qc)
    (retained : list (vec Qc * Permutation))
    (ops : list (mat Z * vec Qc * Permutation))
    (nontrivial_coset : list SpinSymmetryOperation)
  : res (list SpinSymmetryOperation) :=
  match ops with
  | [] => Ok nontrivial_coset
  | (rot, trans, perm) :: ops' =>
    let rot_prim := to_primitive tmat_stg tmatinv_stg rot in
    if negb (is_integer_array rot_prim) then
      nontrivial_search tmat_stg tmatinv_stg sog magmoms mag_symprec retained
        ops' nontrivial_coset
    else
      o ← first_centering tmatinv_stg sog magmoms mag_symprec rot_prim trans
                          perm retained;
      nontrivial_search tmat_stg tmatinv_stg sog magmoms mag_symprec retained
        ops'
        match o with
        | Some op => nontrivial_coset ++ [op]
        | None => nontrivial_coset
        end
  end.

(** [np.concatenate([transformation, np.array(stg_centerings).T], axis=1)],
    as the list of its columns.  With no centering retained the second
    array has one dimension only and NumPy raises [ValueError]. *)
Definition stg_vectors (transformation : mat Z) (stg_centerings : list (vec Qc))
  : res (list (vec Qc)) :=
  match stg_centerings with
  | [] => Raise ValueError
  | _ => Ok (mat_cols (mat_map ZQ transformation) ++ stg_centerings)
  end.

(** [get_primitive_spin_symmetry] *)
Definition get_primitive_spin_symmetry
    (nonmagnetic_symmetry : NonmagneticSymmetry)
    (magmoms : list (vec Qc)) (mag_symprec : Qc)
  : res (SpinSpaceGroup SpinOnlyGroup) :=
  let cps := zip (prim_centerings nonmagnetic_symmetry)
                 (prim_centering_permutations nonmagnetic_symmetry) in
  retained ← retain_centerings magmoms mag_symprec cps;
  let stg_centerings := retained.*1 in
  let stg_centering_permutations := retained.*2 in
  vectors ← stg_vectors (transformation nonmagnetic_symmetry) stg_centerings;
  tmat_stg ← leading_columns (column_style_hermite_normal_form vectors);
  tmatinv_stg ← np_linalg_inv tmat_stg;
  if negb (np_isclose (Qcabs (det tmat_stg))
                      (ZQ (Z.of_nat (length stg_centerings))))
  then Raise AssertionError
  else
    let sog := get_spin_only_group magmoms mag_symprec in
    spin_translation_coset ←
      spin_translation_search tmat_stg tmatinv_stg sog magmoms mag_symprec
                              cps ∅ [];
    let new_prim_lattice := matmul (prim_lattice nonmagnetic_symmetry) tmat_stg in
    let new_prim_centerings := mat_vec tmatinv_stg <$> stg_centerings in
    new_prim_lattice_inv ← np_linalg_inv new_prim_lattice;
    let new_transformation :=
      matmul (matmul new_prim_lattice_inv (prim_lattice nonmagnetic_symmetry))
             (mat_map ZQ (transformation nonmagnetic_symmetry)) in
    nontrivial_coset ←
      nontrivial_search tmat_stg tmatinv_stg sog magmoms mag_symprec
        (zip stg_centerings stg_centering_permutations)
        (zip (zip (prim_rotations nonmagnetic_symmetry)
                  (prim_translations nonmagnetic_symmetry))
             (prim_permutations nonmagnetic_symmetry))
        [];
    Ok (mkSpinSpaceGroup new_prim_lattice sog spin_translation_coset
                         new_prim_centerings nontrivial_coset
                         new_transformation).

End assembler.

(** ** pointgroup.py: matching against the catalogue *)

(** [ndarray2d_to_integer_tuple] of [spgrep.utils]: every entry rounded
    to the nearest integer, the rows returned as nested tuples. *)
Definition ndarray2d_to_integer_tuple (m : mat Qc) : mat Z :=
  mat_map (λ x, astype_int (np_rint x)) m.

(** [Pinv @ r @ P] as an integer tuple. *)
Definition conjugate (P Pinv : mat Qc) (r : mat Z) : mat Z :=
  ndarray2d_to_integer_tuple (matmul (matmul Pinv (mat_map ZQ r)) P).

(** [for i, ri in enumerate(std_rotations)]: [Ok None] when some [ri] is
    not among [matched] ([success = False]), the filled [mapping]
    otherwise.  [matched.index(ri)] is the first position holding [ri];
    [mapping[i] = j] raises [IndexError] past the end of [mapping]. *)
Fixpoint match_rotations (matched : list (mat Z)) (std_rotations : list (mat Z))
    (i : nat) (mapping : list Z) : res (option (list Z)) :=
  match std_rotations with
  | [] => Ok (Some mapping)
  | ri :: std_rotations' =>
    match list_find (λ m, m = ri) matched with
    | None => Ok None
    | Some (j, _) =>
      if decide (i < length mapping)%nat then
        match_rotations matched std_rotations' (S i)
                        (<[i := Z.of_nat j]> mapping)
      else Raise IndexError
    end
  end.

(** [for idx, std_rotations in enumerate(pg_dataset[pg_symbol])]; running
    off the end of the loop, the Python function returns [None]. *)
Fixpoint search_catalogue (pg_symbol : string) (matched : list (mat Z))
    (order : nat) (entries : list (list (mat Z))) (idx : nat)
  : res (option (string * nat * list Z)) :=
  match entries with
  | [] => Ok None
  | std_rotations :: entries' =>
    o ← match_rotations matched std_rotations 0 (replicate order (-1)%Z);
    match o with
    | Some mapping => Ok (Some (pg_symbol, idx, mapping))
    | None => search_catalogue pg_symbol matched order entries' (S idx)
    end
  end.

(** The external collaborators: [get_pointgroup] of [spglib] (its result
    without the unused middle component) and the catalogue [pg_dataset] of
    [spgrep]. *)
Section canonical.
Variable get_pointgroup : list (mat Z) → string * mat Z.
Variable pg_dataset : gmap string (list (list (mat Z))).

(** [get_canonical_pointgroup] *)
Definition get_canonical_pointgroup (prim_rotations : list (mat Z))
  : res (option (string * nat * list Z)) :=
  let '(pg_symbol, P) := get_pointgroup prim_rotations in
  let P := mat_map ZQ P in
  Pinv ← np_linalg_inv P;
  let order := length prim_rotations in
  entries ← match pg_dataset !! pg_symbol with
            | Some entries => Ok entries
            | None => Raise KeyError
            end;
  let matched := conjugate P Pinv <$> prim_rotations in
  search_catalogue pg_symbol matched order entries 0.

End canonical.

(** ** pointgroup.py: the representative of a crystal class *)

(** [POINT_GROUP_REPRESENTATIVES] *)
Definition POINT_GROUP_REPRESENTATIVES : gmap string Z :=
  list_to_map
    [ ("1", 0); ("-1", 0);
      ("2", 1); ("m", 1); ("2/m", 0);
      ("222", 0); ("mm2", 2); ("mmm", 0);
      ("4", 0); ("-4", -0); ("4/m", 0); ("422", 0); ("4mm", 0);
      ("-42m", 0); ("4/mmm", 0);
      ("3", 0); ("-3", 0); ("32", 0); ("3m", 0); ("-3m", 0);
      ("6", 0); ("-6", 0); ("6/m", 0); ("622", 0); ("6mm", 0);
      ("-6m2", 0); ("6/mmm", 0);
      ("23", 0); ("m-3", 0); ("432", 0); ("-43m", 0); ("m-3m", 0) ]%string.

(** A subscript on a [dict]: a missing key raises [KeyError]. *)
Definition py_getitem {V : Type} (d : gmap string V) (key : string) : res V :=
  match d !! key with
  | Some v => Ok v
  | None => Raise KeyError
  end.

(** [get_pointgroup_representative], over the catalogue [pg_dataset] of
    [spgrep]. *)
Definition get_pointgroup_representative
    (pg_dataset : gmap string (list (list (mat Z)))) (symbol : string)
  : res (list (mat Z)) :=
  index ← py_getitem POINT_GROUP_REPRESENTATIVES symbol;
  descriptions ← py_getitem pg_dataset symbol;
  py_index descriptions index.

(** *** [get_symmetry_with_cell] *)

Definition vec_all (v : vec bool) : bool := let '(a, b, c) := v in a && b && c.

(** [np.allclose(a, b)] on 3x3 arrays. *)
Definition np_allclose (a b : mat Qc) : bool :=
  vec_all (vec_map vec_all (vec_zip (vec_zip np_isclose) a b)).

(** The first loop of [get_symmetry_with_cell]: the operations unique by
    rotation part (the rotation and the translation of the first
    occurrence, kept side by side) and the translations of the operations
    whose rotation is the identity. *)
Fixpoint unique_by_rotation (ops : list (mat Z * vec Qc))
    (found_rotations : gset (mat Z)) (uniq : list (mat Z * vec Qc))
    (centerings : list (vec Qc)) : list (mat Z * vec Qc) * list (vec Qc) :=
  match ops with
  | [] => (uniq, centerings)
  | (rot, trans) :: ops' =>
    let centerings' :=
      if np_allclose (mat_map ZQ rot) eyeQ then centerings ++ [trans]
      else centerings in
    let rot_int := ndarray2d_to_integer_tuple (mat_map ZQ rot) in
    if decide (rot_int ∈ found_rotations) then
      unique_by_rotation ops' found_rotations uniq centerings'
    else
      unique_by_rotation ops' ({[rot_int]} ∪ found_rotations)
                         (uniq ++ [(rot, trans)]) centerings'
  end.

(** [np.around(m).astype(np.int_)] *)
Definition around_int (m : mat Qc) : mat Z :=
  mat_map (λ x, astype_int (np_rint x)) m.

(** The external collaborator: [get_symmetry_dataset] of [spglib], reduced
    to the three entries of the dataset that are read (rotations,
    translations, primitive lattice). *)
Section cell.
Variable get_symmetry_dataset :
  mat Qc → list (vec Qc) → list Z → Qc → Qc →
  list (mat Z) * list (vec Qc) * mat Qc.

(** [get_symmetry_with_cell] *)
Definition get_symmetry_with_cell (lattice : mat Qc)
    (positions : list (vec Qc)) (numbers : list Z)
    (symprec angle_tolerance : Qc) : res NonmagneticSymmetry :=
  let '(rotations, translations, prim_lattice) :=
    get_symmetry_dataset lattice positions numbers symprec angle_tolerance in
  let '(uniq, centerings) :=
    unique_by_rotation (zip rotations translations) ∅ [] [] in
  let uniq_rotations := uniq.*1 in
  let uniq_translations := uniq.*2 in
  prim_lattice_T_inv ← np_linalg_inv (transpose prim_lattice);
  let tmat := matmul prim_lattice_T_inv (transpose lattice) in
  if negb (np_isclose (Qcabs (det tmat)) (ZQ (Z.of_nat (length centerings))))
  then Raise AssertionError
  else
    prim_permutations ←
      get_symmetry_permutations lattice positions numbers
                                uniq_rotations uniq_translations symprec;
    prim_centering_permutations ←
      get_symmetry_permutations lattice positions numbers
                                (replicate (length centerings) eyeZ)
                                centerings symprec;
    invtmat ← np_linalg_inv tmat;
    let prim_rotations :=
      (λ rot, around_int (matmul (matmul tmat (mat_map ZQ rot)) invtmat))
        <$> (zip uniq_rotations uniq_translations).*1 in
    let prim_translations :=
      (λ trans, mat_vec tmat trans)
        <$> (zip uniq_rotations uniq_translations).*2 in
    let prim_centerings := mat_vec tmat <$> centerings in
    Ok {| prim_lattice := prim_lattice;
          prim_rotations := prim_rotations;
          prim_translations := prim_translations;
          prim_permutations := prim_permutations;
          prim_centerings := prim_centerings;
          prim_centering_permutations := prim_centering_permutations;
          transformation := around_int tmat |}.

End cell.

(** ** Notions used to state the properties *)

(** [m @ v] over the integers. *)
Definition mat_vecZ (m : mat Z) (v : vec Z) : vec Z :=
  let '(r0, r1, r2) := m in (dotZ r0 v, dotZ r1 v, dotZ r2 v).

(** [v] lies in the lattice spanned by the columns of [T]. *)
Definition in_lattice (T : mat Qc) (v : vec Qc) : Prop :=
  ∃ n : vec Z, v = mat_vec T (vec_map ZQ n).

(** A permutation array over [n] sites: [n] entries, each a site index. *)
Definition valid_permutation (n : nat) (p : Permutation) : Prop :=
  length (permutation p) = n
  ∧ Forall (λ k, 0 ≤ k < Z.of_nat n)%Z (permutation p).

(** The moment of the site that [perm] assigns to site [i] is the moment of
    site [i] within [eps]. *)
Definition site_unchanged (magmoms : list (vec Qc)) (perm : Permutation)
    (eps : Qc) (i : nat) : Prop :=
  ∃ k m m',
    permutation perm !! i = Some k
    ∧ magmoms !! Z.to_nat k = Some m'
    ∧ magmoms !! i = Some m
    ∧ norm_lt (vec_sub m' m) eps = true.

Definition detZ (m : mat Z) : Z :=
  let '((a, b, c), (d, e, f), (g, h, i)) := m in
  a * (e * i - f * h) - b * (d * i - f * g) + c * (d * h - e * g).

(** What the assembler relies on in a column-style Hermite normal form
    [H] of the full-rank matrix with columns [A]: [H] has integer entries,
    its columns after the third are zero, and [A] is [H] times an integer
    matrix, so that every column of [A] is an integer combination of the
    three leading columns of [H]. *)
Definition hnf_basis (A H : list (vec Qc)) : Prop :=
  ∃ T, leading_columns H = Ok T
       ∧ is_integer_array T = true
       ∧ Forall (in_lattice T) A.

(** *** Two small magnetic structures and stand-ins for the collaborators *)

Definition zero3 : vec Qc := (ZQ 0, ZQ 0, ZQ 0).

(** Two sites of one species, exchanged by the inversion, with opposite
    moments along z; the cell is primitive. *)
Definition antiferromagnet : NonmagneticSymmetry :=
  {| prim_lattice := eyeQ;
     prim_rotations := [eyeZ; ((-1, 0, 0), (0, -1, 0), (0, 0, -1))];
     prim_translations := [zero3; zero3];
     prim_permutations := [mkPermutation [0; 1]; mkPermutation [1; 0]];
     prim_centerings := [zero3];
     prim_centering_permutations := [mkPermutation [0; 1]];
     transformation := eyeZ |}.

Definition antiferromagnet_magmoms : list (vec Qc) :=
  [(ZQ 0, ZQ 0, ZQ 1); (ZQ 0, ZQ 0, ZQ (-1))].

(** Two sites with equal moments in a cell doubled along the first axis:
    the second centering, one primitive translation, exchanges the
    sites.  [|det transformation| = 2] is the number of centerings. *)
Definition ferromagnetic_supercell : NonmagneticSymmetry :=
  {| prim_lattice := eyeQ;
     prim_rotations := [eyeZ];
     prim_translations := [zero3];
     prim_permutations := [mkPermutation [0; 1]];
     prim_centerings := [zero3; (ZQ 1, ZQ 0, ZQ 0)];
     prim_centering_permutations := [mkPermutation [0; 1]; mkPermutation [1; 0]];
     transformation := ((2, 0, 0), (0, 1, 0), (0, 0, 1)) |}.

Definition ferromagnetic_magmoms : list (vec Qc) :=
  [(ZQ 0, ZQ 0, ZQ 1); (ZQ 0, ZQ 0, ZQ 1)].

(** The columns handed to the Hermite normal form for
    [ferromagnetic_supercell]. *)
Definition ferromagnetic_vectors : list (vec Qc) :=
  [(ZQ 2, ZQ 0, ZQ 0); (ZQ 0, ZQ 1, ZQ 0); (ZQ 0, ZQ 0, ZQ 1);
   zero3; (ZQ 1, ZQ 0, ZQ 0)].

(** The Hermite normal form of a matrix whose columns span the whole
    integer lattice: the identity followed by zero columns. *)
Definition unit_hnf (cols : list (vec Qc)) : list (vec Qc) :=
  [(ZQ 1, ZQ 0, ZQ 0); (ZQ 0, ZQ 1, ZQ 0); (ZQ 0, ZQ 0, ZQ 1)]
  ++ replicate (length cols - 3) zero3.

(** A spin-only group given by the moments it has to fix. *)
Definition fixes_moments (magmoms : list (vec Qc)) (W : mat Qc) : bool :=
  bool_decide (Forall (λ m, mat_vec W m = m) magmoms).

(** A solver that is exact on the two structures above: the identity when
    the target is the source, the half turn about the first axis
    otherwise. *)
Definition half_turn_fit (source target : list (vec Qc)) : mat Qc :=
  if decide (source = target) then eyeQ
  else ((ZQ 1, ZQ 0, ZQ 0), (ZQ 0, ZQ (-1), ZQ 0), (ZQ 0, ZQ 0, ZQ (-1))).

(** *** What the coset searches store *)

Section stored_operations.
Variable SpinOnlyGroup : Type.
Variable contain : SpinOnlyGroup → mat Qc → bool.
Variable solve_procrustes : list (vec Qc) → list (vec Qc) → mat Qc.

(** [W] is the spin rotation kept for the permutation [perm]: the
    Procrustes fit onto the permuted moments, or the identity when that fit
    belongs to the spin-only group, and [W] applied to the moments meets
    the permuted moments, the largest norm of the differences, and so the
    norm of each, being strictly below [mag_symprec]. *)
Definition canonical_fit (sog : SpinOnlyGroup) (magmoms : list (vec Qc))
    (mag_symprec : Qc) (perm : Permutation) (W : mat Qc) : Prop :=
  ∃ perm_magmoms d,
    np_take magmoms (permutation perm) = Ok perm_magmoms
    ∧ (contain sog (solve_procrustes magmoms perm_magmoms) = true
       → W = eyeQ)
    ∧ (contain sog (solve_procrustes magmoms perm_magmoms) = false
       → W = solve_procrustes magmoms perm_magmoms)
    ∧ np_sub_rows (mat_vec W <$> magmoms) perm_magmoms = Ok d
    ∧ max_norm_lt d mag_symprec = Ok true
    ∧ Forall (λ v, norm_lt v mag_symprec = true) d.

(** The retained centering [cp] fits the operation with the permutation
    [perm]: the centering permutation composed with [perm] has a spin
    rotation that is kept. *)
Definition centering_fits (sog : SpinOnlyGroup) (magmoms : list (vec Qc))
    (mag_symprec : Qc) (perm : Permutation) (cp : vec Qc * Permutation)
  : Prop :=
  ∃ new_perm W,
    perm_mul cp.2 perm = Ok new_perm
    ∧ canonical_fit sog magmoms mag_symprec new_perm W.

(** What one (rotation, translation, permutation) triple adds to the
    nontrivial coset: nothing when its rotation is not an integer matrix in
    the new basis; otherwise the operation of the first retained centering
    that fits, no earlier centering fitting, or nothing when no retained
    centering fits. *)
Definition contribution (tmat_stg tmatinv_stg : mat Qc) (sog : SpinOnlyGroup)
    (magmoms : list (vec Qc)) (mag_symprec : Qc)
    (retained : list (vec Qc * Permutation))
    (triple : mat Z * vec Qc * Permutation)
    (o : option SpinSymmetryOperation) : Prop :=
  let '(rot, trans, perm) := triple in
  let rot_prim := to_primitive tmat_stg tmatinv_stg rot in
  if is_integer_array rot_prim then
    match o with
    | None =>
      ∀ cp, cp ∈ retained → ¬ centering_fits sog magmoms mag_symprec perm cp
    | Some op =>
      ∃ i centering centering_perm new_perm W,
        retained !! i = Some (centering, centering_perm)
        ∧ (∀ j cp, (j < i)%nat → retained !! j = Some cp →
             ¬ centering_fits sog magmoms mag_symprec perm cp)
        ∧ perm_mul centering_perm perm = Ok new_perm
        ∧ canonical_fit sog magmoms mag_symprec new_perm W
        ∧ op = mkSpinSymmetryOperation rot_prim
                 (mat_vec tmatinv_stg (vec_add centering trans)) W
    end
  else o = None.

End stored_operations.

(** *** Small inputs for the point-group functions *)

(** A catalogue with the single entry of the trivial group and an oracle
    that classifies everything as "1" in the given basis. *)
Definition trivial_dataset : gmap string (list (list (mat Z))) :=
  {[ "1"%string := [[eyeZ]] ]}.

Definition trivial_oracle (rotations : list (mat Z)) : string * mat Z :=
  ("1"%string, eyeZ).

Definition quarter_turn_z : mat Z := ((0, -1, 0), (1, 0, 0), (0, 0, 1))%Z.

(** The quarter turn about the third axis, in both components. *)
Definition quarter_turn : spin_op :=
  (quarter_turn_z, quarter_turn_z).


(** *** Notions for the permutation algebra and the site matching *)

(** The identity on [n] sites. *)
Definition identity_permutation (n : nat) : Permutation :=
  mkPermutation (seqZ 0 (Z.of_nat n)).

(** Python's reading of an index [k] of a sequence of length [n]. *)
Definition wrap_index (n : nat) (k : Z) : nat :=
  Z.to_nat (if decide (k < 0) then k + Z.of_nat n else k).

(** What [get_symmetry_permutations] guarantees of the list [perm] built
    for the operation [(rot, trans)]: one entry per site; an entry is -1 or
    a site of the same species that the transformed site overlaps; no site
    is the target of two sites. *)
Definition site_matching (lattice : mat Qc) (positions : list (vec Qc))
    (numbers : list Z) (symprec : Qc) (op : mat Z * vec Qc) (perm : list Z)
  : Prop :=
  length perm = length positions
  ∧ (∀ i k, perm !! i = Some k →
       k = (-1)%Z
       ∨ ∃ j x y,
           k = Z.of_nat j
           ∧ transform_positions positions op.1 op.2 !! i = Some x
           ∧ positions !! j = Some y
           ∧ numbers !! i = numbers !! j
           ∧ is_overlap lattice (vec_sub x y) symprec = true)
  ∧ (∀ i i' k, perm !! i = Some k → perm !! i' = Some k → k ≠ (-1)%Z →
       i = i').

(** The fractional part kept by the reduction of the spin-translation
    search, as a function of the translation [t = tmatinv_stg @
    centering]. *)
Definition reduce_translation (tmat_stg : mat Qc) (t : vec Qc) : vec Z :=
  vec_map (λ x, astype_int (np_rint x))
          (mat_vec tmat_stg (vec_sub t (vec_map np_rint t))).

Section matching_state.
Variables (lattice : mat Qc) (positions : list (vec Qc)) (numbers : list Z).
Variable symprec : Qc.

(** The test that accepts a target, in terms of the arrays. *)
Definition fits (new_positions : list (vec Qc)) (i j : nat) : Prop :=
  ∃ x y,
    new_positions !! i = Some x
    ∧ positions !! j = Some y
    ∧ numbers !! i = numbers !! j
    ∧ is_overlap lattice (vec_sub x y) symprec = true.

(** The state carried by the loop over the sites. *)
Definition matched (new_positions : list (vec Qc)) (perm : list Z)
    (found : list bool) : Prop :=
  length perm = length positions
  ∧ length found = length positions
  ∧ (∀ i k, perm !! i = Some k →
       k = (-1)%Z
       ∨ ∃ j, k = Z.of_nat j ∧ found !! j = Some true
              ∧ fits new_positions i j)
  ∧ (∀ i i' k, perm !! i = Some k → perm !! i' = Some k → k ≠ (-1)%Z →
       i = i').

(** The arrays after the first [i] sites have been matched with
    themselves. *)
Definition diagonal (i : nat) (perm : list Z) (found : list bool) : Prop :=
  length perm = length positions
  ∧ length found = length positions
  ∧ (∀ k, (k < i)%nat →
       perm !! k = Some (Z.of_nat k) ∧ found !! k = Some true)
  ∧ (∀ k, (i ≤ k < length positions)%nat →
       perm !! k = Some (-1)%Z ∧ found !! k = Some false).

End matching_state.

(** A catalogue whose entry for "1" lists the identity twice. *)
Definition repeated_dataset : gmap string (list (list (mat Z))) :=
  {[ "1"%string := [[eyeZ; eyeZ]] ]}.

(** A dataset for one site in a cubic cell: the identity and the inversion,
    the inversion listed twice; the cell is primitive. *)
Definition inversionZ : mat Z := ((-1, 0, 0), (0, -1, 0), (0, 0, -1))%Z.

Definition cubic_dataset (lattice : mat Qc) (positions : list (vec Qc))
    (numbers : list Z) (symprec angle_tolerance : Qc)
  : list (mat Z) * list (vec Qc) * mat Qc :=
  ([eyeZ; inversionZ; inversionZ], [zero3; zero3; zero3], eyeQ).

(** Four sites of one species in a cell doubled along the first two axes,
    the moments up, up, down, down: the primitive translation along the
    first axis keeps the moments, the one along the second axis reverses
    them.  [|det transformation| = 4] is the number of centerings. *)
Definition striped_supercell : NonmagneticSymmetry :=
  {| prim_lattice := eyeQ;
     prim_rotations := [eyeZ];
     prim_translations := [zero3];
     prim_permutations := [mkPermutation [0; 1; 2; 3]];
     prim_centerings :=
       [zero3; (ZQ 1, ZQ 0, ZQ 0); (ZQ 0, ZQ 1, ZQ 0); (ZQ 1, ZQ 1, ZQ 0)];
     prim_centering_permutations :=
       [mkPermutation [0; 1; 2; 3]; mkPermutation [1; 0; 3; 2];
        mkPermutation [2; 3; 0; 1]; mkPermutation [3; 2; 1; 0]];
     transformation := ((2, 0, 0), (0, 2, 0), (0, 0, 1)) |}.

Definition striped_magmoms : list (vec Qc) :=
  [(ZQ 0, ZQ 0, ZQ 1); (ZQ 0, ZQ 0, ZQ 1);
   (ZQ 0, ZQ 0, ZQ (-1)); (ZQ 0, ZQ 0, ZQ (-1))].

(** The Hermite normal form of the columns handed over for
    [striped_supercell], those of [diag(2, 2, 1)] with the retained
    centerings [(0, 0, 0)] and [(1, 0, 0)]: they span the lattice of
    [diag(1, 2, 1)]. *)
Definition striped_hnf (cols : list (vec Qc)) : list (vec Qc) :=
  [(ZQ 1, ZQ 0, ZQ 0); (ZQ 0, ZQ 2, ZQ 0); (ZQ 0, ZQ 0, ZQ 1)]
  ++ replicate (length cols - 3) zero3.
(** * Properties *)

(** ** Closure loop *)

Section closure_facts.
Context `{Countable G} (mul : G → G → G).

Lemma enqueue_fold_elem (g : G) (F : gset G) (hs : list G) (q : list G) (x : G) :
  x ∈ foldl (λ q h, let gh := mul g h in
                    if decide (gh ∈ F) then q else gh :: q) q hs
  ↔ x ∈ q ∨ (∃ h, h ∈ hs ∧ x = mul g h ∧ x ∉ F).
Proof.
  revert q. induction hs as [|h hs IH]; intros q; simpl.
  - split; [auto|]. intros [?|(h & Hh & _)]; [done|]. by apply elem_of_nil in Hh.
  - rewrite IH. case_decide as Hin.
    + split.
      * intros [?|(h' & ? & ? & ?)]; [by left|].
        right. exists h'. split; [by right|done].
      * intros [?|(h' & Hh' & -> & Hn)]; [by left|].
        apply elem_of_cons in Hh' as [->|?]; [done|].
        right. by exists h'.
    + split.
      * intros [Hx|(h' & ? & ? & ?)].
        -- apply elem_of_cons in Hx as [->|?]; [|by left].
           right. exists h. split; [by left|done].
        -- right. exists h'. split; [by right|done].
      * intros [?|(h' & Hh' & -> & Hn)]; [left; by right|].
        apply elem_of_cons in Hh' as [->|?]; [left; by left|].
        right. by exists h'.
Qed.

Lemma enqueue_products_elem (g : G) (F : gset G) (q : list G) (x : G) :
  x ∈ enqueue_products mul g F q
  ↔ x ∈ q ∨ (∃ h, h ∈ F ∧ x = mul g h ∧ x ∉ F).
Proof.
  unfold enqueue_products. rewrite enqueue_fold_elem.
  by setoid_rewrite elem_of_elements.
Qed.

Lemma traverse_loop_fuel (n m : nat) (q : list G) (F R : gset G) :
  traverse_loop mul n q F = Some R → (n ≤ m)%nat → traverse_loop mul m q F = Some R.
Proof.
  revert m q F. induction n as [|n IH]; intros m q F Hrun Hle; [done|].
  destruct m as [|m]; [lia|]. simpl in *.
  destruct q as [|g q]; [done|].
  case_decide; apply IH; (done || lia).
Qed.

(** Everything found or queued is in the final set. *)
Lemma traverse_loop_contains (n : nat) (q : list G) (F R : gset G) :
  traverse_loop mul n q F = Some R → F ⊆ R ∧ (∀ x, x ∈ q → x ∈ R).
Proof.
  revert q F. induction n as [|n IH]; intros q F Hrun; [done|]. simpl in Hrun.
  destruct q as [|g q].
  - simplify_eq. split; [done|]. intros x Hx. by apply elem_of_nil in Hx.
  - case_decide as Hg.
    + destruct (IH _ _ Hrun) as [HF Hq]. split; [done|].
      intros x [->|?]%elem_of_cons; [by apply HF|by apply Hq].
    + destruct (IH _ _ Hrun) as [HF Hq]. split; [set_solver|].
      intros x [->|Hx]%elem_of_cons; [set_solver|].
      apply Hq, enqueue_products_elem. by left.
Qed.

(** The final set stays inside every closed set that holds the start. *)
Lemma traverse_loop_within (S : gset G) (n : nat) (q : list G) (F R : gset G) :
  closed_under mul S →
  traverse_loop mul n q F = Some R →
  F ⊆ S → (∀ x, x ∈ q → x ∈ S) → R ⊆ S.
Proof.
  intros HS. revert q F. induction n as [|n IH]; intros q F Hrun HF Hq; [done|].
  simpl in Hrun. destruct q as [|g q]; [by simplify_eq|].
  assert (g ∈ S) as HgS by (apply Hq; by left).
  case_decide as Hg.
  - eapply IH; [done|done|]. intros x Hx. apply Hq. by right.
  - eapply IH; [done|set_solver|].
    intros x [Hx|(h & Hh & -> & _)]%enqueue_products_elem.
    + apply Hq. by right.
    + apply HS; [done|set_solver].
Qed.

(** Of two found elements, one of the two products is found as well. *)
Lemma traverse_loop_products (n : nat) (q : list G) (F R : gset G) :
  traverse_loop mul n q F = Some R →
  (∀ x y, x ∈ F → y ∈ F →
     (mul x y ∈ F ∨ mul x y ∈ q) ∨ (mul y x ∈ F ∨ mul y x ∈ q)) →
  ∀ x y, x ∈ R → y ∈ R → mul x y ∈ R ∨ mul y x ∈ R.
Proof.
  revert q F. induction n as [|n IH]; intros q F Hrun Hinv; [done|].
  simpl in Hrun. destruct q as [|g q].
  - simplify_eq. intros x y Hx Hy.
    destruct (Hinv x y Hx Hy) as [[?|Hq]|[?|Hq]]; auto;
      by apply elem_of_nil in Hq.
  - case_decide as Hg.
    + eapply IH; [done|]. intros x y Hx Hy.
      destruct (Hinv x y Hx Hy) as [[?|Hq]|[?|Hq]]; auto;
        apply elem_of_cons in Hq as [Hq|Hq]; auto; rewrite Hq; auto.
    + eapply IH; [done|]. intros x y Hx Hy.
      assert (∀ h, h ∈ ({[g]} ∪ F : gset G) →
                mul g h ∈ ({[g]} ∪ F : gset G)
                ∨ mul g h ∈ enqueue_products mul g ({[g]} ∪ F) q) as Hnew.
      { intros h Hh. destruct (decide (mul g h ∈ ({[g]} ∪ F : gset G))); [by left|].
        right. apply enqueue_products_elem. right. by exists h. }
      apply elem_of_union in Hx as [->%elem_of_singleton|Hx].
      { left. by apply Hnew. }
      apply elem_of_union in Hy as [->%elem_of_singleton|Hy].
      { right. apply Hnew. set_solver. }
      destruct (Hinv x y Hx Hy) as [[?|Hq]|[?|Hq]].
      * left; left. set_solver.
      * left. apply elem_of_cons in Hq as [->|Hq]; [left; set_solver|].
        right. apply enqueue_products_elem. by left.
      * right; left. set_solver.
      * right. apply elem_of_cons in Hq as [->|Hq]; [left; set_solver|].
        right. apply enqueue_products_elem. by left.
Qed.

(** The loop empties its queue whenever the start lies in a finite set
    closed under the product. *)
Lemma traverse_loop_terminates (S : gset G) :
  closed_under mul S →
  ∀ (k : nat) (q : list G) (F : gset G),
    F ⊆ S → (∀ x, x ∈ q → x ∈ S) → (size (S ∖ F) ≤ k)%nat →
    ∃ n R, traverse_loop mul n q F = Some R.
Proof.
  intros HS k. induction k as [|k IHk]; intros q; induction q as [|g q IHq];
    intros F HF Hq Hsz.
  - by exists 1%nat, F.
  - assert (g ∈ S) as HgS by (apply Hq; by left).
    destruct (decide (g ∈ F)) as [Hg|Hg].
    + destruct (IHq F) as (n & R & Hrun); [done| |done|].
      { intros x Hx. apply Hq. by right. }
      exists (Datatypes.S n), R. simpl. by rewrite decide_True.
    + exfalso. assert (size (S ∖ F) = 0%nat) as Hz by lia.
      apply size_empty_inv in Hz. set_solver.
  - by exists 1%nat, F.
  - assert (g ∈ S) as HgS by (apply Hq; by left).
    destruct (decide (g ∈ F)) as [Hg|Hg].
    + destruct (IHq F) as (n & R & Hrun); [done| |done|].
      { intros x Hx. apply Hq. by right. }
      exists (Datatypes.S n), R. simpl. by rewrite decide_True.
    + destruct (IHk (enqueue_products mul g ({[g]} ∪ F) q) ({[g]} ∪ F))
        as (n & R & Hrun).
      * set_solver.
      * intros x [Hx|(h & Hh & -> & _)]%enqueue_products_elem.
        -- apply Hq. by right.
        -- apply HS; [done|set_solver].
      * assert (S ∖ ({[g]} ∪ F) ⊂ S ∖ F) as Hlt by set_solver.
        apply subset_size in Hlt. lia.
      * exists (Datatypes.S n), R. simpl. by rewrite decide_False.
Qed.

End closure_facts.

(** ** int64 matrix product *)

Lemma wrap64_shift (z k : Z) : wrap64 (z + 2 ^ 64 * k) = wrap64 z.
Proof.
  unfold wrap64. f_equal.
  replace (z + 2 ^ 64 * k + 2 ^ 63) with (z + 2 ^ 63 + k * 2 ^ 64) by ring.
  by rewrite Z_mod_plus_full.
Qed.

Lemma wrap64_decomp (z : Z) : ∃ k, wrap64 z = z + 2 ^ 64 * k.
Proof.
  exists (- ((z + 2 ^ 63) `div` 2 ^ 64)). unfold wrap64.
  rewrite Zmod_eq_full by done. ring.
Qed.

Lemma wrap64_int64 (z : Z) : int64 (wrap64 z).
Proof.
  unfold int64, wrap64.
  pose proof (Z.mod_pos_bound (z + 2 ^ 63) (2 ^ 64) eq_refl). lia.
Qed.

Lemma wrap64_id (z : Z) : int64 z → wrap64 z = z.
Proof.
  unfold int64, wrap64. intros Hz. rewrite Z.mod_small; lia.
Qed.

Lemma wrap64_dot_l (a b c x y z : Z) :
  wrap64 (wrap64 a * x + wrap64 b * y + wrap64 c * z)
  = wrap64 (a * x + b * y + c * z).
Proof.
  destruct (wrap64_decomp a) as [ka ->], (wrap64_decomp b) as [kb ->],
    (wrap64_decomp c) as [kc ->].
  rewrite <- (wrap64_shift (a * x + b * y + c * z) (ka * x + kb * y + kc * z)).
  f_equal. ring.
Qed.

Lemma wrap64_dot_r (a b c x y z : Z) :
  wrap64 (x * wrap64 a + y * wrap64 b + z * wrap64 c)
  = wrap64 (x * a + y * b + z * c).
Proof.
  destruct (wrap64_decomp a) as [ka ->], (wrap64_decomp b) as [kb ->],
    (wrap64_decomp c) as [kc ->].
  rewrite <- (wrap64_shift (x * a + y * b + z * c) (ka * x + kb * y + kc * z)).
  f_equal. ring.
Qed.

Ltac tuple_eq :=
  repeat match goal with |- (_, _) = (_, _) => f_equal end.

Ltac destruct_mat m :=
  let a := fresh "a" in let b := fresh "b" in let c := fresh "c" in
  let d := fresh "d" in let e := fresh "e" in let f := fresh "f" in
  let g := fresh "g" in let h := fresh "h" in let i := fresh "i" in
  destruct m as [[[[a b] c] [[d e] f]] [[g h] i]].

Lemma matmul_i64_assoc (a b c : mat Z) :
  matmul_i64 (matmul_i64 a b) c = matmul_i64 a (matmul_i64 b c).
Proof.
  destruct_mat a. destruct_mat b. destruct_mat c.
  cbn [matmul_i64 transpose dotZ].
  rewrite !wrap64_dot_l, !wrap64_dot_r.
  tuple_eq; f_equal; ring.
Qed.

Lemma matmul_i64_int64 (a b : mat Z) : mat_int64 (matmul_i64 a b).
Proof.
  destruct_mat a. destruct_mat b. cbn [matmul_i64 transpose dotZ mat_int64].
  repeat split; (apply wrap64_int64 || apply (wrap64_int64 _).1 || apply (wrap64_int64 _).2).
Qed.

Lemma matmul_i64_eye_l (a : mat Z) : mat_int64 a → matmul_i64 eyeZ a = a.
Proof.
  destruct_mat a. cbn [matmul_i64 transpose dotZ mat_int64 eyeZ].
  intros (?&?&?&?&?&?&?&?&?).
  tuple_eq; (etrans; [|by apply wrap64_id]); f_equal; ring.
Qed.

Lemma matmul_i64_eye_r (a : mat Z) : mat_int64 a → matmul_i64 a eyeZ = a.
Proof.
  destruct_mat a. cbn [matmul_i64 transpose dotZ mat_int64 eyeZ].
  intros (?&?&?&?&?&?&?&?&?).
  tuple_eq; (etrans; [|by apply wrap64_id]); f_equal; ring.
Qed.

Lemma spin_mul_assoc (a b c : spin_op) :
  spin_mul (spin_mul a b) c = spin_mul a (spin_mul b c).
Proof. unfold spin_mul. simpl. by rewrite !matmul_i64_assoc. Qed.

Lemma spin_mul_int64 (a b : spin_op) : spin_op_int64 (spin_mul a b).
Proof. split; apply matmul_i64_int64. Qed.

Lemma spin_mul_identity_l (a : spin_op) :
  spin_op_int64 a → spin_mul spin_identity a = a.
Proof.
  destruct a as [a1 a2]. intros [? ?]. unfold spin_mul, spin_identity.
  cbn [fst snd] in *. by rewrite !matmul_i64_eye_l.
Qed.

Lemma spin_mul_identity_r (a : spin_op) :
  spin_op_int64 a → spin_mul a spin_identity = a.
Proof.
  destruct a as [a1 a2]. intros [? ?]. unfold spin_mul, spin_identity.
  cbn [fst snd] in *. by rewrite !matmul_i64_eye_r.
Qed.

(** ** Rational matrices *)

Section numeric_facts.
Local Open Scope Qc_scope.

Lemma ZQ_inj (a b : Z) : ZQ a = ZQ b → a = b.
Proof.
  unfold ZQ. intros Heq. apply (f_equal this) in Heq. simpl in Heq.
  assert (inject_Z a == inject_Z b)%Q as Hq.
  { rewrite <- (Qred_correct (inject_Z a)), <- (Qred_correct (inject_Z b)).
    by rewrite Heq. }
  unfold Qeq in Hq. simpl in Hq. lia.
Qed.

Lemma ZQ_this (z : Z) : this (ZQ z) = inject_Z z.
Proof.
  unfold ZQ. simpl. apply Qred_identity. simpl. apply Z.gcd_1_r.
Qed.

Lemma ZQ_add (a b : Z) : ZQ (a + b) = ZQ a + ZQ b.
Proof.
  apply Qc_is_canon. unfold Qcplus, ZQ, Q2Qc, this.
  rewrite !Qred_correct. by rewrite inject_Z_plus.
Qed.

Lemma ZQ_mul (a b : Z) : ZQ (a * b) = ZQ a * ZQ b.
Proof.
  apply Qc_is_canon. unfold Qcmult, ZQ, Q2Qc, this.
  rewrite !Qred_correct. by rewrite inject_Z_mult.
Qed.

Lemma ZQ_opp (a : Z) : ZQ (- a) = - ZQ a.
Proof.
  apply Qc_is_canon. unfold Qcopp, ZQ, Q2Qc, this.
  rewrite !Qred_correct. by rewrite inject_Z_opp.
Qed.

Lemma ZQ_sub (a b : Z) : ZQ (a - b) = ZQ a - ZQ b.
Proof.
  unfold Qcminus. rewrite <- ZQ_opp, <- ZQ_add. f_equal.
Qed.

Lemma rint_ZQ (z : Z) : rint (ZQ z) = z.
Proof.
  unfold rint. rewrite ZQ_this. simpl.
  rewrite Z.div_1_r, Z.mod_1_r. by rewrite decide_True by lia.
Qed.

Lemma astype_int_ZQ (z : Z) : astype_int (ZQ z) = z.
Proof. unfold astype_int. rewrite ZQ_this. simpl. apply Z.quot_1_r. Qed.

(** Rounding an integer-valued float and casting it gives the integer. *)
Lemma around_astype_ZQ (z : Z) : astype_int (np_rint (ZQ z)) = z.
Proof. unfold np_rint. by rewrite rint_ZQ, astype_int_ZQ. Qed.

Lemma is_integer_ZQ (z : Z) : is_integer (ZQ z) = true.
Proof. unfold is_integer. by rewrite ZQ_this. Qed.

Lemma is_integer_inv (q : Qc) : is_integer q = true → q = ZQ (Qnum q).
Proof.
  unfold is_integer. intros Hd%bool_decide_eq_true.
  apply Qc_is_canon. rewrite ZQ_this. destruct q as [[n d] Hc]. simpl in *.
  by subst.
Qed.

Lemma matmul_assoc (a b c : mat Qc) :
  matmul (matmul a b) c = matmul a (matmul b c).
Proof.
  destruct_mat a. destruct_mat b. destruct_mat c.
  cbn [matmul transpose dotQ]. tuple_eq; ring.
Qed.

Lemma matmul_eye_l (a : mat Qc) : matmul eyeQ a = a.
Proof.
  destruct_mat a. cbn [matmul transpose dotQ eyeQ]. tuple_eq; ring.
Qed.

Lemma matmul_eye_r (a : mat Qc) : matmul a eyeQ = a.
Proof.
  destruct_mat a. cbn [matmul transpose dotQ eyeQ]. tuple_eq; ring.
Qed.

Lemma mat_vec_matmul (a b : mat Qc) (v : vec Qc) :
  mat_vec (matmul a b) v = mat_vec a (mat_vec b v).
Proof.
  destruct_mat a. destruct_mat b. destruct v as [[x y] z].
  cbn [matmul transpose dotQ mat_vec]. tuple_eq; ring.
Qed.

Lemma mat_vec_eye (v : vec Qc) : mat_vec eyeQ v = v.
Proof.
  destruct v as [[x y] z]. cbn [dotQ mat_vec eyeQ]. tuple_eq; ring.
Qed.

Lemma mat_vec_sub (a : mat Qc) (u v : vec Qc) :
  mat_vec a (vec_sub u v) = vec_sub (mat_vec a u) (mat_vec a v).
Proof.
  destruct_mat a. destruct u as [[x y] z]. destruct v as [[x' y'] z'].
  cbn [dotQ mat_vec vec_sub vec_zip]. tuple_eq; ring.
Qed.

Lemma det_matmul (a b : mat Qc) : det (matmul a b) = det a * det b.
Proof.
  destruct_mat a. destruct_mat b. cbn [matmul transpose dotQ det]. ring.
Qed.

Lemma det_eye : det eyeQ = 1.
Proof. unfold eyeQ. cbn [det]. ring. Qed.

Lemma np_linalg_inv_r (m mi : mat Qc) :
  np_linalg_inv m = Ok mi → matmul m mi = eyeQ.
Proof.
  unfold np_linalg_inv. case_decide as Hdet; [done|]. intros [= <-].
  destruct_mat m. cbn [det] in Hdet.
  cbn [matmul transpose dotQ adjugate mat_map vec_map det]. unfold eyeQ.
  tuple_eq; field; exact Hdet.
Qed.

Lemma np_linalg_inv_l (m mi : mat Qc) :
  np_linalg_inv m = Ok mi → matmul mi m = eyeQ.
Proof.
  unfold np_linalg_inv. case_decide as Hdet; [done|]. intros [= <-].
  destruct_mat m. cbn [det] in Hdet.
  cbn [matmul transpose dotQ adjugate mat_map vec_map det]. unfold eyeQ.
  tuple_eq; field; exact Hdet.
Qed.

Lemma np_linalg_inv_det (m mi : mat Qc) :
  np_linalg_inv m = Ok mi → det m ≠ 0.
Proof. unfold np_linalg_inv. by case_decide. Qed.

Lemma np_linalg_inv_ok (m : mat Qc) :
  det m ≠ 0 → ∃ mi, np_linalg_inv m = Ok mi.
Proof. intros Hdet. unfold np_linalg_inv. rewrite decide_False by done. eauto. Qed.

End numeric_facts.

(** ** Indexing and the moment test *)

Section moment_facts.
Local Open Scope Qc_scope.

Lemma py_index_in_range {A : Type} (l : list A) (k : Z) :
  (0 ≤ k < Z.of_nat (length l))%Z →
  ∃ a, l !! Z.to_nat k = Some a ∧ py_index l k = Ok a.
Proof.
  intros Hk. unfold py_index.
  rewrite (decide_False (P := (k < 0)%Z)) by lia.
  rewrite decide_True by lia.
  destruct (l !! Z.to_nat k) as [a|] eqn:Hl; [by exists a|].
  apply lookup_ge_None in Hl. lia.
Qed.

Lemma res_mapM_Forall2 {A B : Type} (f : A → res B) (l : list A) (bs : list B) :
  res_mapM f l = Ok bs ↔ Forall2 (λ a b, f a = Ok b) l bs.
Proof.
  revert bs. induction l as [|a l IH]; intros bs; simpl.
  - split; [intros [= <-]; constructor|]. by intros ->%Forall2_nil_inv_l.
  - destruct (f a) as [b|e] eqn:Hf; simpl.
    + destruct (res_mapM f l) as [bs'|e] eqn:Hm; simpl.
      * split.
        -- intros [= <-]. constructor; [done|]. by apply IH.
        -- intros (b' & bs'' & Hb & Hbs & ->)%Forall2_cons_inv_l.
           apply IH in Hbs. congruence.
      * split; [done|].
        intros (b' & bs'' & Hb & Hbs & ->)%Forall2_cons_inv_l.
        by apply IH in Hbs.
    + split; [done|].
      intros (b' & bs'' & Hb & Hbs & ->)%Forall2_cons_inv_l. congruence.
Qed.

Lemma res_mapM_total {A B : Type} (f : A → res B) (l : list A) :
  Forall (λ a, ∃ b, f a = Ok b) l → ∃ bs, res_mapM f l = Ok bs.
Proof.
  induction 1 as [|a l [b Hb] _ [bs Hbs]]; simpl; [by eexists|].
  rewrite Hb. simpl. rewrite Hbs. simpl. by eexists.
Qed.

Lemma np_take_valid {A : Type} (a : list A) (p : Permutation) :
  valid_permutation (length a) p →
  ∃ rows, np_take a (permutation p) = Ok rows
    ∧ length rows = length a
    ∧ ∀ i k, permutation p !! i = Some k → rows !! i = a !! Z.to_nat k.
Proof.
  intros [Hlen Hrange]. unfold np_take.
  destruct (res_mapM_total (py_index a) (permutation p)) as [rows Hrows].
  { eapply Forall_impl; [exact Hrange|]. intros k Hk. simpl in Hk.
    destruct (py_index_in_range a k Hk) as (x & _ & ?). by exists x. }
  exists rows. split; [done|]. apply res_mapM_Forall2 in Hrows.
  split; [by rewrite <- (Forall2_length _ _ _ Hrows)|].
  intros i k Hik.
  destruct (Forall2_lookup_l _ _ _ _ _ Hrows Hik) as (x & Hx & Hpy).
  rewrite Hx. rewrite Forall_lookup in Hrange.
  destruct (py_index_in_range a k (Hrange _ _ Hik)) as (y & Hy & Hpy').
  congruence.
Qed.

Lemma sqrt_lt_max (a b eps : Qc) :
  sqrt_lt (Qcmax a b) eps = sqrt_lt a eps && sqrt_lt b eps.
Proof.
  unfold sqrt_lt, Qcmax.
  destruct (bool_decide (0 < eps)); simpl; [|done].
  case_decide as Hab.
  - destruct (bool_decide_reflect (b < eps * eps)) as [Hb|Hb].
    + rewrite bool_decide_eq_true_2; [done|]. by eapply Qcle_lt_trans.
    + by rewrite andb_false_r.
  - apply Qcnot_le_lt in Hab.
    destruct (bool_decide_reflect (a < eps * eps)) as [Ha|Ha]; simpl; [|done].
    rewrite bool_decide_eq_true_2; [done|]. by eapply Qclt_trans.
Qed.

Lemma sqrt_lt_foldl_max (s : Qc) (ss : list Qc) (eps : Qc) :
  sqrt_lt (foldl Qcmax s ss) eps = true
  ↔ sqrt_lt s eps = true ∧ Forall (λ x, sqrt_lt x eps = true) ss.
Proof.
  revert s. induction ss as [|x ss IH]; intros s; simpl.
  - split; [by intros ?; split|by intros [? _]].
  - rewrite IH, sqrt_lt_max, andb_true_iff, Forall_cons. tauto.
Qed.

(** The largest norm is below [eps] exactly when every norm is. *)
Lemma max_norm_lt_Forall (d : list (vec Qc)) (eps : Qc) :
  d ≠ [] →
  ∃ b, max_norm_lt d eps = Ok b
    ∧ (b = true ↔ Forall (λ v, norm_lt v eps = true) d).
Proof.
  destruct d as [|v d]; [done|]. intros _. simpl. eexists. split; [done|].
  rewrite sqrt_lt_foldl_max, Forall_cons, Forall_fmap. done.
Qed.

Lemma moments_invariant_sites (magmoms : list (vec Qc)) (perm : Permutation)
    (eps : Qc) :
  magmoms ≠ [] →
  valid_permutation (length magmoms) perm →
  ∃ b, moments_invariant magmoms perm eps = Ok b
    ∧ (b = true
       ↔ ∀ i, (i < length magmoms)%nat → site_unchanged magmoms perm eps i).
Proof.
  intros Hne Hvalid. unfold moments_invariant.
  destruct (np_take_valid magmoms perm Hvalid) as (rows & -> & Hlen & Hrows).
  simpl. unfold np_sub_rows. rewrite decide_True by done. simpl.
  destruct (max_norm_lt_Forall (zip_with vec_sub rows magmoms) eps)
    as (b & -> & Hb).
  { destruct rows, magmoms; simpl in *; done. }
  exists b. split; [done|]. rewrite Hb, Forall_lookup.
  destruct Hvalid as [Hplen Hrange]. split.
  - intros Hall i Hi.
    destruct (lookup_lt_is_Some_2 (permutation perm) i) as [k Hk]; [lia|].
    destruct (lookup_lt_is_Some_2 magmoms i) as [m Hm]; [lia|].
    destruct (lookup_lt_is_Some_2 rows i) as [m' Hm']; [lia|].
    exists k, m, m'. rewrite <- (Hrows i k Hk). repeat split; try done.
    apply (Hall i). rewrite lookup_zip_with, Hm'. simpl. by rewrite Hm.
  - intros Hall i v Hv.
    apply lookup_zip_with_Some in Hv as (m' & m & -> & Hm' & Hm).
    destruct (Hall i) as (k & m1 & m1' & Hk & Hkm & Him & Hlt).
    { by eapply lookup_lt_Some. }
    rewrite (Hrows i k Hk) in Hm'. congruence.
Qed.

End moment_facts.

(** ** Integer matrices and lattices *)

Section lattice_facts.
Local Open Scope Qc_scope.

Lemma is_integer_array_inv (T : mat Qc) :
  is_integer_array T = true → ∃ Tz : mat Z, T = mat_map ZQ Tz.
Proof.
  destruct_mat T. cbn [is_integer_array]. rewrite !andb_true_iff.
  intros [[[[[[[[Ha Hb] Hc] Hd] He] Hf] Hg] Hh] Hi].
  exists ((Qnum a, Qnum b, Qnum c), (Qnum d, Qnum e, Qnum f),
          (Qnum g, Qnum h, Qnum i)).
  cbn [mat_map vec_map]. tuple_eq; by apply is_integer_inv.
Qed.

Lemma is_integer_array_ZQ (Tz : mat Z) : is_integer_array (mat_map ZQ Tz) = true.
Proof.
  destruct_mat Tz. cbn [mat_map vec_map is_integer_array].
  by rewrite !is_integer_ZQ.
Qed.

Lemma det_ZQ (M : mat Z) : det (mat_map ZQ M) = ZQ (detZ M).
Proof.
  destruct_mat M. cbn [mat_map vec_map det detZ].
  by rewrite !ZQ_add, !ZQ_sub, !ZQ_mul, !ZQ_sub, !ZQ_mul.
Qed.

Lemma matmul_cols (a : mat Qc) (c0 c1 c2 : vec Qc) :
  matmul a (mat_of_cols c0 c1 c2)
  = mat_of_cols (mat_vec a c0) (mat_vec a c1) (mat_vec a c2).
Proof.
  destruct_mat a. destruct c0 as [[x0 y0] z0], c1 as [[x1 y1] z1],
    c2 as [[x2 y2] z2]. reflexivity.
Qed.

Lemma mat_of_cols_ZQ (c0 c1 c2 : vec Z) :
  mat_of_cols (vec_map ZQ c0) (vec_map ZQ c1) (vec_map ZQ c2)
  = mat_map ZQ (mat_of_cols c0 c1 c2).
Proof.
  by destruct c0 as [[x0 y0] z0], c1 as [[x1 y1] z1], c2 as [[x2 y2] z2].
Qed.

(** An integer matrix whose columns span the three unit vectors has
    determinant 1 or -1. *)
Lemma unit_lattice_det (T : mat Qc) :
  is_integer_array T = true →
  in_lattice T (ZQ 1, ZQ 0, ZQ 0) →
  in_lattice T (ZQ 0, ZQ 1, ZQ 0) →
  in_lattice T (ZQ 0, ZQ 0, ZQ 1) →
  det T = ZQ 1 ∨ det T = ZQ (-1).
Proof.
  intros [Tz ->]%is_integer_array_inv [x0 H0] [x1 H1] [x2 H2].
  assert (matmul (mat_map ZQ Tz) (mat_map ZQ (mat_of_cols x0 x1 x2)) = eyeQ)
    as Hprod.
  { by rewrite <- mat_of_cols_ZQ, matmul_cols, <- H0, <- H1, <- H2. }
  apply (f_equal det) in Hprod.
  rewrite det_matmul, det_eye, !det_ZQ, <- ZQ_mul in Hprod.
  apply (ZQ_inj _ 1) in Hprod. rewrite det_ZQ.
  destruct (Z.mul_eq_1 _ _ Hprod) as [->| ->]; auto.
Qed.

End lattice_facts.

(** ** Matching against a catalogue entry *)

Lemma match_rotations_some (matched std_rotations : list (mat Z)) (i : nat)
    (mapping mapping' : list Z) :
  match_rotations matched std_rotations i mapping = Ok (Some mapping') →
  length mapping' = length mapping
  ∧ (∀ k, (k < i)%nat → mapping' !! k = mapping !! k)
  ∧ ∀ k ri, std_rotations !! k = Some ri →
      ∃ j, mapping' !! (i + k)%nat = Some (Z.of_nat j)
           ∧ matched !! j = Some ri.
Proof.
  revert i mapping. induction std_rotations as [|r0 std IH]; intros i mapping.
  - simpl. intros [= <-]. split; [done|]. split; [done|]. intros k ri Hk.
    by rewrite lookup_nil in Hk.
  - simpl. destruct (list_find _ matched) as [[j x]|] eqn:Hfind; [|done].
    case_decide as Hi; [|done]. intros Hrun.
    apply list_find_Some in Hfind as (Hj & -> & _).
    destruct (IH _ _ Hrun) as (Hlen & Hkeep & Hstd).
    rewrite length_insert in Hlen. split; [done|]. split.
    + intros k Hk. rewrite Hkeep by lia. apply list_lookup_insert_ne. lia.
    + intros [|k] ri Hk; simpl in Hk.
      * simplify_eq. exists j. split; [|done].
        rewrite Nat.add_0_r, Hkeep by lia. by apply list_lookup_insert_eq.
      * destruct (Hstd k ri Hk) as (j' & Hm & Hj'). exists j'.
        split; [|done]. by replace (i + S k)%nat with (S i + k)%nat by lia.
Qed.

Lemma match_rotations_none (matched : list (mat Z)) (suf pre : list (mat Z))
    (mapping : list Z) :
  NoDup (pre ++ suf) →
  (∀ r, r ∈ pre → r ∈ matched) →
  length mapping = length matched →
  (∃ ri, ri ∈ suf ∧ ri ∉ matched) →
  match_rotations matched suf (length pre) mapping = Ok None.
Proof.
  revert pre mapping. induction suf as [|r0 suf IH];
    intros pre mapping Hnd Hpre Hlen (ri & Hri & Hmiss).
  - by apply elem_of_nil in Hri.
  - simpl. destruct (list_find _ matched) as [[j x]|] eqn:Hfind; [|done].
    apply list_find_Some in Hfind as (Hj & -> & _).
    assert (r0 ∈ matched) as Hr0 by (by eapply list_elem_of_lookup_2).
    assert (∀ r, r ∈ pre ++ [r0] → r ∈ matched) as Hpre'.
    { intros r [?|Hr]%elem_of_app; [auto|].
      apply list_elem_of_singleton in Hr. by subst. }
    assert (length (pre ++ [r0]) ≤ length matched)%nat as Hle.
    { apply submseteq_length, NoDup_submseteq; [|done].
      change (r0 :: suf) with ([r0] ++ suf) in Hnd.
      rewrite (assoc_L (++)) in Hnd. by apply NoDup_app in Hnd as [? _]. }
    rewrite length_app in Hle. simpl in Hle.
    rewrite decide_True by lia.
    replace (S (length pre)) with (length (pre ++ [r0]))
      by (rewrite length_app; simpl; lia).
    apply IH.
    + by rewrite <- (assoc_L (++)).
    + done.
    + by rewrite length_insert.
    + exists ri. split; [|done].
      apply elem_of_cons in Hri as [->|?]; done.
Qed.

Lemma search_catalogue_some (pg_symbol : string) (matched : list (mat Z))
    (order : nat) (entries : list (list (mat Z))) (idx0 : nat)
    (sym : string) (idx : nat) (mapping : list Z) :
  search_catalogue pg_symbol matched order entries idx0
  = Ok (Some (sym, idx, mapping)) →
  sym = pg_symbol ∧ (idx0 ≤ idx)%nat
  ∧ ∃ std_rotations,
      entries !! (idx - idx0)%nat = Some std_rotations
      ∧ match_rotations matched std_rotations 0 (replicate order (-1)%Z)
        = Ok (Some mapping).
Proof.
  revert idx0. induction entries as [|std entries IH]; intros idx0; [done|].
  simpl.
  destruct (match_rotations matched std 0 _) as [[m|]|e] eqn:Hm; simpl;
    [| |done].
  - intros [= <- <- <-]. split; [done|]. split; [done|]. exists std.
    by rewrite Nat.sub_diag.
  - intros (-> & Hle & std' & Hstd & Hrun)%IH. split; [done|]. split; [lia|].
    exists std'. split; [|done].
    by replace (idx - idx0)%nat with (S (idx - S idx0)) by lia.
Qed.

Lemma search_catalogue_none (pg_symbol : string) (matched : list (mat Z))
    (order : nat) (entries : list (list (mat Z))) (idx0 : nat) :
  Forall (λ std, match_rotations matched std 0 (replicate order (-1)%Z)
                 = Ok None) entries →
  search_catalogue pg_symbol matched order entries idx0 = Ok None.
Proof.
  intros Hall. revert idx0. induction Hall as [|std entries Hstd _ IH];
    intros idx0; [done|]. simpl. rewrite Hstd. simpl. apply IH.
Qed.

(** ** The coset searches *)

Section assembler_facts.
Variable column_style_hermite_normal_form : list (vec Qc) → list (vec Qc).
Variable SpinOnlyGroup : Type.
Variable get_spin_only_group : list (vec Qc) → Qc → SpinOnlyGroup.
Variable contain : SpinOnlyGroup → mat Qc → bool.
Variable solve_procrustes : list (vec Qc) → list (vec Qc) → mat Qc.

Local Abbreviation fit := (fit_spin_rotation SpinOnlyGroup contain solve_procrustes).
Local Abbreviation fitted := (canonical_fit SpinOnlyGroup contain solve_procrustes).
Local Abbreviation try := (try_centering SpinOnlyGroup contain solve_procrustes).
Local Abbreviation fits := (centering_fits SpinOnlyGroup contain solve_procrustes).

Lemma fit_spin_rotation_some (sog : SpinOnlyGroup) (magmoms : list (vec Qc))
    (perm : Permutation) (mag_symprec : Qc) (W : mat Qc) :
  fit sog magmoms perm mag_symprec = Ok (Some W) →
  fitted sog magmoms mag_symprec perm W.
Proof.
  unfold fit_spin_rotation, canonical_fit.
  destruct (np_take magmoms (permutation perm)) as [pm|e]; [|done].
  cbn [mbind res_bind].
  destruct (np_sub_rows _ pm) as [d|e] eqn:Hd; [|done]. cbn [mbind res_bind].
  destruct (max_norm_lt d mag_symprec) as [[|]|e] eqn:Hmax; [|done|done].
  cbn [mbind res_bind]. intros [= <-]. exists pm, d. split; [done|].
  assert (Forall (λ v, norm_lt v mag_symprec = true) d) as Hall.
  { destruct d as [|v d]; [done|].
    destruct (max_norm_lt_Forall (v :: d) mag_symprec) as (b & Hb & Hiff);
      [done|].
    apply Hiff. congruence. }
  destruct (contain sog (solve_procrustes magmoms pm)); done.
Qed.

(** A stored spin rotation is the identity or lies outside the spin-only
    group, as soon as the group does not hold the fit it rejected. *)
Lemma canonical_fit_cases (sog : SpinOnlyGroup) (magmoms : list (vec Qc))
    (mag_symprec : Qc) (perm : Permutation) (W : mat Qc) :
  fitted sog magmoms mag_symprec perm W →
  W = eyeQ ∨ contain sog W = false.
Proof.
  intros (pm & d & _ & Hin & Hout & _).
  destruct (contain sog (solve_procrustes magmoms pm)) eqn:Hc.
  - left. by apply Hin.
  - right. by rewrite (Hout eq_refl).
Qed.

(** A rejected fit: no spin rotation is kept for the permutation. *)
Lemma fit_spin_rotation_none (sog : SpinOnlyGroup) (magmoms : list (vec Qc))
    (perm : Permutation) (mag_symprec : Qc) (W : mat Qc) :
  fit sog magmoms perm mag_symprec = Ok None →
  ¬ fitted sog magmoms mag_symprec perm W.
Proof.
  unfold fit_spin_rotation, canonical_fit.
  destruct (np_take magmoms (permutation perm)) as [pm|e]; [|done].
  cbn [mbind res_bind].
  destruct (np_sub_rows _ pm) as [d|e] eqn:Hd; [|done]. cbn [mbind res_bind].
  destruct (max_norm_lt d mag_symprec) as [[|]|e] eqn:Hmax; [done| |done].
  intros _ (pm' & d' & [= <-] & Hin & Hout & Hd' & Hmax' & _).
  destruct (contain sog (solve_procrustes magmoms pm)) eqn:Hc.
  - rewrite (Hin eq_refl) in Hd'. congruence.
  - rewrite (Hout eq_refl) in Hd'. congruence.
Qed.

Lemma spin_translation_search_stored (tmat_stg tmatinv_stg : mat Qc)
    (sog : SpinOnlyGroup) (magmoms : list (vec Qc)) (mag_symprec : Qc)
    (cps : list (vec Qc * Permutation)) (found : gset (vec Z))
    (acc coset : list SpinSymmetryOperation) :
  spin_translation_search SpinOnlyGroup contain solve_procrustes
    tmat_stg tmatinv_stg sog magmoms mag_symprec cps found acc = Ok coset →
  ∀ op, op ∈ coset →
    op ∈ acc
    ∨ ∃ centering perm,
        (centering, perm) ∈ cps
        ∧ rotation op = eyeQ
        ∧ translation op = mat_vec tmatinv_stg centering
        ∧ fitted sog magmoms mag_symprec perm (spin_rotation op).
Proof.
  revert found acc. induction cps as [|[c p] cps IH]; intros found acc.
  - cbn [spin_translation_search]. intros [= <-] op Hop. by left.
  - cbn [spin_translation_search]. case_decide as Hfound.
    + intros Hrun op Hop. destruct (IH _ _ Hrun op Hop) as [?|Hex]; [by left|].
      right. destruct Hex as (c' & p' & Hin & ?). exists c', p'.
      split; [by right|done].
    + destruct (fit sog magmoms p mag_symprec) as [o|e] eqn:Hfit; [|done].
      cbn [mbind res_bind]. intros Hrun op Hop.
      destruct (IH _ _ Hrun op Hop) as [Hacc|Hex].
      * destruct o as [W|]; [|by left].
        apply elem_of_app in Hacc as [?|Hnew]; [by left|].
        apply list_elem_of_singleton in Hnew. subst op. right.
        exists c, p. split; [by left|]. repeat (split; [done|]).
        by apply fit_spin_rotation_some.
      * right. destruct Hex as (c' & p' & Hin & ?). exists c', p'.
        split; [by right|done].
Qed.

Lemma first_centering_spec (tmatinv_stg : mat Qc) (sog : SpinOnlyGroup)
    (magmoms : list (vec Qc)) (mag_symprec : Qc) (rot_prim : mat Qc)
    (trans : vec Qc) (perm : Permutation) (cps : list (vec Qc * Permutation))
    (o : option SpinSymmetryOperation) :
  first_centering SpinOnlyGroup contain solve_procrustes tmatinv_stg sog
    magmoms mag_symprec rot_prim trans perm cps = Ok o →
  match o with
  | None =>
    ∀ cp, cp ∈ cps →
      try tmatinv_stg sog magmoms mag_symprec rot_prim trans perm cp = Ok None
  | Some op =>
    ∃ i cp,
      cps !! i = Some cp
      ∧ try tmatinv_stg sog magmoms mag_symprec rot_prim trans perm cp
        = Ok (Some op)
      ∧ ∀ j cp', (j < i)%nat → cps !! j = Some cp' →
          try tmatinv_stg sog magmoms mag_symprec rot_prim trans perm cp'
          = Ok None
  end.
Proof.
  induction cps as [|cp cps IH]; cbn [first_centering].
  - intros [= <-] cp Hcp. by apply elem_of_nil in Hcp.
  - destruct (try tmatinv_stg sog magmoms mag_symprec rot_prim trans perm cp)
      as [[op|]|e] eqn:Htry; [| |done]; cbn [mbind res_bind].
    + intros [= <-]. exists 0%nat, cp. split; [done|]. split; [done|].
      intros j cp' Hj. lia.
    + intros Hrun. specialize (IH Hrun). destruct o as [op|].
      * destruct IH as (i & cp' & Hi & Hcp' & Hbefore).
        exists (S i), cp'. split; [done|]. split; [done|].
        intros [|j] cp'' Hj Hlook; simpl in Hlook; [by simplify_eq|].
        apply (Hbefore j); [lia|done].
      * intros cp' [->|?]%elem_of_cons; [done|by apply IH].
Qed.

Lemma try_centering_some (tmatinv_stg : mat Qc) (sog : SpinOnlyGroup)
    (magmoms : list (vec Qc)) (mag_symprec : Qc) (rot_prim : mat Qc)
    (trans : vec Qc) (perm : Permutation) (centering : vec Qc)
    (centering_perm : Permutation) (op : SpinSymmetryOperation) :
  try tmatinv_stg sog magmoms mag_symprec rot_prim trans perm
      (centering, centering_perm) = Ok (Some op) →
  ∃ new_perm W,
    perm_mul centering_perm perm = Ok new_perm
    ∧ fitted sog magmoms mag_symprec new_perm W
    ∧ op = mkSpinSymmetryOperation rot_prim
             (mat_vec tmatinv_stg (vec_add centering trans)) W.
Proof.
  unfold try_centering.
  destruct (perm_mul centering_perm perm) as [new_perm|e]; [|done].
  cbn [mbind res_bind].
  destruct (fit sog magmoms new_perm mag_symprec) as [[W|]|e] eqn:Hfit;
    [| |done]; cbn [mbind res_bind]; [|done].
  intros [= <-]. exists new_perm, W. split; [done|].
  split; [by apply fit_spin_rotation_some|done].
Qed.

(** A centering that was tried without success does not fit. *)
Lemma try_centering_none (tmatinv_stg : mat Qc) (sog : SpinOnlyGroup)
    (magmoms : list (vec Qc)) (mag_symprec : Qc) (rot_prim : mat Qc)
    (trans : vec Qc) (perm : Permutation) (cp : vec Qc * Permutation) :
  try tmatinv_stg sog magmoms mag_symprec rot_prim trans perm cp = Ok None →
  ¬ fits sog magmoms mag_symprec perm cp.
Proof.
  destruct cp as [centering centering_perm]. unfold try_centering.
  destruct (perm_mul centering_perm perm) as [new_perm|e] eqn:Hmul; [|done].
  cbn [mbind res_bind].
  destruct (fit sog magmoms new_perm mag_symprec) as [[W|]|e] eqn:Hfit;
    [done| |done].
  intros _ (new_perm' & W & Hmul' & Hfitted). cbn [snd] in Hmul'.
  rewrite Hmul in Hmul'. injection Hmul' as <-.
  by eapply fit_spin_rotation_none.
Qed.

Lemma nontrivial_search_spec (tmat_stg tmatinv_stg : mat Qc)
    (sog : SpinOnlyGroup) (magmoms : list (vec Qc)) (mag_symprec : Qc)
    (retained : list (vec Qc * Permutation))
    (ops : list (mat Z * vec Qc * Permutation))
    (acc coset : list SpinSymmetryOperation) :
  nontrivial_search SpinOnlyGroup contain solve_procrustes tmat_stg
    tmatinv_stg sog magmoms mag_symprec retained ops acc = Ok coset →
  ∃ os,
    Forall2 (contribution SpinOnlyGroup contain solve_procrustes tmat_stg
               tmatinv_stg sog magmoms mag_symprec retained) ops os
    ∧ coset = acc ++ omap id os.
Proof.
  revert acc. induction ops as [|[[rot trans] perm] ops IH]; intros acc.
  - cbn [nontrivial_search]. intros [= <-]. exists []. split; [constructor|].
    simpl. by rewrite app_nil_r.
  - cbn [nontrivial_search].
    destruct (is_integer_array (to_primitive tmat_stg tmatinv_stg rot))
      eqn:Hint; cbn [negb].
    + destruct (first_centering _ _ _ _ _ _ _ _ _ _ _) as [o|e] eqn:Hfirst;
        [|done]. cbn [mbind res_bind]. intros Hrun.
      destruct (IH _ Hrun) as (os & Hos & ->).
      exists (o :: os). split.
      * constructor; [|done]. unfold contribution. rewrite Hint.
        apply first_centering_spec in Hfirst. destruct o as [op|].
        -- destruct Hfirst as (i & [c cp] & Hi & Htry & Hbefore).
           apply try_centering_some in Htry
             as (new_perm & W & Hmul & Hfit & ->).
           exists i, c, cp, new_perm, W. split; [done|].
           split; [|done]. intros j cp' Hj Hcp'.
           eapply try_centering_none. by eapply Hbefore.
        -- intros cp Hcp. eapply try_centering_none. by apply Hfirst.
      * destruct o as [op|]; simpl; [|done]. by rewrite <- (assoc_L (++)).
    + intros Hrun. destruct (IH _ Hrun) as (os & Hos & ->).
      exists (None :: os). split; [|done]. constructor; [|done].
      unfold contribution. by rewrite Hint.
Qed.

(** The steps of a call that returns. *)
Lemma get_primitive_spin_symmetry_inv
    (nonmagnetic_symmetry : NonmagneticSymmetry) (magmoms : list (vec Qc))
    (mag_symprec : Qc) (ssg : SpinSpaceGroup SpinOnlyGroup) :
  get_primitive_spin_symmetry column_style_hermite_normal_form SpinOnlyGroup
    get_spin_only_group contain solve_procrustes
    nonmagnetic_symmetry magmoms mag_symprec = Ok ssg →
  ∃ retained vectors tmat_stg tmatinv_stg,
    retain_centerings magmoms mag_symprec
      (zip (prim_centerings nonmagnetic_symmetry)
           (prim_centering_permutations nonmagnetic_symmetry)) = Ok retained
    ∧ stg_vectors (transformation nonmagnetic_symmetry) retained.*1
      = Ok vectors
    ∧ leading_columns (column_style_hermite_normal_form vectors) = Ok tmat_stg
    ∧ np_linalg_inv tmat_stg = Ok tmatinv_stg
    ∧ np_isclose (Qcabs (det tmat_stg))
                 (ZQ (Z.of_nat (length retained.*1))) = true
    ∧ spin_only_group ssg = get_spin_only_group magmoms mag_symprec
    ∧ spin_translation_search SpinOnlyGroup contain solve_procrustes
        tmat_stg tmatinv_stg (spin_only_group ssg) magmoms mag_symprec
        (zip (prim_centerings nonmagnetic_symmetry)
             (prim_centering_permutations nonmagnetic_symmetry)) ∅ []
      = Ok (spin_translation_coset ssg)
    ∧ nontrivial_search SpinOnlyGroup contain solve_procrustes
        tmat_stg tmatinv_stg (spin_only_group ssg) magmoms mag_symprec
        retained
        (zip (zip (prim_rotations nonmagnetic_symmetry)
                  (prim_translations nonmagnetic_symmetry))
             (prim_permutations nonmagnetic_symmetry)) []
      = Ok (nontrivial_coset ssg).
Proof.
  unfold get_primitive_spin_symmetry.
  destruct (retain_centerings _ _ _) as [retained|e] eqn:HA; [|done].
  cbn [mbind res_bind].
  destruct (stg_vectors _ _) as [vectors|e] eqn:Hvec; [|done].
  cbn [mbind res_bind].
  destruct (leading_columns _) as [tmat_stg|e] eqn:Hlead; [|done].
  cbn [mbind res_bind].
  destruct (np_linalg_inv tmat_stg) as [tmatinv_stg|e] eqn:Hinv; [|done].
  cbn [mbind res_bind].
  destruct (np_isclose _ _) eqn:Hclose; cbn [negb]; [|done].
  destruct (spin_translation_search _ _ _ _ _ _ _ _ _ _ _) as [stc|e] eqn:HD;
    [|done]. cbn [mbind res_bind].
  destruct (np_linalg_inv (matmul _ _)) as [pinv|e] eqn:Hpinv; [|done].
  cbn [mbind res_bind]. rewrite zip_fst_snd.
  destruct (nontrivial_search _ _ _ _ _ _ _ _ _ _ _) as [ntc|e] eqn:HE;
    [|done]. cbn [mbind res_bind]. intros [= <-].
  exists retained, vectors, tmat_stg, tmatinv_stg. cbn.
  repeat (split; [done|]). done.
Qed.

End assembler_facts.

(** ** Closure of the generators *)

(** Every iteration adds at most one element to [founds]: a run that
    returns a set of [k] more elements has spent more than [k] iterations,
    whatever [k] is. *)
Lemma traverse_loop_size `{Countable G} (mul : G → G → G)
    (n : nat) (q : list G) (F R : gset G) :
  traverse_loop mul n q F = Some R → (size R < size F + n)%nat.
Proof.
  revert q F. induction n as [|n IH]; intros q F Hrun; [done|].
  simpl in Hrun. destruct q as [|g q]; [simplify_eq; lia|].
  case_decide as Hg.
  - apply IH in Hrun. lia.
  - apply IH in Hrun. rewrite size_union in Hrun by set_solver.
    rewrite size_singleton in Hrun. lia.
Qed.

Section order_four.
Variables g g2 g3 : spin_op.
Hypothesis g_int64 : spin_op_int64 g.
Hypothesis g2_def : spin_mul g g = g2.
Hypothesis g3_def : spin_mul g2 g = g3.
Hypothesis g_order : spin_mul g3 g = spin_identity.

Let powers : gset spin_op := list_to_set [g; g2; g3; spin_identity].

Local Lemma g_g2 : spin_mul g g2 = g3.
Proof using g2_def g3_def. by rewrite <- g3_def, <- g2_def, spin_mul_assoc. Qed.

Local Lemma g_g3 : spin_mul g g3 = spin_identity.
Proof using g2_def g3_def g_order.
  rewrite <- g3_def at 1. rewrite <- spin_mul_assoc, g_g2. exact g_order.
Qed.

Local Lemma g2_g2 : spin_mul g2 g2 = spin_identity.
Proof using g2_def g3_def g_order.
  rewrite <- g2_def at 2. rewrite <- spin_mul_assoc, g3_def. exact g_order.
Qed.

Local Lemma g2_g3 : spin_mul g2 g3 = g.
Proof using g2_def g3_def g_order g_int64.
  rewrite <- g3_def. rewrite <- spin_mul_assoc, g2_g2.
  by apply spin_mul_identity_l.
Qed.

Local Lemma g3_g2 : spin_mul g3 g2 = g.
Proof using g2_def g3_def g_order g_int64.
  rewrite <- g2_def. rewrite <- spin_mul_assoc, g_order.
  by apply spin_mul_identity_l.
Qed.

Local Lemma g3_g3 : spin_mul g3 g3 = g2.
Proof using g2_def g3_def g_order g_int64.
  rewrite <- g3_def at 2. by rewrite <- spin_mul_assoc, g3_g2.
Qed.

Local Lemma powers_closed : closed_under spin_mul powers.
Proof using g2_def g3_def g_order g_int64.
  assert (spin_op_int64 g2) as Hi2 by (rewrite <- g2_def; apply spin_mul_int64).
  assert (spin_op_int64 g3) as Hi3 by (rewrite <- g3_def; apply spin_mul_int64).
  assert (spin_mul spin_identity spin_identity = spin_identity) as Hee
    by (by vm_compute).
  pose proof g_g2 as E12. pose proof g_g3 as E13. pose proof g2_g2 as E22.
  pose proof g2_g3 as E23. pose proof g3_g2 as E32. pose proof g3_g3 as E33.
  pose proof (spin_mul_identity_l g g_int64) as El1.
  pose proof (spin_mul_identity_l g2 Hi2) as El2.
  pose proof (spin_mul_identity_l g3 Hi3) as El3.
  pose proof (spin_mul_identity_r g g_int64) as Er1.
  pose proof (spin_mul_identity_r g2 Hi2) as Er2.
  pose proof (spin_mul_identity_r g3 Hi3) as Er3.
  intros x y Hx Hy. unfold powers in *.
  rewrite !elem_of_list_to_set, !elem_of_cons, elem_of_nil in Hx.
  rewrite !elem_of_list_to_set, !elem_of_cons, elem_of_nil in Hy.
  rewrite !elem_of_list_to_set, !elem_of_cons, elem_of_nil.
  destruct Hx as [->|[->|[->|[->|[]]]]], Hy as [->|[->|[->|[->|[]]]]];
    first [ left; assumption
          | right; left; assumption
          | right; right; left; assumption
          | right; right; right; left; assumption ].
Qed.

Lemma order_four_closure :
  NoDup [g; g2; g3; spin_identity] →
  ∃ fuel result,
    traverse_spin_operations fuel [g] = Some result
    ∧ result ≡ₚ [g; g2; g3; spin_identity].
Proof using g2_def g3_def g_order g_int64.
  intros Hnd.
  destruct (traverse_loop_terminates spin_mul powers powers_closed
              (size powers) [g] ∅) as (n & R & Hrun).
  { set_solver. }
  { intros x ->%list_elem_of_singleton. unfold powers. set_solver. }
  { apply subseteq_size. set_solver. }
  exists n, (elements R). unfold traverse_spin_operations.
  change (reverse [g]) with [g]. rewrite Hrun. split; [done|].
  assert (R ⊆ powers) as Hsub.
  { eapply traverse_loop_within; [apply powers_closed|done|set_solver|].
    intros x ->%list_elem_of_singleton. unfold powers. set_solver. }
  destruct (traverse_loop_contains _ _ _ _ _ Hrun) as [_ Hq].
  pose proof (traverse_loop_products _ _ _ _ _ Hrun) as Hprod.
  assert (∀ x y, x ∈ R → y ∈ R → spin_mul x y ∈ R ∨ spin_mul y x ∈ R) as HR.
  { apply Hprod. set_solver. }
  assert (g ∈ R) as Hg by (apply Hq; by left).
  assert (g2 ∈ R) as Hg2 by (by destruct (HR g g Hg Hg) as [Hm|Hm]; rewrite g2_def in Hm).
  assert (g3 ∈ R) as Hg3.
  { destruct (HR g g2 Hg Hg2) as [Hm|Hm];
      [by rewrite g_g2 in Hm|by rewrite g3_def in Hm]. }
  assert (spin_identity ∈ R) as He.
  { destruct (HR g g3 Hg Hg3) as [Hm|Hm];
      [by rewrite g_g3 in Hm|by rewrite g_order in Hm]. }
  assert (R = powers) as ->.
  { apply set_eq. intros x. split; [apply Hsub|]. unfold powers.
    rewrite !elem_of_list_to_set, !elem_of_cons, elem_of_nil.
    intros [->|[->|[->|[->|[]]]]]; done. }
  unfold powers. by apply elements_list_to_set.
Qed.

End order_four.

(** C6: closing the generator list that holds only the identity gives
    exactly the identity, and closing a single generator [g] of order four
    (its fourth power is the identity, the lower powers are distinct) gives
    exactly the four powers of [g], each once. *)
Theorem traverse_spin_operations_closure :
  (∀ fuel, (2 ≤ fuel)%nat →
     traverse_spin_operations fuel [spin_identity] = Some [spin_identity])
  ∧ (∀ g : spin_op,
       spin_op_int64 g →
       spin_mul (spin_mul (spin_mul g g) g) g = spin_identity →
       NoDup [g; spin_mul g g; spin_mul (spin_mul g g) g; spin_identity] →
       ∃ fuel result,
         traverse_spin_operations fuel [g] = Some result
         ∧ length result = 4%nat
         ∧ result ≡ₚ [g; spin_mul g g; spin_mul (spin_mul g g) g; spin_identity]).
Proof.
  split.
  - intros [|[|fuel]] Hfuel; [lia|lia|].
    unfold traverse_spin_operations.
    change (reverse [spin_identity]) with [spin_identity]. cbn [traverse_loop].
    rewrite decide_False by set_solver.
    cbn zeta. unfold enqueue_products.
    rewrite (right_id_L ∅ (∪)), elements_singleton. cbn [foldl].
    replace (spin_mul spin_identity spin_identity) with spin_identity
      by (by vm_compute).
    rewrite decide_True by set_solver.
    simpl. by rewrite elements_singleton.
  - intros g Hg Hord Hnd.
    destruct (order_four_closure g _ _ Hg eq_refl eq_refl Hord Hnd)
      as (fuel & result & Hrun & Hperm).
    exists fuel, result. split; [done|]. split; [|done].
    by rewrite Hperm.
Qed.

Lemma traverse_spin_operations_closure_witness :
  traverse_spin_operations 2 [spin_identity] = Some [spin_identity]
  ∧ ∃ fuel result,
      traverse_spin_operations fuel [quarter_turn] = Some result
      ∧ length result = 4%nat
      ∧ result ≡ₚ [quarter_turn; spin_mul quarter_turn quarter_turn;
                    spin_mul (spin_mul quarter_turn quarter_turn) quarter_turn;
                    spin_identity].
Proof.
  split.
  - apply (proj1 traverse_spin_operations_closure 2%nat). lia.
  - apply (proj2 traverse_spin_operations_closure quarter_turn).
    + vm_compute. intuition discriminate.
    + vm_compute. reflexivity.
    + vm_compute. repeat constructor; rewrite ?elem_of_cons, ?elem_of_nil;
        intuition discriminate.
Defined.

(** C7: when the generators lie in a finite set closed under the product
    (which is the case when they generate a finite group), the loop of
    [traverse_spin_operations] empties its queue after finitely many
    iterations and returns; more fuel does not change the result.  The loop
    has no other exit: a run that returns [k] elements has spent more than
    [k] iterations, for every [k]. *)
Theorem traverse_spin_operations_terminates
    (generators : list spin_op) (S : gset spin_op) :
  closed_under spin_mul S →
  (∀ g, g ∈ generators → g ∈ S) →
  (∃ fuel result,
     traverse_spin_operations fuel generators = Some result
     ∧ ∀ fuel', (fuel ≤ fuel')%nat →
         traverse_spin_operations fuel' generators = Some result)
  ∧ (∀ fuel result,
       traverse_spin_operations fuel generators = Some result →
       (length result < fuel)%nat).
Proof.
  intros HS Hgen. split.
  - destruct (traverse_loop_terminates spin_mul S HS (size S) (reverse generators) ∅)
      as (n & R & Hrun).
    + set_solver.
    + intros x Hx. apply Hgen. by apply elem_of_reverse.
    + apply subseteq_size. set_solver.
    + exists n, (elements R). unfold traverse_spin_operations.
      rewrite Hrun. split; [done|]. intros fuel' Hle.
      by rewrite (traverse_loop_fuel spin_mul n fuel' _ _ R Hrun Hle).
  - intros fuel result. unfold traverse_spin_operations.
    destruct (traverse_loop spin_mul fuel (reverse generators) ∅) as [R|] eqn:Hrun;
      [|done].
    intros [= <-]. apply traverse_loop_size in Hrun.
    rewrite size_empty in Hrun. change (size R < fuel)%nat. lia.
Qed.

Lemma traverse_spin_operations_terminates_witness :
  (∃ fuel result,
     traverse_spin_operations fuel [spin_identity] = Some result
     ∧ ∀ fuel', (fuel ≤ fuel')%nat →
         traverse_spin_operations fuel' [spin_identity] = Some result)
  ∧ (∀ fuel result,
       traverse_spin_operations fuel [spin_identity] = Some result →
       (length result < fuel)%nat).
Proof.
  apply (traverse_spin_operations_terminates [spin_identity] {[spin_identity]}).
  - intros x y ->%elem_of_singleton ->%elem_of_singleton.
    apply elem_of_singleton. by vm_compute.
  - intros x ->%list_elem_of_singleton. set_solver.
Defined.

(** ** Site permutations *)

Lemma collect_permutations_length (lattice : mat Qc) (positions : list (vec Qc))
    (numbers : list Z) (symprec : Qc) (ops : list (mat Z * vec Qc))
    (acc result : list Permutation) :
  collect_permutations lattice positions numbers symprec ops acc = Ok result →
  length result = (length acc + length ops)%nat.
Proof.
  revert acc. induction ops as [|[rot trans] ops IH]; intros acc; simpl.
  - intros [= <-]. lia.
  - destruct (site_assignment _ _ _ _ _ _) as [perm|e]; [|done]. simpl.
    intros Hrun%IH. rewrite length_app in Hrun. simpl in Hrun. lia.
Qed.

(** Whatever the sites do, a call that returns has kept one permutation
    for every operation it was given. *)
Lemma get_symmetry_permutations_length (lattice : mat Qc)
    (positions : list (vec Qc)) (numbers : list Z) (rotations : list (mat Z))
    (translations : list (vec Qc)) (symprec : Qc) (result : list Permutation) :
  get_symmetry_permutations lattice positions numbers rotations translations
                            symprec = Ok result →
  length result = length (zip rotations translations).
Proof.
  unfold get_symmetry_permutations. intros Hrun.
  by apply collect_permutations_length in Hrun.
Qed.

(** C1, at the failing input: one site at the origin of the unit cube and
    the translation by half a cell edge, with tolerance 1/10.  The site
    finds no target, and still the operation contributes the permutation
    [[-1]] to the result. *)
Theorem get_symmetry_permutations_keeps_unmatched :
  get_symmetry_permutations eyeQ [(ZQ 0, ZQ 0, ZQ 0)] [1%Z] [eyeZ]
                            [(Q2Qc (1 # 2), ZQ 0, ZQ 0)] (Q2Qc (1 # 10))
  = Ok [mkPermutation [(-1)%Z]].
Proof. vm_compute. reflexivity. Qed.

(** ** Reduction into the fundamental domain *)

Lemma mat_vec_ZQ (T : mat Z) (n : vec Z) :
  mat_vec (mat_map ZQ T) (vec_map ZQ n) = vec_map ZQ (mat_vecZ T n).
Proof.
  destruct_mat T. destruct n as [[x y] z].
  cbn [mat_vec mat_map vec_map dotQ mat_vecZ dotZ].
  by rewrite !ZQ_add, !ZQ_mul.
Qed.

Lemma vec_sub_ZQ (u v : vec Z) :
  vec_sub (vec_map ZQ u) (vec_map ZQ v) = vec_map ZQ (vec_zip Z.sub u v).
Proof.
  destruct u as [[a b] c], v as [[x y] z]. cbn [vec_sub vec_zip vec_map].
  by rewrite !ZQ_sub.
Qed.

(** C8: for an integer vector [v] and an invertible integer matrix [T], the
    reduction of the spin-translation search (apply the inverse of [T],
    subtract the nearest integer vector [n], map back through [T], round)
    is the integer vector [v - T n]: it differs from [v] by a vector of the
    lattice spanned by the columns of [T]. *)
Theorem reduce_centering_congruent (T : mat Z) (tmatinv_stg : mat Qc) (v : vec Z) :
  np_linalg_inv (mat_map ZQ T) = Ok tmatinv_stg →
  let n := vec_map rint (mat_vec tmatinv_stg (vec_map ZQ v)) in
  reduce_centering (mat_map ZQ T) tmatinv_stg (vec_map ZQ v)
  = vec_zip Z.sub v (mat_vecZ T n).
Proof.
  intros Hinv n. unfold reduce_centering.
  rewrite mat_vec_sub, <- mat_vec_matmul, (np_linalg_inv_r _ _ Hinv), mat_vec_eye.
  replace (vec_map np_rint (mat_vec tmatinv_stg (vec_map ZQ v)))
    with (vec_map ZQ n).
  2:{ unfold n. by destruct (mat_vec tmatinv_stg (vec_map ZQ v)) as [[? ?] ?]. }
  rewrite mat_vec_ZQ, vec_sub_ZQ.
  destruct (vec_zip Z.sub v (mat_vecZ T n)) as [[a b] c].
  cbn [vec_map]. by rewrite !around_astype_ZQ.
Qed.

Lemma reduce_centering_congruent_witness :
  reduce_centering (mat_map ZQ ((2, 0, 0), (0, 1, 0), (0, 0, 1))%Z)
                   ((Q2Qc (1 # 2), 0, 0), (0, 1, 0), (0, 0, 1))%Qc
                   (vec_map ZQ (3, 0, 0)%Z)
  = (-1, 0, 0)%Z.
Proof.
  rewrite (reduce_centering_congruent ((2, 0, 0), (0, 1, 0), (0, 0, 1))%Z
             ((Q2Qc (1 # 2), 0, 0), (0, 1, 0), (0, 0, 1))%Qc (3, 0, 0)%Z).
  - vm_compute. reflexivity.
  - compute_done.
Defined.

(** ** Phase A: the centering filter *)

Lemma retain_centerings_filter (magmoms : list (vec Qc)) (mag_symprec : Qc)
    (cps retained : list (vec Qc * Permutation)) :
  retain_centerings magmoms mag_symprec cps = Ok retained →
  retained
  = filter (λ cp, moments_invariant magmoms cp.2 mag_symprec = Ok true) cps.
Proof.
  revert retained. induction cps as [|[c p] cps IH]; intros retained; simpl.
  - by intros [= <-].
  - destruct (moments_invariant magmoms p mag_symprec) as [b|e] eqn:Hb;
      [|done]. simpl.
    destruct (retain_centerings magmoms mag_symprec cps) as [rest|e]; [|done].
    simpl. intros [= <-]. rewrite filter_cons. simpl. rewrite Hb.
    rewrite (IH rest eq_refl).
    destruct b; [by rewrite decide_True|by rewrite decide_False].
Qed.

Lemma retain_centerings_total (magmoms : list (vec Qc)) (mag_symprec : Qc)
    (cps : list (vec Qc * Permutation)) :
  magmoms ≠ [] →
  Forall (λ cp, valid_permutation (length magmoms) cp.2) cps →
  ∃ retained, retain_centerings magmoms mag_symprec cps = Ok retained.
Proof.
  intros Hne. induction 1 as [|[c p] cps Hp _ [rest Hrest]]; simpl;
    [by eexists|].
  destruct (moments_invariant_sites magmoms p mag_symprec Hne Hp) as (b & -> & _).
  simpl. rewrite Hrest. simpl. by eexists.
Qed.

(** C5: over [n > 0] sites and centerings whose permutations are arrays of
    [n] site indices, the first loop of [get_primitive_spin_symmetry]
    returns, in their order, exactly the centerings for which the largest
    norm of [magmoms[perm(i)] - magmoms[i]] is strictly below
    [mag_symprec]; and that test holds exactly when every site's moment is
    unchanged within the tolerance. *)
Theorem retain_centerings_iff (nonmagnetic_symmetry : NonmagneticSymmetry)
    (magmoms : list (vec Qc)) (mag_symprec : Qc) :
  let cps := zip (prim_centerings nonmagnetic_symmetry)
                 (prim_centering_permutations nonmagnetic_symmetry) in
  magmoms ≠ [] →
  Forall (λ cp, valid_permutation (length magmoms) cp.2) cps →
  ∃ retained,
    retain_centerings magmoms mag_symprec cps = Ok retained
    ∧ retained
      = filter (λ cp, moments_invariant magmoms cp.2 mag_symprec = Ok true) cps
    ∧ ∀ cp, cp ∈ cps →
        (cp ∈ retained
         ↔ moments_invariant magmoms cp.2 mag_symprec = Ok true)
        ∧ (moments_invariant magmoms cp.2 mag_symprec = Ok true
           ↔ ∀ i, (i < length magmoms)%nat →
                  site_unchanged magmoms cp.2 mag_symprec i).
Proof.
  intros cps Hne Hvalid.
  destruct (retain_centerings_total magmoms mag_symprec cps Hne Hvalid)
    as [retained Hrun].
  exists retained. split; [done|].
  pose proof (retain_centerings_filter _ _ _ _ Hrun) as Hfilter.
  split; [done|]. intros cp Hcp. split.
  - rewrite Hfilter, list_elem_of_filter. tauto.
  - rewrite Forall_forall in Hvalid.
    destruct (moments_invariant_sites magmoms cp.2 mag_symprec Hne
                (Hvalid cp Hcp)) as (b & -> & Hb).
    rewrite <- Hb. split; congruence.
Qed.

(** ** Phase B: the determinant assertion *)

Section assertion.
Variable column_style_hermite_normal_form : list (vec Qc) → list (vec Qc).
Variable SpinOnlyGroup : Type.
Variable get_spin_only_group : list (vec Qc) → Qc → SpinOnlyGroup.
Variable contain : SpinOnlyGroup → mat Qc → bool.
Variable solve_procrustes : list (vec Qc) → list (vec Qc) → mat Qc.

Lemma assertion_raised (nonmagnetic_symmetry : NonmagneticSymmetry)
    (magmoms : list (vec Qc)) (mag_symprec : Qc)
    (retained : list (vec Qc * Permutation)) (vectors : list (vec Qc))
    (tmat_stg tmatinv_stg : mat Qc) :
  retain_centerings magmoms mag_symprec
    (zip (prim_centerings nonmagnetic_symmetry)
         (prim_centering_permutations nonmagnetic_symmetry)) = Ok retained →
  stg_vectors (transformation nonmagnetic_symmetry) retained.*1 = Ok vectors →
  leading_columns (column_style_hermite_normal_form vectors) = Ok tmat_stg →
  np_linalg_inv tmat_stg = Ok tmatinv_stg →
  np_isclose (Qcabs (det tmat_stg)) (ZQ (Z.of_nat (length retained.*1))) = false →
  get_primitive_spin_symmetry column_style_hermite_normal_form SpinOnlyGroup
    get_spin_only_group contain solve_procrustes
    nonmagnetic_symmetry magmoms mag_symprec
  = Raise AssertionError.
Proof.
  intros HA Hvec Hlead Hinv Hclose. unfold get_primitive_spin_symmetry.
  rewrite HA. cbn [mbind res_bind]. rewrite Hvec. cbn [mbind res_bind].
  rewrite Hlead. cbn [mbind res_bind]. rewrite Hinv. cbn [mbind res_bind].
  by rewrite Hclose.
Qed.

(** C2, at the failing input: two sites with equal moments in a cell
    doubled along the first axis, whatever the rotations of the record are.
    Both centerings are retained, the columns handed to the Hermite normal
    form span the whole integer lattice, so the leading block [T] of any
    Hermite normal form of them has [|det T| = 1], which is not the number
    2 of retained centerings: the assertion aborts the assembly. *)
Theorem determinant_assertion_fails (nonmagnetic_symmetry : NonmagneticSymmetry) :
  prim_centerings nonmagnetic_symmetry
  = prim_centerings ferromagnetic_supercell →
  prim_centering_permutations nonmagnetic_symmetry
  = prim_centering_permutations ferromagnetic_supercell →
  transformation nonmagnetic_symmetry = transformation ferromagnetic_supercell →
  hnf_basis ferromagnetic_vectors
            (column_style_hermite_normal_form ferromagnetic_vectors) →
  get_primitive_spin_symmetry column_style_hermite_normal_form SpinOnlyGroup
    get_spin_only_group contain solve_procrustes
    nonmagnetic_symmetry ferromagnetic_magmoms (Q2Qc (1 # 100))
  = Raise AssertionError.
Proof.
  intros Hcent Hperm Htrans (T & Hlead & Hint & Hall).
  unfold ferromagnetic_vectors in Hall.
  destruct (Forall_cons_1 _ _ _ Hall) as [_ Hall1].
  destruct (Forall_cons_1 _ _ _ Hall1) as [H1 Hall2].
  destruct (Forall_cons_1 _ _ _ Hall2) as [H2 Hall3].
  destruct (Forall_cons_1 _ _ _ Hall3) as [_ Hall4].
  destruct (Forall_cons_1 _ _ _ Hall4) as [H0 _].
  pose proof (unit_lattice_det T Hint H0 H1 H2) as Hdet.
  destruct (np_linalg_inv_ok T) as [Tinv HTinv].
  { destruct Hdet as [-> | ->]; intros Hz; by apply (ZQ_inj _ 0) in Hz. }
  eapply (assertion_raised nonmagnetic_symmetry ferromagnetic_magmoms _
            (zip (prim_centerings ferromagnetic_supercell)
                 (prim_centering_permutations ferromagnetic_supercell))
            ferromagnetic_vectors T Tinv).
  - rewrite Hcent, Hperm. vm_compute. reflexivity.
  - rewrite Htrans. reflexivity.
  - exact Hlead.
  - exact HTinv.
  - destruct Hdet as [-> | ->]; vm_compute; reflexivity.
Qed.

End assertion.

Lemma determinant_assertion_fails_witness :
  get_primitive_spin_symmetry unit_hnf (list (vec Qc)) (λ magmoms _, magmoms)
    fixes_moments half_turn_fit
    ferromagnetic_supercell ferromagnetic_magmoms (Q2Qc (1 # 100))
  = Raise AssertionError.
Proof.
  apply determinant_assertion_fails; [reflexivity|reflexivity|reflexivity|].
  exists (mat_map ZQ eyeZ). split; [reflexivity|]. split; [reflexivity|].
  unfold ferromagnetic_vectors.
  apply List.Forall_cons; [exists (2, 0, 0)%Z; compute_done|].
  apply List.Forall_cons; [exists (0, 1, 0)%Z; compute_done|].
  apply List.Forall_cons; [exists (0, 0, 1)%Z; compute_done|].
  apply List.Forall_cons; [exists (0, 0, 0)%Z; compute_done|].
  apply List.Forall_cons; [exists (1, 0, 0)%Z; compute_done|].
  apply List.Forall_nil.
Defined.

(** ** Canonical point group *)

Section canonical_facts.
Local Open Scope Qc_scope.
Variable get_pointgroup : list (mat Z) → string * mat Z.
Variable pg_dataset : gmap string (list (list (mat Z))).

Lemma conjugate_exact (P Pinv : mat Qc) (r ri : mat Z) :
  conjugate P Pinv r = ri →
  is_integer_array (matmul (matmul Pinv (mat_map ZQ r)) P) = true →
  matmul (matmul Pinv (mat_map ZQ r)) P = mat_map ZQ ri.
Proof.
  unfold conjugate. intros <- [M ->]%is_integer_array_inv. f_equal.
  destruct_mat M. cbn [ndarray2d_to_integer_tuple mat_map vec_map].
  by rewrite !around_astype_ZQ.
Qed.

Lemma conjugate_identity (P Pinv : mat Qc) :
  np_linalg_inv P = Ok Pinv → conjugate P Pinv eyeZ = eyeZ.
Proof.
  intros Hinv. unfold conjugate.
  change (mat_map ZQ eyeZ) with eyeQ.
  rewrite matmul_eye_r, (np_linalg_inv_l _ _ Hinv). by vm_compute.
Qed.

(** C9: a triple [(symbol, index, mapping)] returned by
    [get_canonical_pointgroup] names an entry of the catalogue for the
    symbol of the oracle such that, for every position [k] of that entry,
    the input rotation at position [mapping[k]], conjugated by the basis
    change [P] (and rounded, as the code compares integer tuples), is the
    catalogue rotation [k]; when the conjugate is an integer matrix it is
    that rotation exactly.  For the input that holds only the identity,
    classified as "1" with the catalogue entry that holds the identity
    first, the result is index 0 and the identity mapping. *)
Theorem get_canonical_pointgroup_mapping :
  (∀ prim_rotations pg_symbol idx mapping,
     get_canonical_pointgroup get_pointgroup pg_dataset prim_rotations
     = Ok (Some (pg_symbol, idx, mapping)) →
     ∃ P Pinv entries std_rotations,
       get_pointgroup prim_rotations = (pg_symbol, P)
       ∧ np_linalg_inv (mat_map ZQ P) = Ok Pinv
       ∧ pg_dataset !! pg_symbol = Some entries
       ∧ entries !! idx = Some std_rotations
       ∧ length mapping = length prim_rotations
       ∧ ∀ k ri, std_rotations !! k = Some ri →
           ∃ j r,
             mapping !! k = Some (Z.of_nat j)
             ∧ prim_rotations !! j = Some r
             ∧ conjugate (mat_map ZQ P) Pinv r = ri
             ∧ (is_integer_array
                  (matmul (matmul Pinv (mat_map ZQ r)) (mat_map ZQ P)) = true →
                matmul (matmul Pinv (mat_map ZQ r)) (mat_map ZQ P)
                = mat_map ZQ ri))
  ∧ (∀ P rest,
       get_pointgroup [eyeZ] = ("1"%string, P) →
       det (mat_map ZQ P) ≠ 0 →
       pg_dataset !! "1"%string = Some ([eyeZ] :: rest) →
       get_canonical_pointgroup get_pointgroup pg_dataset [eyeZ]
       = Ok (Some ("1"%string, 0%nat, [0%Z]))).
Proof.
  split.
  - intros prim_rotations pg_symbol idx mapping.
    unfold get_canonical_pointgroup.
    destruct (get_pointgroup prim_rotations) as [sym P] eqn:Hpg.
    destruct (np_linalg_inv (mat_map ZQ P)) as [Pinv|e] eqn:Hinv; [|done].
    simpl. destruct (pg_dataset !! sym) as [entries|] eqn:Hds; [|done].
    simpl.
    intros (-> & _ & std & Hstd & Hrun)%search_catalogue_some.
    rewrite Nat.sub_0_r in Hstd.
    apply match_rotations_some in Hrun as (Hlen & _ & Hmap).
    rewrite length_replicate in Hlen.
    exists P, Pinv, entries, std. repeat (split; [done|]).
    intros k ri Hk. destruct (Hmap k ri Hk) as (j & Hj & Hm).
    apply list_lookup_fmap_Some in Hm as (r & Hconj & Hr).
    exists j, r. split; [done|]. split; [done|]. split; [done|].
    intros Hint. by apply conjugate_exact.
  - intros P rest Hpg Hdet Hds. unfold get_canonical_pointgroup.
    rewrite Hpg. destruct (np_linalg_inv_ok _ Hdet) as [Pinv HPinv].
    rewrite HPinv. simpl. rewrite Hds. simpl.
    rewrite (conjugate_identity _ _ HPinv). reflexivity.
Qed.

(** C10: when the oracle's basis change is invertible, the symbol has
    catalogue entries, each of them a list of distinct rotations, and no
    entry matches (every entry holds a rotation that is not among the
    conjugated input rotations), [get_canonical_pointgroup] runs off the
    end of its loop and returns [None], without an exception. *)
Theorem get_canonical_pointgroup_miss (prim_rotations : list (mat Z))
    (pg_symbol : string) (P : mat Z) (Pinv : mat Qc)
    (entries : list (list (mat Z))) :
  get_pointgroup prim_rotations = (pg_symbol, P) →
  np_linalg_inv (mat_map ZQ P) = Ok Pinv →
  pg_dataset !! pg_symbol = Some entries →
  Forall (λ std_rotations, NoDup std_rotations) entries →
  Forall (λ std_rotations,
            ∃ ri, ri ∈ std_rotations
                  ∧ ri ∉ (conjugate (mat_map ZQ P) Pinv <$> prim_rotations))
         entries →
  get_canonical_pointgroup get_pointgroup pg_dataset prim_rotations = Ok None.
Proof.
  intros Hpg Hinv Hds Hnd Hmiss. unfold get_canonical_pointgroup.
  rewrite Hpg, Hinv. simpl. rewrite Hds. simpl.
  apply search_catalogue_none.
  rewrite Forall_forall in Hnd, Hmiss. apply Forall_forall. intros std Hstd.
  apply (match_rotations_none _ std []); simpl.
  - by apply Hnd.
  - intros r Hr. by apply elem_of_nil in Hr.
  - by rewrite length_replicate, length_fmap.
  - by apply Hmiss.
Qed.

End canonical_facts.

Lemma get_canonical_pointgroup_mapping_witness :
  get_canonical_pointgroup trivial_oracle trivial_dataset [eyeZ]
  = Ok (Some ("1"%string, 0%nat, [0%Z]))
  ∧ ∃ P Pinv entries std_rotations,
      trivial_oracle [eyeZ] = ("1"%string, P)
      ∧ np_linalg_inv (mat_map ZQ P) = Ok Pinv
      ∧ trivial_dataset !! "1"%string = Some entries
      ∧ entries !! 0%nat = Some std_rotations
      ∧ length [0%Z] = length [eyeZ]
      ∧ ∀ k ri, std_rotations !! k = Some ri →
          ∃ j r,
            [0%Z] !! k = Some (Z.of_nat j)
            ∧ [eyeZ] !! j = Some r
            ∧ conjugate (mat_map ZQ P) Pinv r = ri
            ∧ (is_integer_array
                 (matmul (matmul Pinv (mat_map ZQ r)) (mat_map ZQ P)) = true →
               matmul (matmul Pinv (mat_map ZQ r)) (mat_map ZQ P)
               = mat_map ZQ ri).
Proof.
  assert (get_canonical_pointgroup trivial_oracle trivial_dataset [eyeZ]
          = Ok (Some ("1"%string, 0%nat, [0%Z]))) as Hrun.
  { apply (proj2 (get_canonical_pointgroup_mapping trivial_oracle
                    trivial_dataset) eyeZ []); [reflexivity| |reflexivity].
    rewrite det_ZQ. intros Hz. by apply (ZQ_inj _ 0) in Hz. }
  split; [exact Hrun|].
  exact (proj1 (get_canonical_pointgroup_mapping trivial_oracle
                  trivial_dataset) _ _ _ _ Hrun).
Defined.

Lemma get_canonical_pointgroup_miss_witness :
  get_canonical_pointgroup trivial_oracle trivial_dataset [quarter_turn_z]
  = Ok None.
Proof.
  apply (get_canonical_pointgroup_miss trivial_oracle trivial_dataset
           [quarter_turn_z] "1"%string eyeZ eyeQ [[eyeZ]]).
  - reflexivity.
  - compute_done.
  - reflexivity.
  - repeat constructor. by intros ?%elem_of_nil.
  - repeat constructor. exists eyeZ. split; [by left|].
    intros Hin. apply list_elem_of_singleton in Hin. by vm_compute in Hin.
Defined.

(** ** The cosets *)

Lemma sublist_zip_fst {A B : Type} (l : list A) (k : list B) :
  sublist (zip l k).*1 l.
Proof.
  revert k. induction l as [|a l IH]; intros [|b k]; simpl;
    try apply sublist_nil_l. by apply sublist_skip.
Qed.

Lemma mat_map_ZQ_inj (a b : mat Z) : mat_map ZQ a = mat_map ZQ b → a = b.
Proof.
  destruct_mat a. destruct_mat b. cbn [mat_map vec_map].
  intros Heq.
  repeat match goal with
         | H : (_, _) = (_, _) |- _ =>
           apply pair_equal_spec in H; destruct H
         end.
  tuple_eq; by apply ZQ_inj.
Qed.

(** Conjugation into the new basis does not identify two rotations. *)
Lemma to_primitive_inj (tmat_stg tmatinv_stg : mat Qc) :
  np_linalg_inv tmat_stg = Ok tmatinv_stg →
  Inj (=) (=) (to_primitive tmat_stg tmatinv_stg).
Proof.
  intros Hinv a b Heq. unfold to_primitive in Heq.
  apply mat_map_ZQ_inj.
  assert (∀ m, matmul (matmul tmat_stg
                         (matmul (matmul tmatinv_stg m) tmat_stg))
                 tmatinv_stg = m) as Hback.
  { intros m. rewrite <- (matmul_assoc tmat_stg (matmul tmatinv_stg m)).
    rewrite <- (matmul_assoc tmat_stg tmatinv_stg m).
    rewrite (np_linalg_inv_r _ _ Hinv), matmul_eye_l, matmul_assoc.
    by rewrite (np_linalg_inv_r _ _ Hinv), matmul_eye_r. }
  by rewrite <- (Hback (mat_map ZQ a)), Heq, Hback.
Qed.

Section coset_facts.
Variable column_style_hermite_normal_form : list (vec Qc) → list (vec Qc).
Variable SpinOnlyGroup : Type.
Variable get_spin_only_group : list (vec Qc) → Qc → SpinOnlyGroup.
Variable contain : SpinOnlyGroup → mat Qc → bool.
Variable solve_procrustes : list (vec Qc) → list (vec Qc) → mat Qc.

Lemma contribution_rotations (tmat_stg tmatinv_stg : mat Qc)
    (sog : SpinOnlyGroup) (magmoms : list (vec Qc)) (mag_symprec : Qc)
    (retained : list (vec Qc * Permutation))
    (ops : list (mat Z * vec Qc * Permutation))
    (os : list (option SpinSymmetryOperation)) :
  Forall2 (contribution SpinOnlyGroup contain solve_procrustes tmat_stg
             tmatinv_stg sog magmoms mag_symprec retained) ops os →
  sublist (rotation <$> omap id os)
          (to_primitive tmat_stg tmatinv_stg <$> ops.*1.*1).
Proof.
  induction 1 as [|[[rot trans] perm] o ops os Hc _ IH]; simpl;
    [apply sublist_nil_l|].
  destruct o as [op|]; simpl; [|by apply sublist_cons].
  unfold contribution in Hc.
  destruct (is_integer_array _); [|done].
  destruct Hc as (i & c & cp & new_perm & W & _ & _ & _ & _ & ->).
  by apply sublist_skip.
Qed.

Lemma contribution_member (tmat_stg tmatinv_stg : mat Qc)
    (sog : SpinOnlyGroup) (magmoms : list (vec Qc)) (mag_symprec : Qc)
    (retained : list (vec Qc * Permutation))
    (ops : list (mat Z * vec Qc * Permutation))
    (os : list (option SpinSymmetryOperation)) (op : SpinSymmetryOperation) :
  Forall2 (contribution SpinOnlyGroup contain solve_procrustes tmat_stg
             tmatinv_stg sog magmoms mag_symprec retained) ops os →
  op ∈ omap id os →
  ∃ triple,
    triple ∈ ops
    ∧ contribution SpinOnlyGroup contain solve_procrustes tmat_stg
        tmatinv_stg sog magmoms mag_symprec retained triple (Some op).
Proof.
  induction 1 as [|t o ops os Hc _ IH]; simpl.
  - by intros ?%elem_of_nil.
  - destruct o as [op'|]; simpl.
    + intros [->|Hin]%elem_of_cons.
      * exists t. split; [by left|done].
      * destruct (IH Hin) as (t' & ? & ?). exists t'. split; [by right|done].
    + intros Hin. destruct (IH Hin) as (t' & ? & ?). exists t'.
      split; [by right|done].
Qed.



End coset_facts.

(** ** The antiferromagnetic pair, run through the assembler *)

Lemma antiferromagnet_valid :
  Forall (λ cp : vec Qc * Permutation,
            valid_permutation (length antiferromagnet_magmoms) cp.2)
         (zip (prim_centerings antiferromagnet)
              (prim_centering_permutations antiferromagnet)).
Proof.
  apply List.Forall_cons; [|apply List.Forall_nil].
  split; [reflexivity|].
  apply List.Forall_cons; [simpl; lia|].
  apply List.Forall_cons; [simpl; lia|apply List.Forall_nil].
Qed.

Lemma retain_centerings_iff_witness :
  antiferromagnet_magmoms ≠ []
  ∧ ∃ retained,
      retain_centerings antiferromagnet_magmoms (Q2Qc (1 # 100))
        (zip (prim_centerings antiferromagnet)
             (prim_centering_permutations antiferromagnet)) = Ok retained
      ∧ retained
        = filter (λ cp, moments_invariant antiferromagnet_magmoms cp.2
                          (Q2Qc (1 # 100)) = Ok true)
                 (zip (prim_centerings antiferromagnet)
                      (prim_centering_permutations antiferromagnet))
      ∧ ∀ cp, cp ∈ zip (prim_centerings antiferromagnet)
                       (prim_centering_permutations antiferromagnet) →
          (cp ∈ retained
           ↔ moments_invariant antiferromagnet_magmoms cp.2 (Q2Qc (1 # 100))
             = Ok true)
          ∧ (moments_invariant antiferromagnet_magmoms cp.2 (Q2Qc (1 # 100))
             = Ok true
             ↔ ∀ i, (i < length antiferromagnet_magmoms)%nat →
                    site_unchanged antiferromagnet_magmoms cp.2
                                   (Q2Qc (1 # 100)) i).
Proof.
  split; [done|].
  apply (retain_centerings_iff antiferromagnet antiferromagnet_magmoms
           (Q2Qc (1 # 100))); [done|apply antiferromagnet_valid].
Defined.



(** * Further properties *)

(** ** The permutation algebra *)

Lemma py_index_wrap {A : Type} (l : list A) (k : Z) :
  (- Z.of_nat (length l) ≤ k < Z.of_nat (length l))%Z →
  ∃ a, l !! wrap_index (length l) k = Some a ∧ py_index l k = Ok a.
Proof.
  intros Hk. unfold py_index, wrap_index.
  destruct (decide (k < 0)%Z) as [Hneg|Hpos].
  - rewrite decide_True by lia.
    destruct (l !! Z.to_nat (k + Z.of_nat (length l))) as [a|] eqn:Hl;
      [by exists a|].
    apply lookup_ge_None in Hl. lia.
  - rewrite decide_True by lia.
    destruct (l !! Z.to_nat k) as [a|] eqn:Hl; [by exists a|].
    apply lookup_ge_None in Hl. lia.
Qed.

Lemma py_index_ok {A : Type} (l : list A) (k : Z) (a : A) :
  py_index l k = Ok a →
  (- Z.of_nat (length l) ≤ k < Z.of_nat (length l))%Z
  ∧ l !! wrap_index (length l) k = Some a.
Proof.
  unfold py_index, wrap_index.
  destruct (decide (k < 0)%Z) as [Hneg|Hpos]; case_decide as Hk; try done.
  - destruct (l !! Z.to_nat (k + Z.of_nat (length l))) as [b|] eqn:Hl; [|done].
    intros [= <-]. split; [|done]. apply lookup_lt_Some in Hl. lia.
  - destruct (l !! Z.to_nat k) as [b|] eqn:Hl; [|done].
    intros [= <-]. split; [|done]. apply lookup_lt_Some in Hl. lia.
Qed.

Lemma py_index_raise {A : Type} (l : list A) (k : Z) (e : exn) :
  py_index l k = Raise e → e = IndexError.
Proof.
  unfold py_index. case_decide; [|congruence].
  destruct (l !! _); congruence.
Qed.

Lemma wrap_index_nonneg (n : nat) (k : Z) :
  (0 ≤ k)%Z → wrap_index n k = Z.to_nat k.
Proof. intros Hk. unfold wrap_index. by rewrite decide_False by lia. Qed.

Lemma perm_mul_body (f g : list Z) (i : nat) (b : Z) :
  (i < length g)%nat →
  (j ← perm_call (mkPermutation g) (Z.of_nat i);
   perm_call (mkPermutation f) j) = Ok b
  ↔ ∃ k, g !! i = Some k
         ∧ (- Z.of_nat (length f) ≤ k < Z.of_nat (length f))%Z
         ∧ f !! wrap_index (length f) k = Some b.
Proof.
  intros Hi. unfold perm_call. cbn [permutation].
  destruct (py_index_wrap g (Z.of_nat i)) as (k & Hk & Hpy); [lia|].
  rewrite wrap_index_nonneg, Nat2Z.id in Hk by lia.
  rewrite Hpy. cbn [mbind res_bind]. split.
  - intros [Hr Hb]%py_index_ok. by exists k.
  - intros (k' & Hk' & Hr & Hb). simplify_eq.
    destruct (py_index_wrap f k Hr) as (b' & Hb' & ->). congruence.
Qed.

Lemma seqZ_lookup_nat (n i : nat) :
  (i < n)%nat → seqZ 0 (Z.of_nat n) !! i = Some (Z.of_nat i).
Proof.
  intros Hi. rewrite lookup_seqZ. split; lia.
Qed.

(** [self * rhs] returns when [rhs] has the length of [self] and holds
    Python indices of [self]. *)
Lemma perm_mul_total (self rhs : Permutation) :
  let n := length (permutation self) in
  length (permutation rhs) = n →
  Forall (λ k, - Z.of_nat n ≤ k < Z.of_nat n)%Z (permutation rhs) →
  ∃ mul, perm_mul self rhs = Ok mul.
Proof.
  destruct self as [f], rhs as [g]. intros n. cbn [permutation] in n.
  unfold perm_mul. cbn [permutation]. fold n.
  intros Hlen Hrange. rewrite decide_True by done.
  destruct (res_mapM_total
              (λ i, j ← perm_call (mkPermutation g) i;
                    perm_call (mkPermutation f) j)
              (seqZ 0 (Z.of_nat n))) as [bs ->]; [|by eexists].
  apply Forall_lookup. intros i z Hz.
  apply lookup_seqZ in Hz as [-> Hi].
  destruct (lookup_lt_is_Some_2 g i) as [k Hk]; [lia|].
  rewrite Forall_lookup in Hrange.
  destruct (py_index_wrap f k (Hrange i k Hk)) as (b & Hb & _).
  exists b. rewrite Z.add_0_l. apply perm_mul_body; [lia|].
  exists k. split; [done|]. split; [by eapply Hrange|done].
Qed.

(** The array that [self * rhs] returns, entry by entry. *)
Lemma perm_mul_result (self rhs mul : Permutation) :
  let n := length (permutation self) in
  perm_mul self rhs = Ok mul →
  length (permutation mul) = n
  ∧ ∀ i k, permutation rhs !! i = Some k →
      permutation mul !! i = permutation self !! wrap_index n k.
Proof.
  destruct self as [f], rhs as [g]. intros n. cbn [permutation] in n.
  unfold perm_mul. cbn [permutation]. fold n.
  case_decide as Hlen; [|done].
  destruct (res_mapM _ _) as [bs|e] eqn:Hm; [|done].
  cbn [mbind res_bind]. intros [= <-]. cbn [permutation].
  apply res_mapM_Forall2 in Hm.
  pose proof (Forall2_length _ _ _ Hm) as Hbs.
  rewrite length_seqZ in Hbs. split; [lia|]. intros i k Hk.
  assert (i < n)%nat as Hi by (apply lookup_lt_Some in Hk; lia).
  destruct (Forall2_lookup_l _ _ _ i _ Hm (seqZ_lookup_nat n i Hi))
    as (b & Hbi & Hb).
  apply perm_mul_body in Hb as (k' & Hk' & _ & Hf); [|lia].
  simplify_eq. by rewrite Hbi.
Qed.

(** X1: [self * rhs] returns exactly when both arrays have the same length
    [n] and every entry of [rhs] is a Python index of a sequence of length
    [n] (from [-n] to [n-1]); its result has [n] entries, the entry at [i]
    being the entry of [self] at the index [rhs[i]], a negative index
    counting from the end. *)
Theorem perm_mul_defined (self rhs : Permutation) :
  let n := length (permutation self) in
  ((∃ mul, perm_mul self rhs = Ok mul)
   ↔ length (permutation rhs) = n
     ∧ Forall (λ k, - Z.of_nat n ≤ k < Z.of_nat n)%Z (permutation rhs))
  ∧ ∀ mul, perm_mul self rhs = Ok mul →
      length (permutation mul) = n
      ∧ ∀ i k, permutation rhs !! i = Some k →
          permutation mul !! i = permutation self !! wrap_index n k.
Proof.
  intros n. split; [split|].
  - intros [mul Hmul]. destruct self as [f], rhs as [g].
    cbn [permutation] in n. unfold perm_mul in Hmul.
    cbn [permutation] in *. fold n in Hmul.
    case_decide as Hlen; [|done]. split; [done|].
    destruct (res_mapM _ _) as [bs|e] eqn:Hm; [|done].
    apply res_mapM_Forall2 in Hm. apply Forall_lookup. intros i k Hk.
    assert (i < n)%nat as Hi by (apply lookup_lt_Some in Hk; lia).
    destruct (Forall2_lookup_l _ _ _ i _ Hm (seqZ_lookup_nat n i Hi))
      as (b & _ & Hb).
    apply perm_mul_body in Hb as (k' & Hk' & Hr & _); [|lia].
    by simplify_eq.
  - intros [Hlen Hrange]. by apply perm_mul_total.
  - intros mul Hmul. by apply perm_mul_result.
Qed.

Lemma perm_mul_defined_witness :
  ((∃ mul, perm_mul (mkPermutation [1; 0]%Z) (mkPermutation [-1; 0]%Z) = Ok mul)
   ↔ length [-1; 0]%Z = 2%nat
     ∧ Forall (λ k, - 2 ≤ k < 2)%Z [-1; 0]%Z)
  ∧ ∀ mul, perm_mul (mkPermutation [1; 0]%Z) (mkPermutation [-1; 0]%Z) = Ok mul →
      length (permutation mul) = 2%nat
      ∧ ∀ i k, [-1; 0]%Z !! i = Some k →
          permutation mul !! i = [1; 0]%Z !! wrap_index 2 k.
Proof.
  exact (perm_mul_defined (mkPermutation [1; 0]%Z) (mkPermutation [-1; 0]%Z)).
Defined.

Lemma valid_permutation_range (n : nat) (p : Permutation) :
  valid_permutation n p →
  length (permutation p) = n
  ∧ Forall (λ k, - Z.of_nat n ≤ k < Z.of_nat n)%Z (permutation p).
Proof.
  intros [Hlen Hr]. split; [done|]. eapply Forall_impl; [exact Hr|].
  intros k Hk. simpl in Hk. lia.
Qed.

Lemma valid_permutation_lookup (n : nat) (p : Permutation) (i : nat) (k : Z) :
  valid_permutation n p → permutation p !! i = Some k →
  (0 ≤ k < Z.of_nat n)%Z.
Proof. intros [_ Hr] Hk. rewrite Forall_lookup in Hr. by eapply Hr. Qed.

(** The product of two valid permutation arrays, entry by entry. *)
Lemma perm_mul_valid_entries (n : nat) (f g : Permutation) :
  valid_permutation n f → valid_permutation n g →
  ∃ fg, perm_mul f g = Ok fg
    ∧ valid_permutation n fg
    ∧ ∀ i k, permutation g !! i = Some k →
        permutation fg !! i = permutation f !! Z.to_nat k.
Proof.
  intros Hf Hg.
  destruct (valid_permutation_range n f Hf) as [Hlf _].
  destruct (valid_permutation_range n g Hg) as [Hlg Hrg].
  destruct (perm_mul_total f g) as [fg Hfg]; [congruence|by rewrite Hlf|].
  exists fg. split; [done|].
  destruct (perm_mul_result f g fg Hfg) as [Hl He]. rewrite Hlf in Hl, He.
  assert (∀ i k, permutation g !! i = Some k →
            permutation fg !! i = permutation f !! Z.to_nat k) as He'.
  { intros i k Hk. rewrite (He i k Hk), wrap_index_nonneg; [done|].
    pose proof (valid_permutation_lookup n g i k Hg Hk). lia. }
  split; [|done]. split; [done|]. apply Forall_lookup. intros i x Hx.
  destruct (lookup_lt_is_Some_2 (permutation g) i) as [k Hk].
  { apply lookup_lt_Some in Hx. lia. }
  rewrite (He' i k Hk) in Hx. simpl.
  exact (valid_permutation_lookup n f _ x Hf Hx).
Qed.

(** X2: the product of two permutation arrays over [n] sites is a
    permutation array over [n] sites, and [(self * rhs)(i) =
    self(rhs(i))] for every site [i]. *)
Theorem perm_mul_compose (n : nat) (self rhs : Permutation) :
  valid_permutation n self → valid_permutation n rhs →
  ∃ mul, perm_mul self rhs = Ok mul
    ∧ valid_permutation n mul
    ∧ ∀ i, (0 ≤ i < Z.of_nat n)%Z →
        ∃ j, perm_call rhs i = Ok j ∧ perm_call mul i = perm_call self j.
Proof.
  intros Hf Hg.
  destruct (perm_mul_valid_entries n self rhs Hf Hg) as (mul & Hmul & Hv & He).
  exists mul. split; [done|]. split; [done|]. intros i Hi.
  destruct Hg as [Hlg Hrg]. destruct Hv as [Hlm Hrm]. destruct Hf as [Hlf Hrf].
  unfold perm_call.
  destruct (py_index_in_range (permutation rhs) i) as (j & Hj & ->); [lia|].
  exists j. split; [done|].
  destruct (py_index_in_range (permutation mul) i) as (x & Hx & ->); [lia|].
  rewrite (He _ _ Hj) in Hx.
  rewrite Forall_lookup in Hrg.
  destruct (py_index_in_range (permutation self) j) as (y & Hy & ->).
  { rewrite Hlf. by eapply Hrg. }
  congruence.
Qed.

Lemma perm_mul_compose_witness :
  ∃ mul, perm_mul (mkPermutation [1; 2; 0]%Z) (mkPermutation [1; 0; 2]%Z) = Ok mul
    ∧ valid_permutation 3 mul
    ∧ ∀ i, (0 ≤ i < Z.of_nat 3)%Z →
        ∃ j, perm_call (mkPermutation [1; 0; 2]%Z) i = Ok j
             ∧ perm_call mul i = perm_call (mkPermutation [1; 2; 0]%Z) j.
Proof.
  apply (perm_mul_compose 3); split; try reflexivity;
    repeat (apply List.Forall_cons; [simpl; lia|]); apply List.Forall_nil.
Defined.

Lemma Permutation_eq (p q : Permutation) :
  length (permutation p) = length (permutation q) →
  (∀ i, (i < length (permutation p))%nat →
        permutation p !! i = permutation q !! i) →
  p = q.
Proof.
  destruct p as [p], q as [q]. cbn [permutation]. intros Hlen Hall. f_equal.
  apply list_eq. intros i. destruct (decide (i < length p)%nat); [by apply Hall|].
  rewrite !lookup_ge_None_2; [done|lia|lia].
Qed.

(** X3: the product of permutation arrays over [n] sites is associative:
    [(f * g) * h] and [f * (g * h)] both return, and return the same
    array. *)
Theorem perm_mul_assoc (n : nat) (f g h : Permutation) :
  valid_permutation n f → valid_permutation n g → valid_permutation n h →
  ∃ fg gh r,
    perm_mul f g = Ok fg ∧ perm_mul g h = Ok gh
    ∧ perm_mul fg h = Ok r ∧ perm_mul f gh = Ok r.
Proof.
  intros Hf Hg Hh.
  destruct (perm_mul_valid_entries n f g Hf Hg) as (fg & Hfg & Hvfg & Efg).
  destruct (perm_mul_valid_entries n g h Hg Hh) as (gh & Hgh & Hvgh & Egh).
  destruct (perm_mul_valid_entries n fg h Hvfg Hh) as (r & Hr & Hvr & Er).
  destruct (perm_mul_valid_entries n f gh Hf Hvgh) as (r' & Hr' & Hvr' & Er').
  exists fg, gh, r. repeat (split; [done|]). rewrite Hr'. f_equal.
  apply Permutation_eq.
  - destruct Hvr as [-> _], Hvr' as [-> _]. done.
  - intros i Hi. destruct Hvr' as [Hlr' _]. destruct Hh as [Hlh Hrh].
    destruct Hg as [Hlg Hrg].
    destruct (lookup_lt_is_Some_2 (permutation h) i) as [k Hk]; [lia|].
    rewrite Forall_lookup in Hrh. pose proof (Hrh i k Hk) as Hkr.
    destruct (lookup_lt_is_Some_2 (permutation g) (Z.to_nat k)) as [m Hm];
      [lia|].
    destruct Hvgh as [Hlgh _].
    pose proof (Egh i k Hk) as Hghi. rewrite Hm in Hghi.
    by rewrite (Er' i m Hghi), (Er i k Hk), (Efg _ m Hm).
Qed.

Lemma perm_mul_assoc_witness :
  ∃ fg gh r,
    perm_mul (mkPermutation [1; 2; 0]%Z) (mkPermutation [1; 0; 2]%Z) = Ok fg
    ∧ perm_mul (mkPermutation [1; 0; 2]%Z) (mkPermutation [0; 2; 1]%Z) = Ok gh
    ∧ perm_mul fg (mkPermutation [0; 2; 1]%Z) = Ok r
    ∧ perm_mul (mkPermutation [1; 2; 0]%Z) gh = Ok r.
Proof.
  apply (perm_mul_assoc 3); split; try reflexivity;
    repeat (apply List.Forall_cons; [simpl; lia|]); apply List.Forall_nil.
Defined.

Lemma identity_permutation_valid (n : nat) :
  valid_permutation n (identity_permutation n).
Proof.
  split; cbn [identity_permutation permutation].
  - rewrite length_seqZ. lia.
  - apply Forall_lookup. intros i k Hk. apply lookup_seqZ in Hk. lia.
Qed.

(** X4: the array [0, 1, ..., n-1] is a unit of the product on both sides
    for the permutation arrays over [n] sites. *)
Theorem perm_mul_identity (n : nat) (f : Permutation) :
  valid_permutation n f →
  perm_mul f (identity_permutation n) = Ok f
  ∧ perm_mul (identity_permutation n) f = Ok f.
Proof.
  intros Hf. pose proof (identity_permutation_valid n) as Hid.
  destruct (perm_mul_valid_entries n f _ Hf Hid) as (r & -> & Hvr & Er).
  destruct (perm_mul_valid_entries n _ f Hid Hf) as (l & -> & Hvl & El).
  destruct Hf as [Hlf Hrf]. split; f_equal; apply Permutation_eq.
  - destruct Hvr as [-> _]. done.
  - destruct Hvr as [Hlr _]. intros i Hi.
    rewrite (Er i (Z.of_nat i)), Nat2Z.id; [done|].
    cbn [identity_permutation permutation]. apply seqZ_lookup_nat. lia.
  - destruct Hvl as [-> _]. done.
  - destruct Hvl as [Hll _]. intros i Hi.
    destruct (lookup_lt_is_Some_2 (permutation f) i) as [k Hk]; [lia|].
    rewrite (El i k Hk), Hk. cbn [identity_permutation permutation].
    rewrite Forall_lookup in Hrf. pose proof (Hrf i k Hk) as Hkr.
    rewrite lookup_seqZ. split; lia.
Qed.

Lemma perm_mul_identity_witness :
  perm_mul (mkPermutation [1; 2; 0]%Z) (identity_permutation 3)
  = Ok (mkPermutation [1; 2; 0]%Z)
  ∧ perm_mul (identity_permutation 3) (mkPermutation [1; 2; 0]%Z)
    = Ok (mkPermutation [1; 2; 0]%Z).
Proof.
  apply (perm_mul_identity 3); split; try reflexivity;
    repeat (apply List.Forall_cons; [simpl; lia|]); apply List.Forall_nil.
Defined.

(** X5: the product of two bijections of the sites is a bijection: when
    neither array repeats a site, the product does not either. *)
Theorem perm_mul_bijective (n : nat) (f g fg : Permutation) :
  valid_permutation n f → valid_permutation n g →
  NoDup (permutation f) → NoDup (permutation g) →
  perm_mul f g = Ok fg →
  valid_permutation n fg ∧ NoDup (permutation fg).
Proof.
  intros Hf Hg Hnf Hng Hmul.
  destruct (perm_mul_valid_entries n f g Hf Hg) as (fg' & Hfg' & Hv & He).
  assert (fg' = fg) as -> by congruence. split; [done|].
  apply NoDup_alt. intros i j x Hi Hj.
  destruct Hv as [Hl _]. destruct Hg as [Hlg Hrg].
  destruct (lookup_lt_is_Some_2 (permutation g) i) as [k Hk].
  { apply lookup_lt_Some in Hi. lia. }
  destruct (lookup_lt_is_Some_2 (permutation g) j) as [k' Hk'].
  { apply lookup_lt_Some in Hj. lia. }
  rewrite (He i k Hk) in Hi. rewrite (He j k' Hk') in Hj.
  rewrite NoDup_alt in Hnf. pose proof (Hnf _ _ _ Hi Hj) as Hkk.
  rewrite Forall_lookup in Hrg.
  pose proof (Hrg i k Hk). pose proof (Hrg j k' Hk').
  assert (k = k') as -> by lia.
  rewrite NoDup_alt in Hng. by eapply Hng.
Qed.

Lemma perm_mul_bijective_witness :
  valid_permutation 3 (mkPermutation [2; 1; 0]%Z)
  ∧ NoDup (permutation (mkPermutation [2; 1; 0]%Z)).
Proof.
  apply (perm_mul_bijective 3 (mkPermutation [1; 2; 0]%Z)
           (mkPermutation [1; 0; 2]%Z)).
  - split; [reflexivity|].
    repeat (apply List.Forall_cons; [simpl; lia|]); apply List.Forall_nil.
  - split; [reflexivity|].
    repeat (apply List.Forall_cons; [simpl; lia|]); apply List.Forall_nil.
  - cbn [permutation]. apply NoDup_ListNoDup. repeat constructor; simpl; lia.
  - cbn [permutation]. apply NoDup_ListNoDup. repeat constructor; simpl; lia.
  - reflexivity.
Defined.

(** ** Site matching *)

Section matching_facts.
Local Open Scope Qc_scope.
Variables (lattice : mat Qc) (positions : list (vec Qc)) (numbers : list Z).
Variable symprec : Qc.

Local Abbreviation accepts' := (accepts lattice positions numbers symprec).
Local Abbreviation first_target' :=
  (first_target lattice positions numbers symprec).
Local Abbreviation assign_sites' :=
  (assign_sites lattice positions numbers symprec).
Local Abbreviation site_assignment' :=
  (site_assignment lattice positions numbers symprec).
Local Abbreviation fits := (fits lattice positions numbers symprec).
Local Abbreviation matched := (matched lattice positions numbers symprec).

Lemma py_index_nat {A : Type} (l : list A) (i : nat) (a : A) :
  py_index l (Z.of_nat i) = Ok a ↔ l !! i = Some a.
Proof.
  split.
  - intros [_ Ha]%py_index_ok.
    by rewrite wrap_index_nonneg, Nat2Z.id in Ha by lia.
  - intros Ha. pose proof (lookup_lt_Some _ _ _ Ha) as Hi.
    destruct (py_index_in_range l (Z.of_nat i)) as (b & Hb & ->); [lia|].
    rewrite Nat2Z.id in Hb. congruence.
Qed.

Lemma py_index_nat_total {A : Type} (l : list A) (i : nat) :
  (i < length l)%nat → ∃ a, l !! i = Some a ∧ py_index l (Z.of_nat i) = Ok a.
Proof.
  intros Hi. destruct (lookup_lt_is_Some_2 l i Hi) as [a Ha]. exists a.
  split; [done|]. by apply py_index_nat.
Qed.

Lemma accepts_true (new_positions : list (vec Qc)) (found : list bool)
    (i j : nat) :
  accepts' new_positions found i j = Ok true →
  found !! j = Some false ∧ fits new_positions i j.
Proof.
  unfold accepts.
  destruct (py_index found (Z.of_nat j)) as [fj|e] eqn:Hfj; [|done].
  cbn [mbind res_bind]. destruct fj; [done|].
  destruct (py_index numbers (Z.of_nat i)) as [ni|e] eqn:Hni; [|done].
  cbn [mbind res_bind].
  destruct (py_index numbers (Z.of_nat j)) as [nj|e] eqn:Hnj; [|done].
  cbn [mbind res_bind]. case_decide as Hne; [done|].
  destruct (py_index new_positions (Z.of_nat i)) as [x|e] eqn:Hx; [|done].
  cbn [mbind res_bind].
  destruct (py_index positions (Z.of_nat j)) as [y|e] eqn:Hy; [|done].
  cbn [mbind res_bind]. intros [= Hov].
  apply py_index_nat in Hfj, Hni, Hnj, Hx, Hy.
  split; [done|]. exists x, y. repeat (split; [done|]).
  split; [|done]. rewrite Hni, Hnj. f_equal.
  destruct (decide (ni = nj)); [done|]. by destruct Hne.
Qed.

Lemma accepts_total (new_positions : list (vec Qc)) (found : list bool)
    (i j : nat) :
  (length positions ≤ length numbers)%nat →
  length new_positions = length positions →
  length found = length positions →
  (i < length positions)%nat → (j < length positions)%nat →
  ∃ b, accepts' new_positions found i j = Ok b.
Proof.
  intros Hnum Hnew Hfound Hi Hj. unfold accepts.
  destruct (py_index_nat_total found j) as (fj & _ & ->); [lia|].
  cbn [mbind res_bind]. destruct fj; [by eexists|].
  destruct (py_index_nat_total numbers i) as (ni & _ & ->); [lia|].
  destruct (py_index_nat_total numbers j) as (nj & _ & ->); [lia|].
  cbn [mbind res_bind]. case_decide; [by eexists|].
  destruct (py_index_nat_total new_positions i) as (x & _ & ->); [lia|].
  destruct (py_index_nat_total positions j) as (y & _ & ->); [lia|].
  cbn [mbind res_bind]. by eexists.
Qed.

Lemma first_target_some (new_positions : list (vec Qc)) (found : list bool)
    (i : nat) (js : list nat) (j : nat) :
  first_target' new_positions found i js = Ok (Some j) →
  j ∈ js ∧ accepts' new_positions found i j = Ok true.
Proof.
  induction js as [|j0 js IH]; cbn [first_target]; [done|].
  destruct (accepts' new_positions found i j0) as [[|]|e] eqn:Hacc; [| |done];
    cbn [mbind res_bind].
  - intros [= <-]. split; [by left|done].
  - intros [Hin ?]%IH. split; [by right|done].
Qed.

Lemma first_target_total (new_positions : list (vec Qc)) (found : list bool)
    (i : nat) (js : list nat) :
  (length positions ≤ length numbers)%nat →
  length new_positions = length positions →
  length found = length positions →
  (i < length positions)%nat →
  Forall (λ j, j < length positions)%nat js →
  ∃ o, first_target' new_positions found i js = Ok o.
Proof.
  intros Hnum Hnew Hfound Hi. induction 1 as [|j js Hj _ [o Ho]];
    cbn [first_target]; [by eexists|].
  destruct (accepts_total new_positions found i j) as [b ->]; try done.
  cbn [mbind res_bind]. destruct b; by eexists.
Qed.

Lemma assign_sites_matched (new_positions : list (vec Qc)) (sites : list nat)
    (perm perm' : list Z) (found found' : list bool) :
  length new_positions = length positions →
  assign_sites' new_positions (length positions) sites perm found
  = Ok (perm', found') →
  matched new_positions perm found →
  matched new_positions perm' found'.
Proof.
  intros Hnew. revert perm found.
  induction sites as [|i sites IH]; intros perm found; cbn [assign_sites].
  - by intros [= <- <-].
  - destruct (first_target' new_positions found i _) as [[j|]|e] eqn:Hft;
      [| |done]; cbn [mbind res_bind]; [|by apply IH].
    intros Hrun (Hlp & Hlf & Hgood & Hinj). apply (IH _ _ Hrun).
    apply first_target_some in Hft as [_ [Hfj Hfit]%accepts_true].
    assert (i < length perm)%nat as Hi.
    { destruct Hfit as (x & y & Hx & _). apply lookup_lt_Some in Hx. lia. }
    assert (j < length found)%nat as Hj by (by eapply lookup_lt_Some).
    split; [by rewrite length_insert|]. split; [by rewrite length_insert|].
    split.
    + intros i' k Hk. destruct (decide (i' = i)) as [->|Hne].
      * rewrite list_lookup_insert_eq in Hk by done. simplify_eq. right.
        exists j. split; [done|]. split; [|done].
        by apply list_lookup_insert_eq.
      * rewrite list_lookup_insert_ne in Hk by done.
        destruct (Hgood i' k Hk) as [?|(j' & -> & Hfj' & ?)]; [by left|].
        right. exists j'. split; [done|]. split; [|done].
        destruct (decide (j' = j)) as [->|?]; [congruence|].
        by rewrite list_lookup_insert_ne.
    + assert (∀ i', i' ≠ i → perm !! i' ≠ Some (Z.of_nat j)) as Hfresh.
      { intros i' _ Hk.
        destruct (Hgood i' _ Hk) as [?|(j' & Hjj & Hfj' & _)]; [lia|].
        apply Nat2Z.inj in Hjj. subst j'. congruence. }
      intros i1 i2 k H1 H2 Hk.
      destruct (decide (i1 = i)) as [->|Hn1], (decide (i2 = i)) as [->|Hn2];
        try done.
      * rewrite list_lookup_insert_eq in H1 by done.
        rewrite list_lookup_insert_ne in H2 by done. simplify_eq.
        by destruct (Hfresh i2 Hn2).
      * rewrite list_lookup_insert_ne in H1 by done.
        rewrite list_lookup_insert_eq in H2 by done. simplify_eq.
        by destruct (Hfresh i1 Hn1).
      * rewrite list_lookup_insert_ne in H1, H2 by done. by eapply Hinj.
Qed.

Lemma assign_sites_total (new_positions : list (vec Qc)) (sites : list nat)
    (perm : list Z) (found : list bool) :
  (length positions ≤ length numbers)%nat →
  length new_positions = length positions →
  length found = length positions →
  Forall (λ i, i < length positions)%nat sites →
  ∃ pf, assign_sites' new_positions (length positions) sites perm found
        = Ok pf.
Proof.
  intros Hnum Hnew Hfound Hsites. revert perm found Hfound.
  induction Hsites as [|i sites Hi _ IH]; intros perm found Hfound;
    cbn [assign_sites]; [by eexists|].
  destruct (first_target_total new_positions found i
              (seq 0 (length positions))) as [o ->]; try done.
  { apply Forall_forall. intros j Hj%elem_of_seq. lia. }
  cbn [mbind res_bind]. destruct o as [j|]; apply IH; [|done].
  by rewrite length_insert.
Qed.

Lemma site_assignment_matching (rot : mat Z) (trans : vec Qc) (perm : list Z) :
  site_assignment' rot trans = Ok perm →
  site_matching lattice positions numbers symprec (rot, trans) perm.
Proof.
  unfold site_assignment.
  destruct (assign_sites' _ _ _ _ _) as [[perm' found']|e] eqn:Hrun; [|done].
  cbn [mbind res_bind]. intros [= <-]. cbn [fst].
  apply assign_sites_matched in Hrun as (Hlp & _ & Hgood & Hinj).
  - split; [done|]. split; [|done]. intros i k Hk.
    destruct (Hgood i k Hk) as [?|(j & -> & _ & x & y & ? & ? & ? & ?)];
      [by left|].
    right. by exists j, x, y.
  - unfold transform_positions. by rewrite length_fmap.
  - split; [by rewrite length_replicate|].
    split; [by rewrite length_replicate|]. split.
    + intros i k [-> _]%lookup_replicate. by left.
    + intros i i' k [-> _]%lookup_replicate. done.
Qed.

Lemma site_assignment_total (rot : mat Z) (trans : vec Qc) :
  (length positions ≤ length numbers)%nat →
  ∃ perm, site_assignment' rot trans = Ok perm.
Proof.
  intros Hnum. unfold site_assignment.
  destruct (assign_sites_total (transform_positions positions rot trans)
              (seq 0 (length positions))
              (replicate (length positions) (-1)%Z)
              (replicate (length positions) false)) as [pf ->]; try done.
  - unfold transform_positions. by rewrite length_fmap.
  - by rewrite length_replicate.
  - apply Forall_forall. intros j Hj%elem_of_seq. lia.
  - cbn [mbind res_bind]. by eexists.
Qed.

Lemma collect_permutations_spec (ops : list (mat Z * vec Qc))
    (acc result : list Permutation) :
  collect_permutations lattice positions numbers symprec ops acc = Ok result →
  ∃ perms,
    result = acc ++ perms
    ∧ Forall2 (λ op p, site_assignment' op.1 op.2 = Ok (permutation p))
              ops perms.
Proof.
  revert acc. induction ops as [|[rot trans] ops IH]; intros acc;
    cbn [collect_permutations].
  - intros [= <-]. exists []. split; [by rewrite app_nil_r|constructor].
  - destruct (site_assignment' rot trans) as [perm|e] eqn:Hperm; [|done].
    cbn [mbind res_bind np_all py_list_ne_int].
    intros (perms & -> & Hall)%IH. exists (mkPermutation perm :: perms).
    split; [by rewrite <- (assoc_L (++))|]. by constructor.
Qed.

Lemma collect_permutations_total (ops : list (mat Z * vec Qc))
    (acc : list Permutation) :
  (length positions ≤ length numbers)%nat →
  ∃ result,
    collect_permutations lattice positions numbers symprec ops acc = Ok result.
Proof.
  intros Hnum. revert acc. induction ops as [|[rot trans] ops IH]; intros acc;
    cbn [collect_permutations]; [by eexists|].
  destruct (site_assignment_total rot trans Hnum) as [perm ->].
  cbn [mbind res_bind np_all py_list_ne_int]. apply IH.
Qed.

End matching_facts.

Lemma get_symmetry_permutations_sites (lattice : mat Qc)
    (positions : list (vec Qc)) (numbers : list Z) (rotations : list (mat Z))
    (translations : list (vec Qc)) (symprec : Qc)
    (permutations : list Permutation) :
  get_symmetry_permutations lattice positions numbers rotations translations
                            symprec = Ok permutations →
  Forall (λ p, length (permutation p) = length positions) permutations.
Proof.
  unfold get_symmetry_permutations.
  intros (perms & -> & Hall)%collect_permutations_spec. simpl.
  apply Forall_forall. intros p Hp.
  apply list_elem_of_lookup in Hp as [i Hi].
  destruct (Forall2_lookup_r _ _ _ _ _ Hall Hi) as ([rot trans] & _ & Hop).
  by destruct (site_assignment_matching _ _ _ _ _ _ _ Hop) as [Hlen _].
Qed.

(** X6: when [numbers] has an entry for every site, a call of
    [get_symmetry_permutations] raises no exception, and it returns exactly
    one permutation for every (rotation, translation) pair it was given,
    matched or not. *)
Theorem get_symmetry_permutations_returns (lattice : mat Qc)
    (positions : list (vec Qc)) (numbers : list Z) (rotations : list (mat Z))
    (translations : list (vec Qc)) (symprec : Qc) :
  (length positions ≤ length numbers)%nat →
  ∃ permutations,
    get_symmetry_permutations lattice positions numbers rotations translations
                              symprec = Ok permutations
    ∧ length permutations
      = Nat.min (length rotations) (length translations).
Proof.
  intros Hnum. unfold get_symmetry_permutations.
  destruct (collect_permutations_total lattice positions numbers symprec
              (zip rotations translations) [] Hnum) as [result Hrun].
  exists result. split; [done|].
  apply collect_permutations_length in Hrun. rewrite Hrun. simpl.
  by rewrite length_zip.
Qed.

Lemma get_symmetry_permutations_returns_witness :
  ∃ permutations,
    get_symmetry_permutations eyeQ [zero3] [1%Z] [eyeZ; eyeZ] [zero3]
                              (Q2Qc (1 # 10)) = Ok permutations
    ∧ length permutations = Nat.min 2 1.
Proof.
  apply (get_symmetry_permutations_returns eyeQ [zero3] [1%Z] [eyeZ; eyeZ]
           [zero3] (Q2Qc (1 # 10))).
  simpl. lia.
Defined.

(** X7: every permutation returned by [get_symmetry_permutations] belongs
    to the operation at its position and has one entry per site; an entry
    other than -1 is a site of the same species that the transformed site
    overlaps within the tolerance, and no site is the target of two
    sites. *)
Theorem get_symmetry_permutations_matching (lattice : mat Qc)
    (positions : list (vec Qc)) (numbers : list Z) (rotations : list (mat Z))
    (translations : list (vec Qc)) (symprec : Qc)
    (permutations : list Permutation) :
  get_symmetry_permutations lattice positions numbers rotations translations
                            symprec = Ok permutations →
  Forall2 (λ op p, site_matching lattice positions numbers symprec op
                                 (permutation p))
          (zip rotations translations) permutations.
Proof.
  unfold get_symmetry_permutations.
  intros (perms & -> & Hall)%collect_permutations_spec. simpl.
  eapply Forall2_impl; [exact Hall|]. intros [rot trans] p Hp.
  by apply site_assignment_matching.
Qed.

Lemma get_symmetry_permutations_matching_witness :
  Forall2 (λ op p, site_matching eyeQ [zero3; (Q2Qc (1 # 2), ZQ 0, ZQ 0)]
                                 [1%Z; 1%Z] (Q2Qc (1 # 10)) op (permutation p))
          (zip [eyeZ] [(Q2Qc (1 # 2), ZQ 0, ZQ 0)])
          [mkPermutation [1; 0]%Z].
Proof.
  apply (get_symmetry_permutations_matching eyeQ
           [zero3; (Q2Qc (1 # 2), ZQ 0, ZQ 0)] [1%Z; 1%Z] [eyeZ]
           [(Q2Qc (1 # 2), ZQ 0, ZQ 0)] (Q2Qc (1 # 10))).
  vm_compute. reflexivity.
Defined.

(** ** Lattice translations and tolerances *)

Section translation_facts.
Local Open Scope Qc_scope.
Variables (lattice : mat Qc) (positions : list (vec Qc)) (numbers : list Z).
Variable symprec : Qc.

Local Abbreviation accepts' := (accepts lattice positions numbers symprec).
Local Abbreviation first_target' :=
  (first_target lattice positions numbers symprec).
Local Abbreviation assign_sites' :=
  (assign_sites lattice positions numbers symprec).
Local Abbreviation site_assignment' :=
  (site_assignment lattice positions numbers symprec).
Local Abbreviation diagonal := (diagonal positions).

Lemma is_overlap_nonpositive (frac_coords : vec Qc) :
  symprec ≤ 0 → is_overlap lattice frac_coords symprec = false.
Proof.
  intros Hle. unfold is_overlap, norm_lt, sqrt_lt.
  rewrite (bool_decide_eq_false_2 (0 < symprec)); [done|].
  by apply Qcle_not_lt.
Qed.

Lemma is_overlap_integer (t : vec Z) :
  0 < symprec → is_overlap lattice (vec_map ZQ t) symprec = true.
Proof.
  intros Hpos. unfold is_overlap, norm_lt, sqrt_lt.
  rewrite (bool_decide_eq_true_2 (0 < symprec)) by done. cbn [andb].
  apply bool_decide_eq_true_2.
  destruct t as [[a b] c]. destruct_mat lattice.
  cbn [vec_map vec_sub vec_zip]. unfold np_rint. rewrite !rint_ZQ.
  replace (ZQ a - ZQ a) with 0 by ring.
  replace (ZQ b - ZQ b) with 0 by ring.
  replace (ZQ c - ZQ c) with 0 by ring.
  cbn [transpose mat_vec dotQ sqnorm].
  match goal with |- ?s < _ => replace s with 0 by ring end.
  by apply Qcmult_pos_pos.
Qed.

Lemma translated_difference (p : vec Qc) (t : vec Z) :
  vec_sub (vec_add (mat_vec (mat_map ZQ eyeZ) p) (vec_map ZQ t)) p
  = vec_map ZQ t.
Proof.
  destruct p as [[x y] z], t as [[a b] c].
  cbn [mat_map vec_map eyeZ mat_vec dotQ vec_add vec_sub vec_zip].
  change (ZQ 1) with 1. change (ZQ 0) with 0. tuple_eq; ring.
Qed.

Lemma first_target_diagonal (t : vec Z) (found : list bool) (i : nat)
    (js : list nat) (lo : nat) :
  0 < symprec →
  (length positions ≤ length numbers)%nat →
  length found = length positions →
  (i < length positions)%nat →
  (∀ k, (k < i)%nat → found !! k = Some true) →
  found !! i = Some false →
  (lo ≤ i)%nat →
  first_target' (transform_positions positions eyeZ (vec_map ZQ t)) found i
                (seq lo (S i - lo) ++ js)
  = Ok (Some i).
Proof.
  intros Hpos Hnum Hfound Hi Hbefore Hat Hlo.
  remember (i - lo)%nat as m eqn:Hm. revert lo Hlo Hm.
  induction m as [|m IH]; intros lo Hlo Hm.
  - assert (lo = i) as -> by lia. replace (S i - i)%nat with 1%nat by lia.
    cbn [seq app first_target]. unfold accepts.
    rewrite (proj2 (py_index_nat found i false) Hat). cbn [mbind res_bind].
    destruct (py_index_nat_total numbers i) as (ni & _ & ->); [lia|].
    cbn [mbind res_bind]. rewrite decide_False by (intros Hne; by apply Hne).
    destruct (py_index_nat_total positions i) as (p & Hp & Hpy); [lia|].
    rewrite (proj2 (py_index_nat
                      (transform_positions positions eyeZ (vec_map ZQ t)) i
                      (vec_add (mat_vec (mat_map ZQ eyeZ) p) (vec_map ZQ t)))).
    2:{ unfold transform_positions. by rewrite list_lookup_fmap, Hp. }
    rewrite Hpy. cbn [mbind res_bind].
    by rewrite translated_difference, is_overlap_integer.
  - replace (S i - lo)%nat with (S (S i - S lo)) by lia.
    cbn [seq app first_target]. unfold accepts at 1.
    rewrite (proj2 (py_index_nat found lo true)) by (apply Hbefore; lia).
    cbn [mbind res_bind]. apply IH; lia.
Qed.

Lemma assign_sites_diagonal (t : vec Z) (m i : nat) (perm : list Z)
    (found : list bool) :
  0 < symprec →
  (length positions ≤ length numbers)%nat →
  (i + m = length positions)%nat →
  diagonal i perm found →
  ∃ perm' found',
    assign_sites' (transform_positions positions eyeZ (vec_map ZQ t))
                  (length positions) (seq i m) perm found
    = Ok (perm', found')
    ∧ diagonal (length positions) perm' found'.
Proof.
  intros Hpos Hnum. revert i perm found.
  induction m as [|m IH]; intros i perm found Him Hd.
  - cbn [seq assign_sites]. exists perm, found. split; [done|].
    by replace (length positions) with i by lia.
  - cbn [seq assign_sites].
    destruct Hd as (Hlp & Hlf & Hlow & Hhigh).
    assert (first_target' (transform_positions positions eyeZ (vec_map ZQ t))
              found i (seq 0 (length positions)) = Ok (Some i)) as ->.
    { replace (seq 0 (length positions))
        with (seq 0 (S i - 0) ++ seq (S i) m).
      2:{ rewrite Nat.sub_0_r, <- seq_app. f_equal. lia. }
      apply first_target_diagonal; try done; try lia.
      - intros k Hk. by apply Hlow.
      - apply Hhigh. lia. }
    cbn [mbind res_bind]. apply IH; [lia|].
    split; [by rewrite length_insert|]. split; [by rewrite length_insert|].
    split.
    + intros k Hk. destruct (decide (k = i)) as [->|Hne].
      * split; apply list_lookup_insert_eq; lia.
      * rewrite !list_lookup_insert_ne by done. apply Hlow. lia.
    + intros k Hk. rewrite !list_lookup_insert_ne by lia. apply Hhigh. lia.
Qed.

Lemma site_assignment_translation (t : vec Z) :
  0 < symprec →
  (length positions ≤ length numbers)%nat →
  site_assignment' eyeZ (vec_map ZQ t)
  = Ok (seqZ 0 (Z.of_nat (length positions))).
Proof.
  intros Hpos Hnum. unfold site_assignment.
  destruct (assign_sites_diagonal t (length positions) 0
              (replicate (length positions) (-1)%Z)
              (replicate (length positions) false) Hpos Hnum)
    as (perm & found & -> & Hlp & _ & Hlow & _); [done| |].
  { split; [by rewrite length_replicate|].
    split; [by rewrite length_replicate|]. split; [intros k Hk; lia|].
    intros k Hk. rewrite !lookup_replicate. split; split; (done || lia). }
  cbn [mbind res_bind fst]. f_equal. apply list_eq. intros k.
  destruct (decide (k < length positions)%nat) as [Hk|Hk].
  - rewrite (proj1 (Hlow k Hk)). symmetry. by apply seqZ_lookup_nat.
  - rewrite !lookup_ge_None_2; [done| |lia]. rewrite length_seqZ. lia.
Qed.

Lemma first_target_nonpositive (new_positions : list (vec Qc))
    (found : list bool) (i : nat) (js : list nat) :
  symprec ≤ 0 →
  (length positions ≤ length numbers)%nat →
  length new_positions = length positions →
  length found = length positions →
  (i < length positions)%nat →
  Forall (λ j, j < length positions)%nat js →
  first_target' new_positions found i js = Ok None.
Proof.
  intros Hle Hnum Hnew Hfound Hi. induction 1 as [|j js Hj _ IH];
    cbn [first_target]; [done|].
  unfold accepts at 1.
  destruct (py_index_nat_total found j) as (fj & _ & ->); [lia|].
  cbn [mbind res_bind]. destruct fj; cbn [mbind res_bind]; [done|].
  destruct (py_index_nat_total numbers i) as (ni & _ & ->); [lia|].
  destruct (py_index_nat_total numbers j) as (nj & _ & ->); [lia|].
  cbn [mbind res_bind]. case_decide; cbn [mbind res_bind]; [done|].
  destruct (py_index_nat_total new_positions i) as (x & _ & ->); [lia|].
  destruct (py_index_nat_total positions j) as (y & _ & ->); [lia|].
  cbn [mbind res_bind]. by rewrite is_overlap_nonpositive.
Qed.

Lemma site_assignment_nonpositive (rot : mat Z) (trans : vec Qc) :
  symprec ≤ 0 →
  (length positions ≤ length numbers)%nat →
  site_assignment' rot trans = Ok (replicate (length positions) (-1)%Z).
Proof.
  intros Hle Hnum. unfold site_assignment.
  assert (∀ sites perm found,
            length found = length positions →
            Forall (λ i, i < length positions)%nat sites →
            assign_sites' (transform_positions positions rot trans)
                          (length positions) sites perm found
            = Ok (perm, found)) as Hloop.
  { intros sites perm found Hfound. induction 1 as [|i sites Hi _ IH];
      cbn [assign_sites]; [done|].
    rewrite first_target_nonpositive; try done.
    - unfold transform_positions. by rewrite length_fmap.
    - apply Forall_forall. intros j Hj%elem_of_seq. lia. }
  rewrite Hloop; [done|by rewrite length_replicate|].
  apply Forall_forall. intros j Hj%elem_of_seq. lia.
Qed.

End translation_facts.

Lemma collect_permutations_constant (lattice : mat Qc)
    (positions : list (vec Qc)) (numbers : list Z) (symprec : Qc)
    (perm : list Z) (ops : list (mat Z * vec Qc)) (acc : list Permutation) :
  Forall (λ op, site_assignment lattice positions numbers symprec op.1 op.2
                = Ok perm) ops →
  collect_permutations lattice positions numbers symprec ops acc
  = Ok (acc ++ replicate (length ops) (mkPermutation perm)).
Proof.
  intros Hall. revert acc. induction Hall as [|[rot trans] ops Hop _ IH];
    intros acc; cbn [collect_permutations].
  - by rewrite app_nil_r.
  - cbn [fst snd] in Hop. rewrite Hop.
    cbn [mbind res_bind np_all py_list_ne_int length replicate].
    rewrite IH. by rewrite <- (assoc_L (++)).
Qed.

(** X8: with a positive tolerance and a species for every site, pure
    lattice translations (identity rotation, integer translation vector)
    leave every site in place: each of them yields the identity
    permutation [0, 1, ..., n-1], whatever the positions are. *)
Theorem lattice_translations_fix_sites (lattice : mat Qc)
    (positions : list (vec Qc)) (numbers : list Z) (ts : list (vec Z))
    (symprec : Qc) :
  (0 < symprec)%Qc →
  (length positions ≤ length numbers)%nat →
  get_symmetry_permutations lattice positions numbers
    (replicate (length ts) eyeZ) (vec_map ZQ <$> ts) symprec
  = Ok (replicate (length ts) (identity_permutation (length positions))).
Proof.
  intros Hpos Hnum. unfold get_symmetry_permutations.
  rewrite (collect_permutations_constant _ _ _ _
             (seqZ 0 (Z.of_nat (length positions)))).
  - simpl. by rewrite length_zip, length_replicate, length_fmap, Nat.min_id.
  - apply Forall_forall. intros [rot trans] Hin.
    pose proof (elem_of_zip_l _ _ _ _ Hin) as Hrot.
    pose proof (elem_of_zip_r _ _ _ _ Hin) as Htrans.
    apply elem_of_replicate in Hrot as [-> _].
    apply list_elem_of_fmap in Htrans as (t & -> & _).
    by apply site_assignment_translation.
Qed.

Lemma lattice_translations_fix_sites_witness :
  get_symmetry_permutations eyeQ [zero3; (Q2Qc (1 # 3), ZQ 0, ZQ 0)]
    [1%Z; 2%Z] (replicate 2 eyeZ)
    (vec_map ZQ <$> [(0, 0, 0)%Z; (1, -2, 0)%Z]) (Q2Qc (1 # 10))
  = Ok (replicate 2 (identity_permutation 2)).
Proof.
  apply (lattice_translations_fix_sites eyeQ
           [zero3; (Q2Qc (1 # 3), ZQ 0, ZQ 0)] [1%Z; 2%Z]
           [(0, 0, 0)%Z; (1, -2, 0)%Z] (Q2Qc (1 # 10))).
  - reflexivity.
  - simpl. lia.
Defined.

(** X9: with a tolerance that is not positive nothing overlaps: every
    operation yields the permutation whose entries are all -1, and the call
    still returns one such permutation per operation. *)
Theorem nonpositive_tolerance_matches_nothing (lattice : mat Qc)
    (positions : list (vec Qc)) (numbers : list Z) (rotations : list (mat Z))
    (translations : list (vec Qc)) (symprec : Qc) :
  (symprec ≤ 0)%Qc →
  (length positions ≤ length numbers)%nat →
  get_symmetry_permutations lattice positions numbers rotations translations
                            symprec
  = Ok (replicate (length (zip rotations translations))
                  (mkPermutation (replicate (length positions) (-1)%Z))).
Proof.
  intros Hle Hnum. unfold get_symmetry_permutations.
  rewrite (collect_permutations_constant _ _ _ _
             (replicate (length positions) (-1)%Z)); [done|].
  apply Forall_forall. intros [rot trans] _.
  by apply site_assignment_nonpositive.
Qed.

Lemma nonpositive_tolerance_matches_nothing_witness :
  get_symmetry_permutations eyeQ [zero3] [1%Z] [eyeZ] [zero3] (ZQ 0)
  = Ok (replicate (length (zip [eyeZ] [zero3]))
                  (mkPermutation (replicate (length [zero3]) (-1)%Z))).
Proof.
  apply (nonpositive_tolerance_matches_nothing eyeQ [zero3] [1%Z] [eyeZ]
           [zero3] (ZQ 0)).
  - by vm_compute.
  - simpl. lia.
Defined.

(** ** The assembler: errors, the spin-translation coset, the new cell *)

Section assembler_extra.
Local Open Scope Qc_scope.
Variable column_style_hermite_normal_form : list (vec Qc) → list (vec Qc).
Variable SpinOnlyGroup : Type.
Variable get_spin_only_group : list (vec Qc) → Qc → SpinOnlyGroup.
Variable contain : SpinOnlyGroup → mat Qc → bool.
Variable solve_procrustes : list (vec Qc) → list (vec Qc) → mat Qc.

Local Abbreviation run :=
  (get_primitive_spin_symmetry column_style_hermite_normal_form SpinOnlyGroup
     get_spin_only_group contain solve_procrustes).

Lemma nothing_retained (nonmagnetic_symmetry : NonmagneticSymmetry)
    (magmoms : list (vec Qc)) (mag_symprec : Qc) :
  retain_centerings magmoms mag_symprec
    (zip (prim_centerings nonmagnetic_symmetry)
         (prim_centering_permutations nonmagnetic_symmetry)) = Ok [] →
  run nonmagnetic_symmetry magmoms mag_symprec = Raise ValueError.
Proof.
  intros HA. unfold get_primitive_spin_symmetry. rewrite HA. reflexivity.
Qed.

Lemma moments_invariant_nonpositive (magmoms : list (vec Qc))
    (perm : Permutation) (mag_symprec : Qc) :
  magmoms ≠ [] →
  valid_permutation (length magmoms) perm →
  mag_symprec ≤ 0 →
  moments_invariant magmoms perm mag_symprec = Ok false.
Proof.
  intros Hne Hvalid Hle.
  destruct (moments_invariant_sites magmoms perm mag_symprec Hne Hvalid)
    as (b & -> & Hb).
  destruct b; [|done]. exfalso.
  destruct (proj1 Hb eq_refl 0%nat) as (k & m & m' & _ & _ & _ & Hlt).
  { destruct magmoms; simpl; [done|lia]. }
  unfold norm_lt, sqrt_lt in Hlt.
  rewrite (bool_decide_eq_false_2 (0 < mag_symprec)) in Hlt; [done|].
  by apply Qcle_not_lt.
Qed.

Lemma retain_nothing_nonpositive (magmoms : list (vec Qc)) (mag_symprec : Qc)
    (cps : list (vec Qc * Permutation)) :
  magmoms ≠ [] →
  Forall (λ cp : vec Qc * Permutation,
            valid_permutation (length magmoms) cp.2) cps →
  mag_symprec ≤ 0 →
  filter (λ cp, moments_invariant magmoms cp.2 mag_symprec = Ok true) cps
  = [].
Proof.
  intros Hne Hvalid Hle. induction Hvalid as [|cp cps Hcp _ IH]; [done|].
  rewrite filter_cons, decide_False; [done|].
  by rewrite (moments_invariant_nonpositive magmoms cp.2 mag_symprec Hne
                Hcp Hle).
Qed.

(** X10: with a magnetic tolerance that is not positive no centering is
    retained, not even the zero translation, and the assembly stops with
    the [ValueError] of the concatenation with an empty array. *)
Theorem nonpositive_tolerance_raises
    (nonmagnetic_symmetry : NonmagneticSymmetry) (magmoms : list (vec Qc))
    (mag_symprec : Qc) :
  magmoms ≠ [] →
  Forall (λ cp : vec Qc * Permutation,
            valid_permutation (length magmoms) cp.2)
         (zip (prim_centerings nonmagnetic_symmetry)
              (prim_centering_permutations nonmagnetic_symmetry)) →
  mag_symprec ≤ 0 →
  run nonmagnetic_symmetry magmoms mag_symprec = Raise ValueError.
Proof.
  intros Hne Hvalid Hle. apply nothing_retained.
  destruct (retain_centerings_total magmoms mag_symprec _ Hne Hvalid)
    as [retained Hrun].
  rewrite Hrun. f_equal.
  rewrite (retain_centerings_filter _ _ _ _ Hrun).
  by apply retain_nothing_nonpositive.
Qed.

Lemma reduce_centering_translation (tmat_stg tmatinv_stg : mat Qc)
    (centering : vec Qc) :
  reduce_centering tmat_stg tmatinv_stg centering
  = reduce_translation tmat_stg (mat_vec tmatinv_stg centering).
Proof. reflexivity. Qed.

Lemma spin_translation_search_distinct (tmat_stg tmatinv_stg : mat Qc)
    (sog : SpinOnlyGroup) (magmoms : list (vec Qc)) (mag_symprec : Qc)
    (cps : list (vec Qc * Permutation)) (found : gset (vec Z))
    (acc coset : list SpinSymmetryOperation) :
  spin_translation_search SpinOnlyGroup contain solve_procrustes
    tmat_stg tmatinv_stg sog magmoms mag_symprec cps found acc = Ok coset →
  (∀ op, op ∈ acc → reduce_translation tmat_stg (translation op) ∈ found) →
  NoDup ((λ op, reduce_translation tmat_stg (translation op)) <$> acc) →
  NoDup ((λ op, reduce_translation tmat_stg (translation op)) <$> coset).
Proof.
  revert found acc. induction cps as [|[c p] cps IH]; intros found acc;
    cbn [spin_translation_search].
  - by intros [= <-].
  - case_decide as Hfound; [by apply IH|].
    destruct (fit_spin_rotation _ _ _ sog magmoms p mag_symprec) as [o|e];
      [|done]. cbn [mbind res_bind]. intros Hrun Hin Hnd.
    apply (IH _ _ Hrun).
    + intros op Hop. destruct o as [W|].
      * apply elem_of_app in Hop as [Hop|Hop].
        -- apply elem_of_union_r. by apply Hin.
        -- apply list_elem_of_singleton in Hop. subst op.
           apply elem_of_union_l, elem_of_singleton. reflexivity.
      * apply elem_of_union_r. by apply Hin.
    + destruct o as [W|]; [|done]. rewrite fmap_app. apply NoDup_app.
      split; [done|]. split; [|apply NoDup_singleton].
      intros x Hx Hx'. apply list_elem_of_singleton in Hx'. subst x.
      apply list_elem_of_fmap in Hx as (op & Hop & Hacc).
      apply Hfound. rewrite reduce_centering_translation.
      cbn [translation] in Hop. rewrite Hop. by apply Hin.
Qed.

(** X11: in a call that returns, with [T] the leading block of the
    Hermite normal form of the run and [Tinv] its inverse, every operation
    of the spin-translation coset has the identity rotation and the
    translation [Tinv @ centering] of a centering of the input, so that
    its key in [found_stg_centerings] is the reduction of its translation;
    these keys are pairwise distinct, and so are the translation parts. *)
Theorem spin_translation_coset_distinct
    (nonmagnetic_symmetry : NonmagneticSymmetry) (magmoms : list (vec Qc))
    (mag_symprec : Qc) (ssg : SpinSpaceGroup SpinOnlyGroup) :
  run nonmagnetic_symmetry magmoms mag_symprec = Ok ssg →
  ∃ retained vectors tmat_stg tmatinv_stg,
    retain_centerings magmoms mag_symprec
      (zip (prim_centerings nonmagnetic_symmetry)
           (prim_centering_permutations nonmagnetic_symmetry)) = Ok retained
    ∧ stg_vectors (transformation nonmagnetic_symmetry) retained.*1
      = Ok vectors
    ∧ leading_columns (column_style_hermite_normal_form vectors) = Ok tmat_stg
    ∧ np_linalg_inv tmat_stg = Ok tmatinv_stg
    ∧ Forall (λ op,
                rotation op = eyeQ
                ∧ ∃ centering,
                    centering ∈ prim_centerings nonmagnetic_symmetry
                    ∧ translation op = mat_vec tmatinv_stg centering
                    ∧ reduce_translation tmat_stg (translation op)
                      = reduce_centering tmat_stg tmatinv_stg centering)
             (spin_translation_coset ssg)
    ∧ NoDup ((λ op, reduce_translation tmat_stg (translation op))
               <$> spin_translation_coset ssg)
    ∧ NoDup (translation <$> spin_translation_coset ssg).
Proof.
  intros Hrun.
  apply get_primitive_spin_symmetry_inv in Hrun
    as (retained & vectors & T & Tinv & HA & Hvec & Hlead & Hinv & _ & _
        & HD & _).
  exists retained, vectors, T, Tinv. repeat (split; [done|]).
  assert (NoDup ((λ op, reduce_translation T (translation op))
                   <$> spin_translation_coset ssg)) as Hnd.
  { eapply spin_translation_search_distinct; [exact HD| |constructor].
    intros op Hop. by apply elem_of_nil in Hop. }
  split; [|split; [done|]].
  - apply Forall_forall. intros op Hop.
    destruct (spin_translation_search_stored _ _ _ _ _ _ _ _ _ _ _ _ HD op Hop)
      as [Hnil|(c & p & Hin & Hrot & Htrans & _)];
      [by apply elem_of_nil in Hnil|].
    split; [done|]. exists c. split; [by eapply elem_of_zip_l|].
    split; [done|]. by rewrite Htrans, reduce_centering_translation.
  - rewrite (list_fmap_compose translation (reduce_translation T)) in Hnd.
    by apply NoDup_fmap_1 in Hnd.
Qed.

(** X12: the cell of a returned spin space group describes the input
    cell: its lattice is the old primitive lattice times [T], its lattice
    times its transformation is the old primitive lattice times the old
    transformation, and [T] maps its centerings back to the retained
    centerings. *)
Theorem new_cell_consistent
    (nonmagnetic_symmetry : NonmagneticSymmetry) (magmoms : list (vec Qc))
    (mag_symprec : Qc) (ssg : SpinSpaceGroup SpinOnlyGroup) :
  run nonmagnetic_symmetry magmoms mag_symprec = Ok ssg →
  ∃ retained vectors tmat_stg,
    retain_centerings magmoms mag_symprec
      (zip (prim_centerings nonmagnetic_symmetry)
           (prim_centering_permutations nonmagnetic_symmetry)) = Ok retained
    ∧ stg_vectors (transformation nonmagnetic_symmetry) retained.*1
      = Ok vectors
    ∧ leading_columns (column_style_hermite_normal_form vectors) = Ok tmat_stg
    ∧ ssg_prim_lattice ssg
      = matmul (prim_lattice nonmagnetic_symmetry) tmat_stg
    ∧ matmul (ssg_prim_lattice ssg) (ssg_transformation ssg)
      = matmul (prim_lattice nonmagnetic_symmetry)
               (mat_map ZQ (transformation nonmagnetic_symmetry))
    ∧ mat_vec tmat_stg <$> ssg_prim_centerings ssg = retained.*1.
Proof.
  unfold get_primitive_spin_symmetry.
  destruct (retain_centerings _ _ _) as [retained|e] eqn:HA; [|done].
  cbn [mbind res_bind].
  destruct (stg_vectors _ _) as [vectors|e] eqn:Hvec; [|done].
  cbn [mbind res_bind].
  destruct (leading_columns _) as [T|e] eqn:Hlead; [|done].
  cbn [mbind res_bind].
  destruct (np_linalg_inv T) as [Tinv|e] eqn:Hinv; [|done].
  cbn [mbind res_bind].
  destruct (np_isclose _ _) eqn:Hclose; cbn [negb]; [|done].
  destruct (spin_translation_search _ _ _ _ _ _ _ _ _ _ _) as [stc|e];
    [|done]. cbn [mbind res_bind].
  destruct (np_linalg_inv (matmul _ _)) as [pinv|e] eqn:Hpinv; [|done].
  cbn [mbind res_bind].
  destruct (nontrivial_search _ _ _ _ _ _ _ _ _ _ _) as [ntc|e]; [|done].
  cbn [mbind res_bind]. intros [= <-].
  exists retained, vectors, T.
  cbn [ssg_prim_lattice ssg_transformation ssg_prim_centerings].
  repeat (split; [done|]). split.
  - rewrite <- (matmul_assoc _ _ (mat_map ZQ _)), <- matmul_assoc.
    by rewrite (np_linalg_inv_r _ _ Hpinv), matmul_eye_l.
  - rewrite <- list_fmap_compose. rewrite <- (list_fmap_id retained.*1) at 2.
    apply list_fmap_ext. intros i c _. simpl.
    by rewrite <- mat_vec_matmul, (np_linalg_inv_r _ _ Hinv), mat_vec_eye.
Qed.

End assembler_extra.

Lemma nonpositive_tolerance_raises_witness :
  get_primitive_spin_symmetry unit_hnf (list (vec Qc))
    (λ magmoms _, magmoms) fixes_moments half_turn_fit
    antiferromagnet antiferromagnet_magmoms (ZQ 0)
  = Raise ValueError.
Proof.
  apply nonpositive_tolerance_raises.
  - done.
  - apply antiferromagnet_valid.
  - by vm_compute.
Defined.

Lemma spin_translation_coset_distinct_witness :
  ∃ ssg,
    get_primitive_spin_symmetry striped_hnf (list (vec Qc))
      (λ magmoms _, magmoms) fixes_moments half_turn_fit
      striped_supercell striped_magmoms (Q2Qc (1 # 100)) = Ok ssg
    ∧ translation <$> spin_translation_coset ssg
      = [zero3; (ZQ 0, Q2Qc (1 # 2), ZQ 0)]
    ∧ NoDup (translation <$> spin_translation_coset ssg)
    ∧ Forall (λ op, rotation op = eyeQ) (spin_translation_coset ssg).
Proof.
  assert (match get_primitive_spin_symmetry striped_hnf (list (vec Qc))
                  (λ magmoms _, magmoms) fixes_moments half_turn_fit
                  striped_supercell striped_magmoms (Q2Qc (1 # 100))
          with
          | Ok ssg =>
            bool_decide (translation <$> spin_translation_coset ssg
                         = [zero3; (ZQ 0, Q2Qc (1 # 2), ZQ 0)])
          | Raise _ => false
          end = true) as Hstored by (vm_compute; reflexivity).
  destruct (get_primitive_spin_symmetry striped_hnf (list (vec Qc))
              (λ magmoms _, magmoms) fixes_moments half_turn_fit
              striped_supercell striped_magmoms (Q2Qc (1 # 100)))
    as [ssg|e] eqn:Hrun; [|discriminate Hstored].
  apply bool_decide_eq_true in Hstored.
  destruct (spin_translation_coset_distinct _ _ _ _ _ _ _ _ _ Hrun)
    as (retained & vectors & T & Tinv & _ & _ & _ & _ & Hops & _ & Hnd).
  exists ssg. split; [reflexivity|]. split; [exact Hstored|].
  split; [exact Hnd|].
  eapply Forall_impl; [exact Hops|]. by intros op [Hrot _].
Defined.

Lemma new_cell_consistent_witness :
  ∃ ssg,
    get_primitive_spin_symmetry unit_hnf (list (vec Qc))
      (λ magmoms _, magmoms) fixes_moments half_turn_fit
      antiferromagnet antiferromagnet_magmoms (Q2Qc (1 # 100)) = Ok ssg
    ∧ matmul (ssg_prim_lattice ssg) (ssg_transformation ssg)
      = matmul (prim_lattice antiferromagnet)
               (mat_map ZQ (transformation antiferromagnet)).
Proof.
  destruct (get_primitive_spin_symmetry unit_hnf (list (vec Qc))
              (λ magmoms _, magmoms) fixes_moments half_turn_fit
              antiferromagnet antiferromagnet_magmoms (Q2Qc (1 # 100)))
    as [ssg|e] eqn:Hrun; [|by vm_compute in Hrun].
  destruct (new_cell_consistent _ _ _ _ _ _ _ _ _ Hrun)
    as (retained & vectors & T & _ & _ & _ & _ & Hcell & _).
  exists ssg. split; [reflexivity|]. exact Hcell.
Defined.

(** ** The closure of generators, in general *)

(** X13: a tuple returned by [traverse_spin_operations] repeats no
    element, holds every generator, lies inside every set that holds the
    generators and is closed under the product, and of any two of its
    elements it holds at least one of the two products. *)
Theorem traverse_spin_operations_sound (fuel : nat)
    (generators result : list spin_op) :
  traverse_spin_operations fuel generators = Some result →
  NoDup result
  ∧ (∀ g, g ∈ generators → g ∈ result)
  ∧ (∀ S : gset spin_op,
       closed_under spin_mul S → (∀ g, g ∈ generators → g ∈ S) →
       ∀ x, x ∈ result → x ∈ S)
  ∧ (∀ x y, x ∈ result → y ∈ result →
       spin_mul x y ∈ result ∨ spin_mul y x ∈ result).
Proof.
  unfold traverse_spin_operations.
  destruct (traverse_loop spin_mul fuel (reverse generators) ∅) as [R|] eqn:Hrun;
    [|done]. intros [= <-].
  split; [apply NoDup_elements|]. split; [|split].
  - intros g Hg. apply elem_of_elements.
    apply (traverse_loop_contains _ _ _ _ _ Hrun). by apply elem_of_reverse.
  - intros S HS Hgen x Hx%elem_of_elements.
    assert (R ⊆ S) as Hsub; [|by apply Hsub].
    eapply (traverse_loop_within spin_mul S); [done|exact Hrun|set_solver|].
    intros g Hg. apply Hgen. by apply elem_of_reverse.
  - intros x y Hx%elem_of_elements Hy%elem_of_elements.
    rewrite !elem_of_elements.
    eapply (traverse_loop_products spin_mul); [exact Hrun| |done|done].
    intros ? ? Hin. by apply not_elem_of_empty in Hin.
Qed.

Lemma traverse_spin_operations_sound_witness :
  NoDup [spin_identity]
  ∧ (∀ g, g ∈ [spin_identity] → g ∈ [spin_identity])
  ∧ (∀ S : gset spin_op,
       closed_under spin_mul S → (∀ g, g ∈ [spin_identity] → g ∈ S) →
       ∀ x, x ∈ [spin_identity] → x ∈ S)
  ∧ (∀ x y, x ∈ [spin_identity] → y ∈ [spin_identity] →
       spin_mul x y ∈ [spin_identity] ∨ spin_mul y x ∈ [spin_identity]).
Proof.
  apply (traverse_spin_operations_sound 2 [spin_identity] [spin_identity]).
  unfold traverse_spin_operations.
  change (reverse [spin_identity]) with [spin_identity].
  cbn [traverse_loop]. rewrite decide_False by set_solver.
  cbn zeta. unfold enqueue_products.
  rewrite (right_id_L ∅ (∪)), elements_singleton. cbn [foldl].
  replace (spin_mul spin_identity spin_identity) with spin_identity
    by (by vm_compute).
  rewrite decide_True by set_solver.
  simpl. by rewrite elements_singleton.
Defined.

(** X14: for generators that lie in a finite set closed under the product
    on which the product commutes, [traverse_spin_operations] returns the
    generated closure: the returned elements are closed under the product,
    and they form the least such set that holds the generators. *)
Theorem traverse_spin_operations_commuting (generators : list spin_op)
    (S : gset spin_op) :
  closed_under spin_mul S →
  (∀ g, g ∈ generators → g ∈ S) →
  (∀ x y, x ∈ S → y ∈ S → spin_mul x y = spin_mul y x) →
  ∃ fuel result,
    traverse_spin_operations fuel generators = Some result
    ∧ closed_under spin_mul (list_to_set result)
    ∧ (∀ g, g ∈ generators → g ∈ result)
    ∧ ∀ S' : gset spin_op,
        closed_under spin_mul S' → (∀ g, g ∈ generators → g ∈ S') →
        list_to_set result ⊆ S'.
Proof.
  intros HS Hgen Hcomm.
  destruct (traverse_loop_terminates spin_mul S HS (size S)
              (reverse generators) ∅) as (fuel & R & HR).
  { set_solver. }
  { intros g Hg. apply Hgen. by apply elem_of_reverse. }
  { apply subseteq_size. set_solver. }
  exists fuel, (elements R).
  split; [unfold traverse_spin_operations; by rewrite HR|].
  assert (∀ S' : gset spin_op,
            closed_under spin_mul S' → (∀ g, g ∈ generators → g ∈ S') →
            R ⊆ S') as Hmin.
  { intros S' HS' Hgen'.
    eapply (traverse_loop_within spin_mul S'); [done|exact HR|set_solver|].
    intros g Hg. apply Hgen'. by apply elem_of_reverse. }
  assert (∀ x y, x ∈ R → y ∈ R → spin_mul x y ∈ R ∨ spin_mul y x ∈ R)
    as Hpair.
  { intros x y Hx Hy.
    eapply (traverse_loop_products spin_mul); [exact HR| |done|done].
    intros ? ? Hin. by apply not_elem_of_empty in Hin. }
  split; [|split].
  - intros x y Hx Hy. rewrite elem_of_list_to_set, elem_of_elements in Hx, Hy.
    rewrite elem_of_list_to_set, elem_of_elements.
    destruct (Hpair x y Hx Hy) as [?|Hyx]; [done|].
    rewrite (Hcomm x y); [done| |]; by eapply (Hmin S).
  - intros g Hg. apply elem_of_elements.
    apply (traverse_loop_contains _ _ _ _ _ HR). by apply elem_of_reverse.
  - intros S' HS' Hgen' x Hx. rewrite elem_of_list_to_set, elem_of_elements in Hx.
    by eapply Hmin.
Qed.

Lemma traverse_spin_operations_commuting_witness :
  ∃ fuel result,
    traverse_spin_operations fuel [quarter_turn] = Some result
    ∧ closed_under spin_mul (list_to_set result)
    ∧ (∀ g, g ∈ [quarter_turn] → g ∈ result)
    ∧ ∀ S' : gset spin_op,
        closed_under spin_mul S' → (∀ g, g ∈ [quarter_turn] → g ∈ S') →
        list_to_set result ⊆ S'.
Proof.
  apply (traverse_spin_operations_commuting [quarter_turn]
           (list_to_set [quarter_turn; spin_mul quarter_turn quarter_turn;
                         spin_mul (spin_mul quarter_turn quarter_turn)
                                  quarter_turn;
                         spin_identity])).
  - intros x y Hx Hy.
    rewrite !elem_of_list_to_set, !elem_of_cons, elem_of_nil in Hx.
    rewrite !elem_of_list_to_set, !elem_of_cons, elem_of_nil in Hy.
    rewrite !elem_of_list_to_set, !elem_of_cons, elem_of_nil.
    destruct Hx as [->|[->|[->|[->|[]]]]], Hy as [->|[->|[->|[->|[]]]]];
      vm_compute; tauto.
  - intros g Hg. apply list_elem_of_singleton in Hg. subst g.
    apply elem_of_list_to_set. by left.
  - intros x y Hx Hy.
    rewrite !elem_of_list_to_set, !elem_of_cons, elem_of_nil in Hx.
    rewrite !elem_of_list_to_set, !elem_of_cons, elem_of_nil in Hy.
    destruct Hx as [->|[->|[->|[->|[]]]]], Hy as [->|[->|[->|[->|[]]]]];
      vm_compute; reflexivity.
Defined.

(** ** Matching against the catalogue, in general *)

Lemma match_rotations_result_none (matched std_rotations : list (mat Z))
    (i : nat) (mapping : list Z) :
  match_rotations matched std_rotations i mapping = Ok None →
  ∃ ri, ri ∈ std_rotations ∧ ri ∉ matched.
Proof.
  revert i mapping. induction std_rotations as [|r0 std IH]; intros i mapping;
    cbn [match_rotations]; [done|].
  destruct (list_find _ matched) as [[j x]|] eqn:Hfind.
  - case_decide; [|done]. intros (ri & ? & ?)%IH. exists ri.
    split; [by right|done].
  - intros _. exists r0. split; [by left|].
    apply list_find_None in Hfind. rewrite Forall_forall in Hfind.
    intros Hin. by apply (Hfind r0 Hin).
Qed.

Lemma match_rotations_all (matched : list (mat Z)) (suf pre : list (mat Z))
    (mapping : list Z) :
  NoDup (pre ++ suf) →
  (∀ r, r ∈ pre → r ∈ matched) →
  length mapping = length matched →
  (∀ ri, ri ∈ suf → ri ∈ matched) →
  ∃ mapping',
    match_rotations matched suf (length pre) mapping = Ok (Some mapping').
Proof.
  revert pre mapping. induction suf as [|r0 suf IH];
    intros pre mapping Hnd Hpre Hlen Hall; cbn [match_rotations];
    [by eexists|].
  assert (r0 ∈ matched) as Hr0 by (apply Hall; by left).
  destruct (list_find _ matched) as [[j x]|] eqn:Hfind.
  2:{ apply list_find_None in Hfind. rewrite Forall_forall in Hfind.
      by destruct (Hfind r0 Hr0). }
  assert (∀ r, r ∈ pre ++ [r0] → r ∈ matched) as Hpre'.
  { intros r [?|Hr]%elem_of_app; [auto|].
    apply list_elem_of_singleton in Hr. by subst. }
  assert (length (pre ++ [r0]) ≤ length matched)%nat as Hle.
  { apply submseteq_length, NoDup_submseteq; [|done].
    change (r0 :: suf) with ([r0] ++ suf) in Hnd.
    rewrite (assoc_L (++)) in Hnd. by apply NoDup_app in Hnd as [? _]. }
  rewrite length_app in Hle. simpl in Hle.
  rewrite decide_True by lia.
  replace (S (length pre)) with (length (pre ++ [r0]))
    by (rewrite length_app; simpl; lia).
  apply IH.
  - by rewrite <- (assoc_L (++)).
  - done.
  - by rewrite length_insert.
  - intros ri Hri. apply Hall. by right.
Qed.

Lemma match_rotations_overflow (matched : list (mat Z)) (suf : list (mat Z))
    (i : nat) (mapping : list Z) :
  (i ≤ length mapping)%nat →
  (length mapping - i < length suf)%nat →
  Forall (λ ri, ri ∈ matched) (take (S (length mapping - i)) suf) →
  match_rotations matched suf i mapping = Raise IndexError.
Proof.
  revert i mapping. induction suf as [|r0 suf IH]; intros i mapping Hi Hlen Hall;
    [simpl in Hlen; lia|].
  cbn [match_rotations]. cbn [take] in Hall.
  apply Forall_cons_1 in Hall as [Hr0 Hall].
  destruct (list_find _ matched) as [[j x]|] eqn:Hfind.
  2:{ apply list_find_None in Hfind. rewrite Forall_forall in Hfind.
      by destruct (Hfind r0 Hr0). }
  case_decide as Hlt; [|done].
  apply IH.
  - rewrite length_insert. lia.
  - rewrite length_insert. simpl in Hlen. lia.
  - rewrite length_insert.
    replace (length mapping - i)%nat with (S (length mapping - S i)) in Hall
      by lia. done.
Qed.

Lemma search_catalogue_first (pg_symbol : string) (matched : list (mat Z))
    (order : nat) (entries : list (list (mat Z))) (idx0 : nat)
    (sym : string) (idx : nat) (mapping : list Z) :
  search_catalogue pg_symbol matched order entries idx0
  = Ok (Some (sym, idx, mapping)) →
  ∀ k std_rotations, (k < idx - idx0)%nat →
    entries !! k = Some std_rotations →
    ∃ ri, ri ∈ std_rotations ∧ ri ∉ matched.
Proof.
  revert idx0. induction entries as [|std entries IH]; intros idx0; [done|].
  cbn [search_catalogue].
  destruct (match_rotations matched std 0 _) as [[m|]|e] eqn:Hm;
    cbn [mbind res_bind]; [| |done].
  - intros [= <- <- <-] k std' Hk. lia.
  - intros Hrun [|k] std' Hk Hstd; simpl in Hstd.
    + simplify_eq. by eapply match_rotations_result_none.
    + apply (IH _ Hrun k std'); [|done].
      apply search_catalogue_some in Hrun as (_ & Hle & _). lia.
Qed.

Lemma matches_or_misses (matched std_rotations : list (mat Z)) :
  (∀ ri, ri ∈ std_rotations → ri ∈ matched)
  ∨ ∃ ri, ri ∈ std_rotations ∧ ri ∉ matched.
Proof.
  destruct (decide (Forall (λ ri, ri ∈ matched) std_rotations)) as [Hall|Hno].
  - left. by apply Forall_forall.
  - right. apply not_Forall_Exists in Hno; [|apply _].
    apply Exists_exists in Hno as (ri & ? & ?). by exists ri.
Qed.

Lemma search_catalogue_total (pg_symbol : string) (matched : list (mat Z))
    (entries : list (list (mat Z))) (idx0 : nat) :
  Forall (λ std_rotations, NoDup std_rotations) entries →
  (∃ std_rotations,
     std_rotations ∈ entries ∧ ∀ ri, ri ∈ std_rotations → ri ∈ matched) →
  ∃ idx mapping,
    search_catalogue pg_symbol matched (length matched) entries idx0
    = Ok (Some (pg_symbol, idx, mapping)).
Proof.
  intros Hnd. revert idx0. induction Hnd as [|std entries Hstd _ IH];
    intros idx0 (std' & Hin & Hall); [by apply elem_of_nil in Hin|].
  cbn [search_catalogue].
  destruct (matches_or_misses matched std) as [Hfull|Hmiss].
  - destruct (match_rotations_all matched std []
                (replicate (length matched) (-1)%Z)) as [m Hm]; try done.
    { intros r Hr. by apply elem_of_nil in Hr. }
    { by rewrite length_replicate. }
    simpl in Hm. rewrite Hm. cbn [mbind res_bind]. by eexists _, _.
  - pose proof (match_rotations_none matched std []
                  (replicate (length matched) (-1)%Z)) as Hnone.
    simpl in Hnone. rewrite Hnone; try done.
    + cbn [mbind res_bind]. apply IH. exists std'. split; [|done].
      apply elem_of_cons in Hin as [->|?]; [|done].
      destruct Hmiss as (ri & Hri & Hno). by destruct (Hno (Hall ri Hri)).
    + intros r Hr. by apply elem_of_nil in Hr.
    + by rewrite length_replicate.
Qed.

Section canonical_extra.
Local Open Scope Qc_scope.
Variable get_pointgroup : list (mat Z) → string * mat Z.
Variable pg_dataset : gmap string (list (list (mat Z))).

(** X15: the catalogue entry named by a returned triple is the first one
    that matches: every entry before it holds a rotation that is not the
    conjugate of an input rotation.  When that entry lists as many
    rotations as the input, all distinct, the returned mapping is a
    bijection: no entry is -1, none is repeated, all are positions of the
    input. *)
Theorem get_canonical_pointgroup_first (prim_rotations : list (mat Z))
    (pg_symbol : string) (idx : nat) (mapping : list Z) :
  get_canonical_pointgroup get_pointgroup pg_dataset prim_rotations
  = Ok (Some (pg_symbol, idx, mapping)) →
  ∃ P Pinv entries std_rotations,
    get_pointgroup prim_rotations = (pg_symbol, P)
    ∧ np_linalg_inv (mat_map ZQ P) = Ok Pinv
    ∧ pg_dataset !! pg_symbol = Some entries
    ∧ entries !! idx = Some std_rotations
    ∧ (∀ k earlier, (k < idx)%nat → entries !! k = Some earlier →
         ∃ ri, ri ∈ earlier
               ∧ ri ∉ (conjugate (mat_map ZQ P) Pinv <$> prim_rotations))
    ∧ (length std_rotations = length prim_rotations →
       NoDup std_rotations →
       NoDup mapping
       ∧ Forall (λ j, 0 ≤ j < Z.of_nat (length prim_rotations))%Z mapping).
Proof.
  unfold get_canonical_pointgroup.
  destruct (get_pointgroup prim_rotations) as [sym P] eqn:Hpg.
  destruct (np_linalg_inv (mat_map ZQ P)) as [Pinv|e] eqn:Hinv; [|done].
  cbn [mbind res_bind].
  destruct (pg_dataset !! sym) as [entries|] eqn:Hds; [|done].
  cbn [mbind res_bind]. intros Hrun.
  pose proof (search_catalogue_first _ _ _ _ _ _ _ _ Hrun) as Hfirst.
  apply search_catalogue_some in Hrun as (-> & _ & std & Hstd & Hrun).
  rewrite Nat.sub_0_r in Hstd, Hfirst.
  exists P, Pinv, entries, std. split; [done|]. split; [done|].
  split; [done|]. split; [done|]. split; [exact Hfirst|].
  intros Hlen Hnd.
  apply match_rotations_some in Hrun as (Hlm & _ & Hmap).
  rewrite length_replicate in Hlm.
  assert (∀ k x, mapping !! k = Some x →
            ∃ ri j, std !! k = Some ri ∧ x = Z.of_nat j
                    ∧ (conjugate (mat_map ZQ P) Pinv <$> prim_rotations) !! j
                      = Some ri) as Hentry.
  { intros k x Hx.
    destruct (lookup_lt_is_Some_2 std k) as [ri Hri].
    { apply lookup_lt_Some in Hx. lia. }
    destruct (Hmap k ri Hri) as (j & Hj & Hm). simpl in Hj.
    exists ri, j. split; [done|]. split; [congruence|done]. }
  split.
  - apply NoDup_alt. intros k k' x Hk Hk'.
    destruct (Hentry k x Hk) as (ri & j & Hri & -> & Hj).
    destruct (Hentry k' _ Hk') as (ri' & j' & Hri' & Hjj & Hj').
    apply Nat2Z.inj in Hjj. subst j'.
    assert (ri = ri') as -> by congruence.
    rewrite NoDup_alt in Hnd. by eapply Hnd.
  - apply Forall_lookup. intros k x Hx.
    destruct (Hentry k x Hx) as (ri & j & _ & -> & Hj).
    apply lookup_lt_Some in Hj. rewrite length_fmap in Hj. simpl. lia.
Qed.

(** X16: when the basis change is invertible, the symbol has catalogue
    entries and each entry lists distinct rotations, the function returns a
    triple exactly when some entry matches (all its rotations are
    conjugates of input rotations), and [None] exactly when none does; it
    raises no exception. *)
Theorem get_canonical_pointgroup_decides (prim_rotations : list (mat Z))
    (pg_symbol : string) (P : mat Z) (Pinv : mat Qc)
    (entries : list (list (mat Z))) :
  get_pointgroup prim_rotations = (pg_symbol, P) →
  np_linalg_inv (mat_map ZQ P) = Ok Pinv →
  pg_dataset !! pg_symbol = Some entries →
  Forall (λ std_rotations, NoDup std_rotations) entries →
  let matched := conjugate (mat_map ZQ P) Pinv <$> prim_rotations in
  let matches (std_rotations : list (mat Z)) :=
    ∀ ri, ri ∈ std_rotations → ri ∈ matched in
  ((∃ std_rotations, std_rotations ∈ entries ∧ matches std_rotations)
   → ∃ idx mapping,
       get_canonical_pointgroup get_pointgroup pg_dataset prim_rotations
       = Ok (Some (pg_symbol, idx, mapping)))
  ∧ ((¬ ∃ std_rotations, std_rotations ∈ entries ∧ matches std_rotations)
     → get_canonical_pointgroup get_pointgroup pg_dataset prim_rotations
       = Ok None).
Proof.
  intros Hpg Hinv Hds Hnd matched matches.
  unfold get_canonical_pointgroup. rewrite Hpg, Hinv. cbn [mbind res_bind].
  rewrite Hds. cbn [mbind res_bind]. split.
  - intros Hex.
    destruct (search_catalogue_total pg_symbol matched entries 0 Hnd Hex)
      as (idx & mapping & Hrun).
    exists idx, mapping. unfold matched in Hrun.
    by rewrite length_fmap in Hrun.
  - intros Hno. apply search_catalogue_none.
    rewrite Forall_forall in Hnd. apply Forall_forall. intros std Hstd.
    apply (match_rotations_none _ std []); simpl.
    + by apply Hnd.
    + intros r Hr. by apply elem_of_nil in Hr.
    + by rewrite length_replicate, length_fmap.
    + destruct (matches_or_misses matched std) as [Hfull|Hmiss]; [|done].
      destruct Hno. by exists std.
Qed.

(** X17: a catalogue entry with more rotations than the input whose first
    [order + 1] rotations are all conjugates of input rotations makes the
    assignment [mapping[i] = j] run past the end of [mapping]: when it is
    the first entry, the function raises [IndexError]. *)
Theorem get_canonical_pointgroup_overflow (prim_rotations : list (mat Z))
    (pg_symbol : string) (P : mat Z) (Pinv : mat Qc)
    (std_rotations : list (mat Z)) (rest : list (list (mat Z))) :
  get_pointgroup prim_rotations = (pg_symbol, P) →
  np_linalg_inv (mat_map ZQ P) = Ok Pinv →
  pg_dataset !! pg_symbol = Some (std_rotations :: rest) →
  (length prim_rotations < length std_rotations)%nat →
  Forall (λ ri, ri ∈ conjugate (mat_map ZQ P) Pinv <$> prim_rotations)
         (take (S (length prim_rotations)) std_rotations) →
  get_canonical_pointgroup get_pointgroup pg_dataset prim_rotations
  = Raise IndexError.
Proof.
  intros Hpg Hinv Hds Hlen Hall. unfold get_canonical_pointgroup.
  rewrite Hpg, Hinv. cbn [mbind res_bind]. rewrite Hds.
  cbn [mbind res_bind search_catalogue].
  rewrite match_rotations_overflow; [done| | |].
  - lia.
  - rewrite length_replicate. lia.
  - by rewrite length_replicate, Nat.sub_0_r.
Qed.

End canonical_extra.

Lemma get_canonical_pointgroup_first_witness :
  ∃ P Pinv entries std_rotations,
    trivial_oracle [eyeZ] = ("1"%string, P)
    ∧ np_linalg_inv (mat_map ZQ P) = Ok Pinv
    ∧ trivial_dataset !! "1"%string = Some entries
    ∧ entries !! 0%nat = Some std_rotations
    ∧ (∀ k earlier, (k < 0)%nat → entries !! k = Some earlier →
         ∃ ri, ri ∈ earlier
               ∧ ri ∉ (conjugate (mat_map ZQ P) Pinv <$> [eyeZ]))
    ∧ (length std_rotations = length [eyeZ] →
       NoDup std_rotations →
       NoDup [0%Z]
       ∧ Forall (λ j, 0 ≤ j < Z.of_nat (length [eyeZ]))%Z [0%Z]).
Proof.
  apply (get_canonical_pointgroup_first trivial_oracle trivial_dataset
           [eyeZ] "1"%string 0%nat [0%Z]).
  vm_compute. reflexivity.
Defined.

Lemma get_canonical_pointgroup_decides_witness :
  ∃ idx mapping,
    get_canonical_pointgroup trivial_oracle trivial_dataset [eyeZ]
    = Ok (Some ("1"%string, idx, mapping)).
Proof.
  apply (proj1 (get_canonical_pointgroup_decides trivial_oracle
                  trivial_dataset [eyeZ] "1"%string eyeZ eyeQ [[eyeZ]]
                  eq_refl ltac:(compute_done) eq_refl
                  ltac:(repeat constructor; by intros ?%elem_of_nil))).
  exists [eyeZ]. split; [by left|].
  intros ri Hri. apply list_elem_of_singleton in Hri. subst ri.
  apply list_elem_of_singleton. by vm_compute.
Defined.

Lemma get_canonical_pointgroup_overflow_witness :
  get_canonical_pointgroup trivial_oracle repeated_dataset [eyeZ]
  = Raise IndexError.
Proof.
  apply (get_canonical_pointgroup_overflow trivial_oracle repeated_dataset
           [eyeZ] "1"%string eyeZ eyeQ [eyeZ; eyeZ] []).
  - reflexivity.
  - compute_done.
  - reflexivity.
  - simpl. lia.
  - cbn [take length]. repeat apply List.Forall_cons; try apply List.Forall_nil;
      apply list_elem_of_singleton; by vm_compute.
Defined.

(** ** [get_symmetry_with_cell] *)

Section cell_facts.
Local Open Scope Qc_scope.

Lemma ZQ_le (a b : Z) : (a ≤ b)%Z → ZQ a ≤ ZQ b.
Proof.
  intros Hab. unfold Qcle. rewrite !ZQ_this. by rewrite <- Zle_Qle.
Qed.

Lemma ZQ_lt (a b : Z) : (a < b)%Z → ZQ a < ZQ b.
Proof.
  intros Hab. unfold Qclt. rewrite !ZQ_this. by rewrite <- Zlt_Qlt.
Qed.

Lemma Qcabs_ZQ (d : Z) : Qcabs (ZQ d) = ZQ (Z.abs d).
Proof.
  unfold Qcabs. destruct (decide (d < 0)%Z) as [Hneg|Hpos].
  - rewrite decide_True by (by apply (ZQ_lt d 0)).
    rewrite <- ZQ_opp. f_equal. lia.
  - rewrite decide_False.
    + f_equal. lia.
    + apply Qcle_not_lt. apply (ZQ_le 0 d). lia.
Qed.

(** On integers next to an entry of the identity matrix, [np.isclose] is
    equality. *)
Lemma np_isclose_integer (a b : Z) :
  (b = 0 ∨ b = 1)%Z → np_isclose (ZQ a) (ZQ b) = true ↔ a = b.
Proof.
  intros Hb. unfold np_isclose. rewrite <- ZQ_sub, !Qcabs_ZQ.
  rewrite bool_decide_eq_true. split.
  - intros Hle. destruct (decide (a = b)) as [|Hne]; [done|]. exfalso.
    assert (ZQ 1 ≤ ZQ (Z.abs (a - b))) as H1 by (apply ZQ_le; lia).
    assert (Q2Qc (1 # 100000000) + Q2Qc (1 # 100000) * ZQ (Z.abs b) < ZQ 1)
      as Hsmall by (destruct Hb as [-> | ->]; by vm_compute).
    eapply Qclt_not_le; [exact Hsmall|]. by etrans.
  - intros ->. rewrite Z.sub_diag.
    destruct Hb as [-> | ->]; by vm_compute.
Qed.

Lemma np_allclose_identity (rot : mat Z) :
  np_allclose (mat_map ZQ rot) eyeQ = true ↔ rot = eyeZ.
Proof.
  destruct_mat rot. unfold np_allclose, eyeQ, eyeZ.
  cbn [mat_map vec_map vec_zip vec_all].
  change 1 with (ZQ 1). change 0 with (ZQ 0).
  rewrite !andb_true_iff, !np_isclose_integer by auto.
  split.
  - intros Hall.
    repeat match goal with H : _ ∧ _ |- _ => destruct H end. by subst.
  - intros [= -> -> -> -> -> -> -> -> ->]. tauto.
Qed.

Lemma ndarray2d_to_integer_tuple_ZQ (rot : mat Z) :
  ndarray2d_to_integer_tuple (mat_map ZQ rot) = rot.
Proof.
  destruct_mat rot. cbn [ndarray2d_to_integer_tuple mat_map vec_map].
  by rewrite !around_astype_ZQ.
Qed.

Lemma unique_by_rotation_spec (ops : list (mat Z * vec Qc))
    (found : gset (mat Z)) (uniq : list (mat Z * vec Qc))
    (centerings : list (vec Qc))
    (uniq' : list (mat Z * vec Qc)) (centerings' : list (vec Qc)) :
  unique_by_rotation ops found uniq centerings = (uniq', centerings') →
  (∀ r, r ∈ found ↔ r ∈ uniq.*1) →
  NoDup uniq.*1 →
  NoDup uniq'.*1
  ∧ (∀ r, r ∈ uniq'.*1 ↔ r ∈ uniq.*1 ∨ r ∈ ops.*1)
  ∧ centerings' = centerings ++ (filter (λ op, op.1 = eyeZ) ops).*2
  ∧ ∃ new, uniq' = uniq ++ new ∧ sublist new ops.
Proof.
  revert found uniq centerings.
  induction ops as [|[rot trans] ops IH]; intros found uniq centerings;
    cbn [unique_by_rotation].
  - intros [= <- <-] Hfound Hnd. split; [done|]. split.
    + intros r. split; [by left|]. intros [?|Hr]; [done|].
      by apply elem_of_nil in Hr.
    + split; [by rewrite app_nil_r|]. exists []. by rewrite app_nil_r.
  - rewrite ndarray2d_to_integer_tuple_ZQ.
    assert ((if np_allclose (mat_map ZQ rot) eyeQ
             then centerings ++ [trans] else centerings)
            = centerings ++ (filter (λ op : mat Z * vec Qc, op.1 = eyeZ)
                                    [(rot, trans)]).*2) as ->.
    { rewrite filter_cons, filter_nil. cbn [fst].
      destruct (np_allclose (mat_map ZQ rot) eyeQ) eqn:Hclose.
      - apply np_allclose_identity in Hclose. by rewrite decide_True.
      - rewrite decide_False; [by rewrite app_nil_r|].
        intros Heq%np_allclose_identity. congruence. }
    case_decide as Hin.
    + intros Hrun Hfound Hnd.
      destruct (IH _ _ _ Hrun Hfound Hnd) as (Hnd' & Hmem & Hcent & new & Hnew & Hsub).
      split; [done|]. split; [|split].
      * intros r. rewrite Hmem. cbn [fmap list_fmap fst]. rewrite elem_of_cons.
        split; [tauto|]. intros [?|[->|?]]; [tauto| |tauto].
        left. by apply Hfound.
      * rewrite Hcent, <- (assoc_L (++)). f_equal.
        change ((rot, trans) :: ops) with ([(rot, trans)] ++ ops).
        by rewrite filter_app, fmap_app.
      * exists new. split; [done|]. by apply sublist_cons.
    + intros Hrun Hfound Hnd.
      destruct (IH _ _ _ Hrun) as (Hnd' & Hmem & Hcent & new & Hnew & Hsub).
      * intros r. rewrite fmap_app, elem_of_app, elem_of_union, elem_of_singleton.
        cbn [fmap list_fmap fst]. rewrite list_elem_of_singleton, Hfound. tauto.
      * rewrite fmap_app. apply NoDup_app. split; [done|].
        split; [|apply NoDup_singleton].
        intros r Hr Hr'. apply list_elem_of_singleton in Hr'. subst r.
        apply Hin. by apply Hfound.
      * split; [done|]. split; [|split].
        -- intros r. rewrite Hmem, fmap_app, elem_of_app.
           cbn [fmap list_fmap fst]. rewrite list_elem_of_singleton, elem_of_cons.
           tauto.
        -- rewrite Hcent, <- (assoc_L (++)). f_equal.
           change ((rot, trans) :: ops) with ([(rot, trans)] ++ ops).
           by rewrite filter_app, fmap_app.
        -- exists ((rot, trans) :: new). split.
           ++ by rewrite Hnew, <- (assoc_L (++)).
           ++ by apply sublist_skip.
Qed.

Variable get_symmetry_dataset :
  mat Qc → list (vec Qc) → list Z → Qc → Qc →
  list (mat Z) * list (vec Qc) * mat Qc.

(** X18: in the record returned by [get_symmetry_with_cell] the operations
    are unique by rotation: they come, in order, from operations of the
    dataset with pairwise distinct rotations, every rotation of the dataset
    being represented; and the centerings are the translations of the
    operations whose rotation is the identity, in the basis of the
    primitive lattice. *)
Theorem get_symmetry_with_cell_unique (lattice : mat Qc)
    (positions : list (vec Qc)) (numbers : list Z)
    (symprec angle_tolerance : Qc) (rotations : list (mat Z))
    (translations : list (vec Qc)) (primitive_lattice : mat Qc)
    (symmetry : NonmagneticSymmetry) :
  get_symmetry_dataset lattice positions numbers symprec angle_tolerance
  = (rotations, translations, primitive_lattice) →
  get_symmetry_with_cell get_symmetry_dataset lattice positions numbers
                         symprec angle_tolerance = Ok symmetry →
  ∃ uniq prim_lattice_T_inv invtmat,
    let tmat := matmul prim_lattice_T_inv (transpose lattice) in
    np_linalg_inv (transpose primitive_lattice) = Ok prim_lattice_T_inv
    ∧ np_linalg_inv tmat = Ok invtmat
    ∧ NoDup uniq.*1
    ∧ sublist uniq (zip rotations translations)
    ∧ (∀ rot, rot ∈ (zip rotations translations).*1 → rot ∈ uniq.*1)
    ∧ prim_rotations symmetry
      = (λ rot, around_int (matmul (matmul tmat (mat_map ZQ rot)) invtmat))
          <$> uniq.*1
    ∧ prim_translations symmetry = mat_vec tmat <$> uniq.*2
    ∧ prim_centerings symmetry
      = mat_vec tmat
          <$> (filter (λ op, op.1 = eyeZ) (zip rotations translations)).*2
    ∧ prim_lattice symmetry = primitive_lattice
    ∧ transformation symmetry = around_int tmat.
Proof.
  intros Hds. unfold get_symmetry_with_cell. rewrite Hds.
  destruct (unique_by_rotation (zip rotations translations) ∅ [] [])
    as [uniq centerings] eqn:Huniq.
  destruct (np_linalg_inv (transpose primitive_lattice)) as [pinv|e] eqn:Hpinv;
    [|done]. cbn [mbind res_bind].
  destruct (np_isclose _ _); cbn [negb]; [|done].
  destruct (get_symmetry_permutations _ _ _ uniq.*1 _ _) as [pp|e]; [|done].
  cbn [mbind res_bind].
  destruct (get_symmetry_permutations _ _ _ (replicate _ _) _ _) as [cp|e];
    [|done].
  cbn [mbind res_bind].
  destruct (np_linalg_inv (matmul pinv (transpose lattice))) as [invtmat|e]
    eqn:Hinv; [|done]. cbn [mbind res_bind]. intros [= <-].
  apply unique_by_rotation_spec in Huniq
    as (Hnd & Hmem & Hcent & new & Hnew & Hsub); [|set_solver|constructor].
  simpl in Hcent, Hnew. subst centerings new.
  exists uniq, pinv, invtmat. cbn zeta.
  cbn [prim_rotations prim_translations prim_centerings prim_lattice
       transformation].
  rewrite zip_fst_snd.
  repeat (split; [done|]). split; [|done].
  intros rot Hrot. apply Hmem. by right.
Qed.

(** X19: the lists of the returned record are aligned: there is one
    permutation for every operation and one for every centering, whether
    the sites could be matched or not. *)
Theorem get_symmetry_with_cell_aligned (lattice : mat Qc)
    (positions : list (vec Qc)) (numbers : list Z)
    (symprec angle_tolerance : Qc) (symmetry : NonmagneticSymmetry) :
  get_symmetry_with_cell get_symmetry_dataset lattice positions numbers
                         symprec angle_tolerance = Ok symmetry →
  length (prim_translations symmetry) = length (prim_rotations symmetry)
  ∧ length (prim_permutations symmetry) = length (prim_rotations symmetry)
  ∧ length (prim_centering_permutations symmetry)
    = length (prim_centerings symmetry)
  ∧ Forall (λ p, length (permutation p) = length positions)
           (prim_permutations symmetry ++ prim_centering_permutations symmetry).
Proof.
  unfold get_symmetry_with_cell.
  destruct (get_symmetry_dataset _ _ _ _ _) as [[rotations translations] pl].
  destruct (unique_by_rotation (zip rotations translations) ∅ [] [])
    as [uniq centerings] eqn:Huniq.
  destruct (np_linalg_inv (transpose pl)) as [pinv|e]; [|done].
  cbn [mbind res_bind].
  destruct (np_isclose _ _); cbn [negb]; [|done].
  destruct (get_symmetry_permutations _ _ _ uniq.*1 _ _) as [pp|e] eqn:Hpp;
    [|done]. cbn [mbind res_bind].
  destruct (get_symmetry_permutations _ _ _ (replicate _ _) _ _) as [cp|e]
    eqn:Hcp; [|done].
  cbn [mbind res_bind].
  destruct (np_linalg_inv (matmul pinv (transpose lattice))) as [invtmat|e];
    [|done]. cbn [mbind res_bind]. intros [= <-].
  cbn [prim_rotations prim_translations prim_centerings prim_permutations
       prim_centering_permutations].
  pose proof (get_symmetry_permutations_length _ _ _ _ _ _ _ Hpp) as Hlpp.
  pose proof (get_symmetry_permutations_length _ _ _ _ _ _ _ Hcp) as Hlcp.
  rewrite zip_fst_snd in *. rewrite length_zip, length_replicate in Hlcp.
  rewrite !length_fmap.
  split; [done|]. split; [done|]. split; [lia|].
  apply Forall_app. split.
  - by eapply get_symmetry_permutations_sites.
  - by eapply get_symmetry_permutations_sites.
Qed.

End cell_facts.

Lemma get_symmetry_with_cell_unique_witness :
  ∃ symmetry,
    get_symmetry_with_cell cubic_dataset eyeQ [zero3] [1%Z] (Q2Qc (1 # 10))
                           (ZQ (-1)) = Ok symmetry
    ∧ ∃ uniq prim_lattice_T_inv invtmat,
        let tmat := matmul prim_lattice_T_inv (transpose eyeQ) in
        np_linalg_inv (transpose eyeQ) = Ok prim_lattice_T_inv
        ∧ np_linalg_inv tmat = Ok invtmat
        ∧ NoDup uniq.*1
        ∧ sublist uniq (zip [eyeZ; inversionZ; inversionZ]
                            [zero3; zero3; zero3])
        ∧ (∀ rot, rot ∈ (zip [eyeZ; inversionZ; inversionZ]
                             [zero3; zero3; zero3]).*1 → rot ∈ uniq.*1)
        ∧ prim_rotations symmetry
          = (λ rot, around_int (matmul (matmul tmat (mat_map ZQ rot)) invtmat))
              <$> uniq.*1
        ∧ prim_translations symmetry = mat_vec tmat <$> uniq.*2
        ∧ prim_centerings symmetry
          = mat_vec tmat
              <$> (filter (λ op, op.1 = eyeZ)
                          (zip [eyeZ; inversionZ; inversionZ]
                               [zero3; zero3; zero3])).*2
        ∧ prim_lattice symmetry = eyeQ
        ∧ transformation symmetry = around_int tmat.
Proof.
  eexists. split; [vm_compute; reflexivity|].
  apply (get_symmetry_with_cell_unique cubic_dataset eyeQ [zero3] [1%Z]
           (Q2Qc (1 # 10)) (ZQ (-1)) [eyeZ; inversionZ; inversionZ]
           [zero3; zero3; zero3] eyeQ).
  - reflexivity.
  - vm_compute. reflexivity.
Defined.

Lemma get_symmetry_with_cell_aligned_witness :
  ∃ symmetry,
    get_symmetry_with_cell cubic_dataset eyeQ [zero3] [1%Z] (Q2Qc (1 # 10))
                           (ZQ (-1)) = Ok symmetry
    ∧ length (prim_translations symmetry) = length (prim_rotations symmetry)
    ∧ length (prim_permutations symmetry) = length (prim_rotations symmetry)
    ∧ length (prim_centering_permutations symmetry)
      = length (prim_centerings symmetry)
    ∧ Forall (λ p, length (permutation p) = length [zero3])
             (prim_permutations symmetry
                ++ prim_centering_permutations symmetry).
Proof.
  eexists. split; [vm_compute; reflexivity|].
  apply (get_symmetry_with_cell_aligned cubic_dataset eyeQ [zero3] [1%Z]
           (Q2Qc (1 # 10)) (ZQ (-1))).
  vm_compute. reflexivity.
Defined.

(** ** [get_pointgroup_representative] *)

Lemma py_index_small {A : Type} (l : list A) (i : nat) :
  py_index l (Z.of_nat i)
  = match l !! i with Some a => Ok a | None => Raise IndexError end.
Proof.
  unfold py_index. rewrite (decide_False (P := (Z.of_nat i < 0)%Z)) by lia.
  rewrite decide_True by lia. by rewrite Nat2Z.id.
Qed.

(** X20: for a symbol of the table and a catalogue that knows it, the
    representative is the description of the catalogue at the position the
    table fixes: the second description for "2" and "m", the third for
    "mm2", the first for every other crystal class; a catalogue with too
    few descriptions gives [IndexError]. *)
Theorem get_pointgroup_representative_choice
    (pg_dataset : gmap string (list (list (mat Z)))) (symbol : string)
    (descriptions : list (list (mat Z))) :
  is_Some (POINT_GROUP_REPRESENTATIVES !! symbol) →
  pg_dataset !! symbol = Some descriptions →
  let index :=
    if decide (symbol = "2" ∨ symbol = "m")%string then 1%nat
    else if decide (symbol = "mm2"%string) then 2%nat else 0%nat in
  get_pointgroup_representative pg_dataset symbol
  = match descriptions !! index with
    | Some group => Ok group
    | None => Raise IndexError
    end.
Proof.
  intros [index Hindex] Hds index'. unfold get_pointgroup_representative, py_getitem.
  rewrite Hindex, Hds. cbn [mbind res_bind].
  assert (index = Z.of_nat index') as ->; [|apply py_index_small].
  unfold POINT_GROUP_REPRESENTATIVES in Hindex.
  apply elem_of_list_to_map_2 in Hindex.
  repeat (apply elem_of_cons in Hindex as [[= -> ->]|Hindex];
          [by vm_compute|]).
  by apply elem_of_nil in Hindex.
Qed.

Lemma get_pointgroup_representative_choice_witness :
  get_pointgroup_representative
    {[ "mm2"%string := [[eyeZ]; [eyeZ; inversionZ]; [inversionZ]] ]}
    "mm2"
  = Ok [inversionZ].
Proof.
  apply (get_pointgroup_representative_choice
           {[ "mm2"%string := [[eyeZ]; [eyeZ; inversionZ]; [inversionZ]] ]}
           "mm2" [[eyeZ]; [eyeZ; inversionZ]; [inversionZ]]).
  - vm_compute. eexists. reflexivity.
  - vm_compute. reflexivity.
Defined.

(** X21: [get_pointgroup_representative] raises [KeyError] exactly when the
    symbol is missing from the table of representatives or from the
    catalogue. *)
Theorem get_pointgroup_representative_key_error
    (pg_dataset : gmap string (list (list (mat Z)))) (symbol : string) :
  get_pointgroup_representative pg_dataset symbol = Raise KeyError
  ↔ POINT_GROUP_REPRESENTATIVES !! symbol = None ∨ pg_dataset !! symbol = None.
Proof.
  unfold get_pointgroup_representative, py_getitem.
  destruct (POINT_GROUP_REPRESENTATIVES !! symbol) as [index|];
    cbn [mbind res_bind]; [|by split; [left|]].
  destruct (pg_dataset !! symbol) as [descriptions|];
    cbn [mbind res_bind]; [|by split; [right|]].
  split; [|by intros [?|?]].
  by intros [=]%py_index_raise.
Qed.
